(** * RandBLAS: sketching kernels, sparse COO/CSR utilities and RNG state

    A shallow embedding of the parts of RandBLAS that the specification's
    claims talk about, followed by the theorems that settle them.

    Conventions of the embedding.
    - [int64_t] values are integers of [Z], and the sums and products the
      code forms from them are those of [Z]: a signed overflow is not
      modelled.  A theorem whose statement depends on such a result asks
      for it to be in the range of [int64_t].  [uint32_t] counter words
      wrap around, and the wrap-around is written out.
    - The scalar type [T] of the templates is a type parameter with the
      three operations the kernels use ([0.0], [+], [*]).  No algebraic law
      is assumed about them, so the results hold for floating point too.
    - A C++ array is a list; an access outside the list is [Undefined]
      (the C++ program has no defined behaviour there), a failed
      [randblas_require] is [Throw].
    - Arrays that are reached through pointers stored in a matrix object
      live in a [heap]; two objects that hold the same address share the
      array. *)

From stdpp Require Import gmap list sorting.
From Stdlib Require Import ZArith Lia.

Local Open Scope Z_scope.

(** ** Outcomes of a call *)

Module mem.

Inductive outcome (A : Type) : Type :=
  | Ok (a : A)
  | Throw
  | Undefined.
Arguments Ok {A} a.
Arguments Throw {A}.
Arguments Undefined {A}.

#[global] Instance outcome_ret : MRet outcome := λ A a, Ok a.
#[global] Instance outcome_bind : MBind outcome :=
  λ A B f m, match m with Ok a => f a | Throw => Throw | Undefined => Undefined end.

(** [randblas_require(cond)] throws when the condition is false. *)
Definition randblas_require (cond : bool) : outcome unit :=
  if cond then Ok () else Throw.

(** [a[i]] as an rvalue. *)
Definition rd {A} (a : list A) (i : Z) : outcome A :=
  if i <? 0 then Undefined
  else match a !! Z.to_nat i with Some x => Ok x | None => Undefined end.

(** [a[i] = x]. *)
Definition wr {A} (a : list A) (i : Z) (x : A) : outcome (list A) :=
  if (0 <=? i) && (i <? Z.of_nat (length a)) then Ok (<[Z.to_nat i := x]> a)
  else Undefined.

(** [std::vector<A> v(n, x)]; a negative [n] converts to a size beyond
    [max_size()] and the constructor throws. *)
Definition vector_new {A} (n : Z) (x : A) : outcome (list A) :=
  if n <? 0 then Throw else Ok (replicate (Z.to_nat n) x).

(** [for (i = lo; i < hi; ++i) body], the state of the loop threaded
    through the iterations. *)
Fixpoint for_loop {S} (count : nat) (i : Z) (body : Z → S → outcome S) (s : S)
  : outcome S :=
  match count with
  | O => Ok s
  | Datatypes.S c => s' ← body i s; for_loop c (i + 1) body s'
  end.

Definition for_range {S} (lo hi : Z) (body : Z → S → outcome S) (s : S)
  : outcome S :=
  for_loop (Z.to_nat (hi - lo)) lo body s.

(** The same loop when the body may [break]: the body returns [true] to
    leave the loop. *)
Fixpoint for_loop_break {S} (count : nat) (i : Z)
    (body : Z → S → outcome (S * bool)) (s : S) : outcome S :=
  match count with
  | O => Ok s
  | Datatypes.S c =>
      '(s', stop) ← body i s;
      if stop : bool then Ok s' else for_loop_break c (i + 1) body s'
  end.

Definition for_range_break {S} (lo hi : Z)
    (body : Z → S → outcome (S * bool)) (s : S) : outcome S :=
  for_loop_break (Z.to_nat (hi - lo)) lo body s.

(** ** The heap of arrays reached through pointers

    An address is a natural number, [nullptr] is address 0, and an address
    that is not mapped (null, or freed) gives access to no cell at all. *)

Section heap.
Context {T : Type}.

Record heap : Type := Heap {
  cells_T : gmap nat (list T);
  cells_i : gmap nat (list Z);
  next_addr : nat
}.

Definition prog (A : Type) : Type := heap → outcome (A * heap).

#[global] Instance prog_ret : MRet prog := λ A a h, Ok (a, h).
#[global] Instance prog_bind : MBind prog :=
  λ A B f m h,
    match m h with
    | Ok (a, h') => f a h'
    | Throw => Throw
    | Undefined => Undefined
    end.

Definition lift {A} (o : outcome A) : prog A :=
  λ h, match o with
       | Ok a => Ok (a, h)
       | Throw => Throw
       | Undefined => Undefined
       end.

Definition view_T (h : heap) (a : nat) : list T := default [] (cells_T h !! a).
Definition view_i (h : heap) (a : nat) : list Z := default [] (cells_i h !! a).

Definition load_T (a : nat) : prog (list T) := λ h, Ok (view_T h a, h).
Definition load_i (a : nat) : prog (list Z) := λ h, Ok (view_i h a, h).

(** Writing back the cells of an array; there is nothing to write at an
    address that is not mapped. *)
Definition store_T (a : nat) (l : list T) : prog unit :=
  λ h, Ok ((), match cells_T h !! a with
               | Some _ => Heap (<[a := l]> (cells_T h)) (cells_i h) (next_addr h)
               | None => h
               end).
Definition store_i (a : nat) (l : list Z) : prog unit :=
  λ h, Ok ((), match cells_i h !! a with
               | Some _ => Heap (cells_T h) (<[a := l]> (cells_i h)) (next_addr h)
               | None => h
               end).

(** [new T[n]] and [new int64_t[n]]: the cells of a fresh array hold
    indeterminate values, which the caller of the model supplies as
    [junk] (one value per cell); a negative [n] makes [new] throw. *)
Definition new_T (n : Z) (junk : nat → T) : prog nat :=
  λ h, if n <? 0 then Throw
       else let a := Datatypes.S (next_addr h) in
            Ok (a, Heap (<[a := junk <$> seq 0 (Z.to_nat n)]> (cells_T h))
                        (cells_i h) a).
Definition new_i (n : Z) (junk : nat → Z) : prog nat :=
  λ h, if n <? 0 then Throw
       else let a := Datatypes.S (next_addr h) in
            Ok (a, Heap (cells_T h)
                        (<[a := junk <$> seq 0 (Z.to_nat n)]> (cells_i h)) a).

(** [delete [] p]; deleting [nullptr] does nothing. *)
Definition delete_T (a : nat) : prog unit :=
  λ h, Ok ((), Heap (delete a (cells_T h)) (cells_i h) (next_addr h)).
Definition delete_i (a : nat) : prog unit :=
  λ h, Ok ((), Heap (cells_T h) (delete a (cells_i h)) (next_addr h)).
End heap.
Arguments heap : clear implicits.
Arguments prog : clear implicits.

End mem.
Export mem.

(** ** The ranges of [int] and [int64_t] *)

Module cint.

(** The value is one that an [int64_t] holds. *)
Definition in_int64 (x : Z) : Prop := - 2 ^ 63 ≤ x ≤ 2 ^ 63 - 1.

Definition int_min : Z := - 2 ^ 31.
Definition int_max : Z := 2 ^ 31 - 1.

(** [int j = x] for an [int64_t] value [x]: the value of [x] modulo
    [2^32] that lies in the range of [int]. *)
Definition to_int (x : Z) : Z := (x + 2 ^ 31) `mod` 2 ^ 32 - 2 ^ 31.

End cint.

(** ** COO matrices ([RandBLAS/sparse_data/coo.hh]) *)

Module NonzeroSort.
Inductive t : Type := CSC | CSR | None.
#[global] Instance NonzeroSort_eq_dec : EqDecision t.
Proof. solve_decision. Defined.
End NonzeroSort.

Module IndexBase.
(** Declared in [sparse_data/base.hh]; the two bases the code tests for. *)
Inductive t : Type := Zero | One.
#[global] Instance IndexBase_eq_dec : EqDecision t.
Proof. solve_decision. Defined.
End IndexBase.

Module sparse_data.

Definition increasing_by_csr (i0 j0 i1 j1 : Z) : bool :=
  if i0 >? i1 then false
  else if i0 =? i1 then j0 <=? j1
  else true.

Definition increasing_by_csc (i0 j0 i1 j1 : Z) : bool :=
  if j0 >? j1 then false
  else if j0 =? j1 then i0 <=? i1
  else true.

Definition coo_sort_type (nnz : Z) (rows cols : list Z) : outcome NonzeroSort.t :=
  '(csr_okay, csc_okay) ←
    for_range_break 1 nnz
      (λ ell '(csr_okay, csc_okay),
         i0 ← rd rows (ell - 1);
         j0 ← rd cols (ell - 1);
         i1 ← rd rows ell;
         j1 ← rd cols ell;
         let csr_okay : bool :=
           if csr_okay : bool then increasing_by_csr i0 j0 i1 j1 else csr_okay in
         let csc_okay : bool :=
           if csc_okay : bool then increasing_by_csc i0 j0 i1 j1 else csc_okay in
         mret ((csr_okay, csc_okay), negb csr_okay && negb csc_okay))
      (true, true);
  mret (if csr_okay : bool then NonzeroSort.CSR
        else if csc_okay : bool then NonzeroSort.CSC
        else NonzeroSort.None).

(** [std::sort(first, last, comp)].  The C++ routine is not stable: it may
    leave elements that [comp] does not separate in any order.  The model
    is a merge sort on "not greater"; where a result depends on the order
    of such elements, the theorems below ask for distinct keys. *)
Definition not_after {A} (comp : A → A → bool) : relation A :=
  λ x y, comp y x = false.
#[global] Instance not_after_dec {A} (comp : A → A → bool) x y :
  Decision (not_after comp x y).
Proof. unfold not_after. apply _. Defined.
Definition std_sort {A} (comp : A → A → bool) (l : list A) : list A :=
  merge_sort (not_after comp) l.

Section coo_matrix.
Context {T : Type}.

(** [COOMatrix<T>]: [vals], [rows] and [cols] are the addresses of the
    three arrays.  (The member [_sortptr] is declared, never set and
    never read; it is left out.) *)
Record COOMatrix : Type := mkCOOMatrix {
  n_rows : Z;
  n_cols : Z;
  index_base : IndexBase.t;
  own_memory : bool;
  nnz : Z;
  vals : nat;
  rows : nat;
  cols : nat;
  sort : NonzeroSort.t;
  _can_reserve : bool
}.

Definition set_sort (s : NonzeroSort.t) (M : COOMatrix) : COOMatrix :=
  mkCOOMatrix (n_rows M) (n_cols M) (index_base M) (own_memory M) (nnz M)
              (vals M) (rows M) (cols M) s (_can_reserve M).

(** [COOMatrix(n_rows, n_cols, index_base)]: an empty matrix that will
    own its arrays. *)
Definition COOMatrix_new (n_rows n_cols : Z) (index_base : IndexBase.t)
  : COOMatrix :=
  mkCOOMatrix n_rows n_cols index_base true 0 0%nat 0%nat 0%nat
              NonzeroSort.None true.

(** [COOMatrix(n_rows, n_cols, nnz, vals, rows, cols, compute_sort_type,
    index_base)]: a view of arrays of the caller. *)
Definition COOMatrix_view (n_rows n_cols nnz : Z) (vals rows cols : nat)
    (compute_sort_type : bool) (index_base : IndexBase.t)
  : prog T COOMatrix :=
  srt ← (if compute_sort_type then
           r ← load_i rows; c ← load_i cols; lift (coo_sort_type nnz r c)
         else mret NonzeroSort.None);
  mret (mkCOOMatrix n_rows n_cols index_base false nnz vals rows cols srt true).

(** [~COOMatrix()]. *)
Definition COOMatrix_destroy (M : COOMatrix) : prog T unit :=
  if own_memory M then
    delete_T (vals M);; delete_i (rows M);; delete_i (cols M)
  else mret ().

(** [COOMatrix::reserve(nnz)]; [junk_v], [junk_r] and [junk_c] are the
    indeterminate contents of the three new arrays. *)
Definition reserve (M : COOMatrix) (nnz : Z)
    (junk_v : nat → T) (junk_r junk_c : nat → Z) : prog T COOMatrix :=
  lift (randblas_require (_can_reserve M));;
  lift (randblas_require (own_memory M));;
  v ← new_T nnz junk_v;
  r ← new_i nnz junk_r;
  c ← new_i nnz junk_c;
  mret (mkCOOMatrix (n_rows M) (n_cols M) (index_base M) (own_memory M) nnz
                    v r c (sort M) false).

Definition tuple_type : Type := Z * Z * T.

Definition sort_func (s : NonzeroSort.t) (t1 t2 : tuple_type) : bool :=
  match s with
  | NonzeroSort.CSR =>
      if t1.1.1 <? t2.1.1 then true
      else if t1.1.1 >? t2.1.1 then false
      else if t1.1.2 <? t2.1.2 then true
      else false
  | _ =>
      if t1.1.2 <? t2.1.2 then true
      else if t1.1.2 >? t2.1.2 then false
      else if t1.1.1 <? t2.1.1 then true
      else false
  end.

(** The strict order the comparator stands for: rows first for CSR,
    columns first otherwise. *)
Definition before (s : NonzeroSort.t) (t1 t2 : tuple_type) : Prop :=
  match s with
  | NonzeroSort.CSR =>
      t1.1.1 < t2.1.1 ∨ (t1.1.1 = t2.1.1 ∧ t1.1.2 < t2.1.2)
  | _ =>
      t1.1.2 < t2.1.2 ∨ (t1.1.2 = t2.1.2 ∧ t1.1.1 < t2.1.1)
  end.

(** [sort_coo_data(s, nnz, vals, rows, cols)], on the three arrays. *)
Definition sort_coo_data (s : NonzeroSort.t) (nnz : Z)
    (vals : list T) (rows cols : list Z)
  : outcome (list T * list Z * list Z) :=
  match s with
  | NonzeroSort.None => mret (vals, rows, cols)
  | _ =>
      (* [nonzeros.reserve(nnz)] throws for a negative [nnz] *)
      randblas_require (0 <=? nnz);;
      nonzeros ←
        for_range 0 nnz
          (λ ell (acc : list tuple_type),
             r ← rd rows ell; c ← rd cols ell; v ← rd vals ell;
             mret (acc ++ [(r, c, v)]))
          [];
      let nonzeros := std_sort (sort_func s) nonzeros in
      for_range 0 nnz
        (λ ell '(vals, rows, cols),
           tup ← rd nonzeros ell;
           vals ← wr vals ell (tup : tuple_type).2;
           rows ← wr rows ell tup.1.1;
           cols ← wr cols ell tup.1.2;
           mret (vals, rows, cols))
        (vals, rows, cols)
  end.

(** [sort_coo_data(s, spmat)], on the matrix object. *)
Definition sort_coo_data_matrix (s : NonzeroSort.t) (spmat : COOMatrix)
  : prog T COOMatrix :=
  v ← load_T (vals spmat);
  r ← load_i (rows spmat);
  c ← load_i (cols spmat);
  '(v', r', c') ← lift (sort_coo_data s (nnz spmat) v r c);
  store_T (vals spmat) v';;
  store_i (rows spmat) r';;
  store_i (cols spmat) c';;
  mret (set_sort s spmat).

(** The nonzeros that a matrix object of [nnz] entries sees in three
    arrays: the triples [(rows[ell], cols[ell], vals[ell])], [ell < nnz]. *)
Definition nonzeros_of (nnz : Z) (vals : list T) (rows cols : list Z)
  : list tuple_type :=
  zip (zip (take (Z.to_nat nnz) rows) (take (Z.to_nat nnz) cols))
      (take (Z.to_nat nnz) vals).

Definition coo_nonzeros (M : COOMatrix) (h : heap T) : list tuple_type :=
  nonzeros_of (nnz M) (view_T h (vals M)) (view_i h (rows M)) (view_i h (cols M)).

(** [transpose(S)].  [S] is passed by value: the parameter is a
    member-wise copy of the argument, and it is destroyed when the
    function returns. *)
Definition transpose (S : COOMatrix) : prog T COOMatrix :=
  let srt :=
    if decide (sort S = NonzeroSort.CSC) then NonzeroSort.CSR
    else if decide (sort S = NonzeroSort.CSR) then NonzeroSort.CSC
    else NonzeroSort.None in
  St ← COOMatrix_view (n_rows S) (n_cols S) (nnz S) (vals S) (cols S) (rows S)
                      false (index_base S);
  let St := set_sort srt St in
  COOMatrix_destroy S;;
  mret St.
End coo_matrix.


(** The test that one pass of the loop of [coo_sort_type] makes at
    position [ell], for the comparison [f] of two positions. *)
Definition increasing_at (f : Z → Z → Z → Z → bool) (rows cols : list Z)
    (ell : Z) : bool :=
  match rows !! Z.to_nat (ell - 1), cols !! Z.to_nat (ell - 1),
        rows !! Z.to_nat ell, cols !! Z.to_nat ell with
  | Some i0, Some j0, Some i1, Some j1 => f i0 j0 i1 j1
  | _, _, _, _ => false
  end.

(** The order that [coo_sort_type] looks for: every nonzero after the
    first passes the test against its predecessor. *)
Definition pairs_increasing (f : Z → Z → Z → Z → bool) (nnz : Z)
    (rows cols : list Z) : Prop :=
  ∀ ell : Z, 1 ≤ ell < nnz → increasing_at f rows cols ell = true.

End sparse_data.

(** ** The BLAS vocabulary the kernels use ([blas.hh]) *)

Module blas.

Inductive Layout : Type := ColMajor | RowMajor.

(** The two values the kernels are documented for. *)
Inductive Op : Type := NoTrans | Trans.

#[global] Instance Layout_eq_dec : EqDecision Layout.
Proof. solve_decision. Defined.
#[global] Instance Op_eq_dec : EqDecision Op.
Proof. solve_decision. Defined.

(** [blas::scal(n, alpha, x, incx)]: [x[i*incx] = alpha * x[i*incx]] for
    [i] in [0, n). *)
Definition scal {T} (Tmul : T → T → T) (n : Z) (alpha : T) (x : list T)
    (incx : Z) : outcome (list T) :=
  for_range 0 n
    (λ i x, xi ← rd x (i * incx); wr x (i * incx) (Tmul alpha xi)) x.

End blas.

(** ** The sparse kernels ([RandBLAS::sparse_data::coo]) *)

Module coo.
Import sparse_data.

Definition set_filtered_colptr (nnz : Z) (colidxs : list Z)
    (col_start col_end : Z) (new_colptr : list Z) : outcome (list Z) :=
  '(_, new_colptr) ←
    for_range 0 nnz
      (λ ell '(prev_col, new_colptr),
         curr_col ← rd colidxs ell;
         if curr_col <? col_start then mret (prev_col, new_colptr)
         else
           let colptr_update_limit := Z.min curr_col col_end in
           new_colptr ←
             for_range (prev_col + 1) (colptr_update_limit + 1)
               (λ j new_colptr, wr new_colptr (j - col_start) ell)
               new_colptr;
           mret (curr_col, new_colptr))
      (col_start - 1, new_colptr);
  mret new_colptr.

Section kernels.
Context {T : Type} (T0 : T) (Tadd Tmul : T → T → T).

(** Returns [new_nnz] and the three output arrays. *)
Definition set_filtered_csc_from_cscoo
    (vals : list T) (rowidxs colidxs : list Z) (nnz : Z)
    (col_start col_end row_start row_end : Z)
    (new_vals : list T) (new_rowidxs new_colptr : list Z)
  : outcome (Z * list T * list Z * list Z) :=
  new_colptr ← set_filtered_colptr nnz colidxs col_start col_end new_colptr;
  '(new_nnz, new_vals, new_rowidxs) ←
    for_range 0 (col_end - col_start)
      (λ j st,
         lo ← rd new_colptr j;
         hi ← rd new_colptr (j + 1);
         for_range_break lo hi
           (λ k '(new_nnz, new_vals, new_rowidxs),
              i ← rd rowidxs k;
              if i <? row_start then
                mret ((new_nnz, new_vals, new_rowidxs), false)
              else if i >=? row_end then
                mret ((new_nnz, new_vals, new_rowidxs), true)
              else
                v ← rd vals k;
                new_vals ← wr new_vals new_nnz v;
                new_rowidxs ← wr new_rowidxs new_nnz (i - row_start);
                mret ((new_nnz + 1, new_vals, new_rowidxs), false))
           st)
      (0, new_vals, new_rowidxs);
  mret (new_nnz, new_vals, new_rowidxs, new_colptr).

(** [v] and [Sv] point into the arrays [v_base] and [Sv_base] at the
    offsets [v_off] and [Sv_off]; the updated [Sv_base] is returned. *)
Definition apply_csc_to_vector_from_left
    (v_base : list T) (v_off : Z) (incv : Z)
    (Sv_base : list T) (Sv_off : Z) (incSv : Z)
    (n_cols : Z) (vals : list T) (rowidxs colptr : list Z)
  : outcome (list T) :=
  '(_, Sv_base) ←
    for_range 0 n_cols
      (λ c '(i, Sv_base),
         scale ← rd v_base (v_off + c * incv);
         hi ← rd colptr (c + 1);
         Sv_base ←
           for_range i hi
             (λ i Sv_base,
                row ← rd rowidxs i;
                x ← rd Sv_base (Sv_off + row * incSv);
                vi ← rd vals i;
                wr Sv_base (Sv_off + row * incSv) (Tadd x (Tmul vi scale)))
             Sv_base;
         mret (Z.max i hi, Sv_base))
      (0, Sv_base);
  mret Sv_base.

(** [apply_cscoo_submat_to_vector_from_left] is called by
    [apply_coo_left] but defined in none of the files embedded here.
    It is a parameter here: a routine that receives the matrix in CSC
    order, reads it, and returns the new contents of [B]. *)
Variable apply_cscoo_submat_to_vector_from_left :
  blas.Layout → blas.Layout → Z → Z → Z → COOMatrix → Z → Z →
  list T → Z → list T → Z → heap T → outcome (list T).

(** [S0] is passed by reference: the matrix object as it is on return
    is part of the result, with the new contents of [B]. *)
Definition apply_coo_left (alpha : T) (layout_A layout_B : blas.Layout)
    (d n m : Z) (S0 : COOMatrix) (row_offset col_offset : Z)
    (A : list T) (lda : Z) (B : list T) (ldb : Z)
  : prog T (COOMatrix * list T) :=
  lift (randblas_require (bool_decide (index_base S0 = IndexBase.Zero)));;
  (* Step 1: reduce to the case of CSC sort order. *)
  if decide (sort S0 ≠ NonzeroSort.CSC) then
    let orig_sort := sort S0 in
    S0 ← sort_coo_data_matrix NonzeroSort.CSC S0;
    B ← (λ h, b ← apply_cscoo_submat_to_vector_from_left
                     layout_A layout_B d n m S0 row_offset col_offset
                     A lda B ldb h;
              mret (b, h));
    S0 ← sort_coo_data_matrix orig_sort S0;
    mret (S0, B)
  else
    (* Step 2: the CSC form of the submatrix, scaled by alpha. *)
    let S0_nnz := nnz S0 in
    S_rows ← lift (vector_new S0_nnz 0);
    S_colptr ← lift (vector_new m 0);
    S_vals ← lift (vector_new S0_nnz T0);
    S0_vals ← load_T (vals S0);
    S0_rows ← load_i (rows S0);
    S0_cols ← load_i (cols S0);
    '(S_nnz, S_vals, S_rows, S_colptr) ←
      lift (set_filtered_csc_from_cscoo
              S0_vals S0_rows S0_cols (nnz S0)
              col_offset (col_offset + m)
              row_offset (row_offset + d)
              S_vals S_rows S_colptr);
    S_vals ← lift (blas.scal Tmul S_nnz alpha S_vals 1);
    (* Step 3: B += S * A, column by column. *)
    let '(A_inter_col_stride, A_intra_col_stride) :=
      if decide (layout_A = blas.ColMajor) then (lda, 1) else (1, lda) in
    let '(B_inter_col_stride, B_intra_col_stride) :=
      if decide (layout_B = blas.ColMajor) then (ldb, 1) else (1, ldb) in
    B ← lift (for_range 0 n
                (λ k B,
                   apply_csc_to_vector_from_left
                     A (A_inter_col_stride * k) A_intra_col_stride
                     B (B_inter_col_stride * k) B_intra_col_stride
                     m S_vals S_rows S_colptr)
                B);
    mret (S0, B).
End kernels.

End coo.

(** ** CSR matrices and the conversions ([RandBLAS/sparse_data/csr.hh]) *)

Module csr.
Import sparse_data.

(** [CSRMatrix<T>]: [vals], [rowptr] and [colidxs] are addresses. *)
Record CSRMatrix : Type := mkCSRMatrix {
  n_rows : Z;
  n_cols : Z;
  index_base : IndexBase.t;
  own_memory : bool;
  nnz : Z;
  vals : nat;
  rowptr : nat;
  colidxs : nat;
  _can_reserve : bool
}.

(** [CSRMatrix(n_rows, n_cols, index_base)]. *)
Definition CSRMatrix_new (n_rows n_cols : Z) (index_base : IndexBase.t)
  : CSRMatrix :=
  mkCSRMatrix n_rows n_cols index_base true 0 0%nat 0%nat 0%nat true.

Section conversions.
Context {T : Type}.

(** [CSRMatrix::reserve(nnz)], the indeterminate contents of the new
    arrays given by the three [junk] arguments. *)
Definition reserve (M : CSRMatrix) (nnz : Z)
    (junk_p junk_c : nat → Z) (junk_v : nat → T) : prog T CSRMatrix :=
  lift (randblas_require (_can_reserve M));;
  lift (randblas_require (own_memory M));;
  p ← new_i (n_rows M + 1) junk_p;
  c ← new_i nnz junk_c;
  v ← new_T nnz junk_v;
  mret (mkCSRMatrix (n_rows M) (n_cols M) (index_base M) (own_memory M) nnz
                    v p c false).

(** The loop [while (coo.rows[ell] == i) { ...; ++ell; }] of
    [coo_to_csr].  Every pass reads [coo.rows[ell]], so the loop makes
    at most one pass more than [coo.rows] has cells; [fuel] counts them
    down and is never the reason the loop stops. *)
Fixpoint copy_row (fuel : nat) (i : Z) (coo_rows coo_cols : list Z)
    (coo_vals : list T) (ell : Z) (csr_colidxs : list Z) (csr_vals : list T)
  : outcome (Z * list Z * list T) :=
  match fuel with
  | O => Undefined
  | S fuel =>
      r ← rd coo_rows ell;
      if r =? i then
        c ← rd coo_cols ell;
        csr_colidxs ← wr csr_colidxs ell c;
        v ← rd coo_vals ell;
        csr_vals ← wr csr_vals ell v;
        copy_row fuel i coo_rows coo_cols coo_vals (ell + 1) csr_colidxs csr_vals
      else mret (ell, csr_colidxs, csr_vals)
  end.

(** [coo_to_csr(coo, csr)]; both matrices are passed by reference and
    returned as they are on exit. *)
Definition coo_to_csr (coo : COOMatrix) (csr : CSRMatrix)
    (junk_p junk_c : nat → Z) (junk_v : nat → T)
  : prog T (COOMatrix * CSRMatrix) :=
  coo ← sort_coo_data_matrix NonzeroSort.CSR coo;
  csr ← reserve csr (sparse_data.nnz coo) junk_p junk_c junk_v;
  coo_rows ← load_i (sparse_data.rows coo);
  coo_cols ← load_i (sparse_data.cols coo);
  coo_vals ← load_T (sparse_data.vals coo);
  csr_rowptr ← load_i (rowptr csr);
  csr_colidxs ← load_i (colidxs csr);
  csr_vals ← load_T (vals csr);
  csr_rowptr ← lift (wr csr_rowptr 0 0);
  '(_, csr_rowptr, csr_colidxs, csr_vals) ←
    lift (for_range 0 (sparse_data.n_rows coo)
            (λ i '(ell, csr_rowptr, csr_colidxs, csr_vals),
               '(ell, csr_colidxs, csr_vals) ←
                 copy_row (S (length coo_rows)) i coo_rows coo_cols coo_vals
                          ell csr_colidxs csr_vals;
               csr_rowptr ← wr csr_rowptr ell ell;
               mret (ell, csr_rowptr, csr_colidxs, csr_vals))
            (0, csr_rowptr, csr_colidxs, csr_vals));
  store_i (rowptr csr) csr_rowptr;;
  store_i (colidxs csr) csr_colidxs;;
  store_T (vals csr) csr_vals;;
  mret (coo, csr).

(** [csr_to_coo(csr, coo)]. *)
Definition csr_to_coo (csr : CSRMatrix) (coo : COOMatrix)
    (junk_v : nat → T) (junk_r junk_c : nat → Z)
  : prog T (CSRMatrix * COOMatrix) :=
  lift (randblas_require (n_rows csr =? sparse_data.n_rows coo));;
  lift (randblas_require (n_cols csr =? sparse_data.n_cols coo));;
  coo ← sparse_data.reserve coo (nnz csr) junk_v junk_r junk_c;
  csr_rowptr ← load_i (rowptr csr);
  csr_vals ← load_T (vals csr);
  coo_vals ← load_T (sparse_data.vals coo);
  coo_rows ← load_i (sparse_data.rows coo);
  coo_cols ← load_i (sparse_data.cols coo);
  let ell := 0 in
  '(coo_vals, coo_rows, coo_cols) ←
    lift (for_range 0 (n_rows csr)
            (λ i st,
               lo ← rd csr_rowptr i;
               hi ← rd csr_rowptr (i + 1);
               for_range lo hi
                 (λ j '(coo_vals, coo_rows, coo_cols),
                    v ← rd csr_vals ell;
                    coo_vals ← wr coo_vals ell v;
                    coo_rows ← wr coo_rows ell i;
                    coo_cols ← wr coo_cols ell j;
                    mret (coo_vals, coo_rows, coo_cols))
                 st)
            (coo_vals, coo_rows, coo_cols));
  store_T (sparse_data.vals coo) coo_vals;;
  store_i (sparse_data.rows coo) coo_rows;;
  store_i (sparse_data.cols coo) coo_cols;;
  mret (csr, set_sort NonzeroSort.CSR coo).
End conversions.


(** The index of the first row and column under an index base. *)
Definition base_of (b : IndexBase.t) : Z :=
  match b with IndexBase.Zero => 0 | IndexBase.One => 1 end.

(** Position [ell] of [colidxs] and [vals] belongs to row [i]: it lies
    between the row pointers of the row. *)
Definition in_row (rowptr : list Z) (i ell : Z) : Prop :=
  ∃ lo hi, rowptr !! Z.to_nat i = Some lo ∧ rowptr !! Z.to_nat (i + 1) = Some hi
           ∧ lo ≤ ell < hi.

(** The strides send the positions of an [n_rows]-by-[n_cols] matrix to
    distinct cells of an array of [len] cells. *)
Definition strides_fit (n_rows n_cols stride_row stride_col : Z) (len : nat)
  : Prop :=
  (∀ i j, 0 ≤ i < n_rows → 0 ≤ j < n_cols →
     0 ≤ i * stride_row + j * stride_col < Z.of_nat len)
  ∧ (∀ i j i' j',
       0 ≤ i < n_rows → 0 ≤ j < n_cols → 0 ≤ i' < n_rows → 0 ≤ j' < n_cols →
       i * stride_row + j * stride_col = i' * stride_row + j' * stride_col →
       i = i' ∧ j = j').

Section dense_and_diagonal.
Context {T : Type} (T0 : T).

(** A CSR matrix whose arrays describe its rows: there are [n_rows + 1]
    row pointers, the positions of every row lie in [colidxs] and in
    [vals], and every column index is a column of the matrix under its
    index base.  (The number of columns fits an [int], as the code that
    reads the column indices takes for granted.) *)
Definition well_formed (M : CSRMatrix) (h : heap T) : Prop :=
  0 ≤ n_rows M ∧ 0 ≤ n_cols M ≤ cint.int_max
  ∧ n_rows M + 1 ≤ Z.of_nat (length (view_i h (rowptr M)))
  ∧ ∀ i ell, 0 ≤ i < n_rows M → in_row (view_i h (rowptr M)) i ell →
      0 ≤ ell < Z.of_nat (length (view_i h (colidxs M)))
      ∧ ell < Z.of_nat (length (view_T h (vals M)))
      ∧ ∀ c, view_i h (colidxs M) !! Z.to_nat ell = Some c →
             0 ≤ c - base_of (index_base M) < n_cols M.

(** [csr_to_dense(spmat, stride_row, stride_col, mat)]: [mat] is an
    array of the caller, apart from the arrays of [spmat]; its new
    contents are returned.  The column index is held in an [int]. *)
Definition csr_to_dense (spmat : CSRMatrix) (stride_row stride_col : Z)
    (mat : list T) : prog T (list T) :=
  rowptr ← load_i (rowptr spmat);
  colidxs ← load_i (colidxs spmat);
  vals ← load_T (vals spmat);
  lift (
    mat ← for_range 0 (n_rows spmat)
            (λ i mat,
               for_range 0 (n_cols spmat)
                 (λ j mat, wr mat (i * stride_row + j * stride_col) T0)
                 mat)
            mat;
    for_range 0 (n_rows spmat)
      (λ i mat,
         lo ← rd rowptr i;
         hi ← rd rowptr (i + 1);
         for_range lo hi
           (λ ell mat,
              c ← rd colidxs ell;
              let j := cint.to_int c in
              j ← (if decide (index_base spmat = IndexBase.One) then
                     (* j -= 1 *)
                     if j =? cint.int_min then Undefined else mret (j - 1)
                   else mret j);
              v ← rd vals ell;
              wr mat (i * stride_row + j * stride_col) v)
           mat)
      mat).

(** [csr_to_dense(spmat, layout, mat)]. *)
Definition csr_to_dense_layout (spmat : CSRMatrix) (layout : blas.Layout)
    (mat : list T) : prog T (list T) :=
  if decide (layout = blas.ColMajor) then
    csr_to_dense spmat 1 (n_cols spmat) mat
  else
    csr_to_dense spmat (n_rows spmat) 1 mat.

(** [csr_from_diag(vals, nnz, offset, spmat)]: [vals] is an array of the
    caller.  The two loops [while (ell < nnz) { ...; ++ell; }] start at
    [ell = 0] and leave [ell] at [max(0, nnz)]. *)
Definition csr_from_diag (vals : list T) (nnz offset : Z) (spmat : CSRMatrix)
    (junk_p junk_c : nat → Z) (junk_v : nat → T) : prog T CSRMatrix :=
  spmat ← reserve spmat nnz junk_p junk_c junk_v;
  sp_rowptr ← load_i (rowptr spmat);
  sp_colidxs ← load_i (colidxs spmat);
  sp_vals ← load_T (csr.vals spmat);
  '(sp_rowptr, sp_colidxs, sp_vals) ←
    lift (
      if offset >=? 0 then
        randblas_require (nnz <=? n_rows spmat);;
        for_range 0 nnz
          (λ ell '(sp_rowptr, sp_colidxs, sp_vals),
             sp_rowptr ← wr sp_rowptr ell ell;
             sp_colidxs ← wr sp_colidxs ell (ell + offset);
             v ← rd vals ell;
             sp_vals ← wr sp_vals ell v;
             mret (sp_rowptr, sp_colidxs, sp_vals))
          (sp_rowptr, sp_colidxs, sp_vals)
      else
        randblas_require (nnz <=? n_cols spmat);;
        sp_rowptr ← for_range 0 (- offset)
                      (λ i sp_rowptr, wr sp_rowptr i 0) sp_rowptr;
        for_range 0 nnz
          (λ ell '(sp_rowptr, sp_colidxs, sp_vals),
             sp_rowptr ← wr sp_rowptr (ell - offset) ell;
             sp_colidxs ← wr sp_colidxs ell ell;
             v ← rd vals ell;
             sp_vals ← wr sp_vals ell v;
             mret (sp_rowptr, sp_colidxs, sp_vals))
          (sp_rowptr, sp_colidxs, sp_vals));
  let ell := Z.max 0 nnz in
  sp_rowptr ← lift (for_range ell (n_rows spmat + 1)
                      (λ ell sp_rowptr, wr sp_rowptr ell nnz) sp_rowptr);
  store_i (rowptr spmat) sp_rowptr;;
  store_i (colidxs spmat) sp_colidxs;;
  store_T (csr.vals spmat) sp_vals;;
  mret spmat.
End dense_and_diagonal.

End csr.

(** ** The dense sketching kernels ([RandBLAS/skge.hh], [RandBLAS::dense]) *)

Module DenseSkOp.
(** The members of [DenseSkOp<T>] that the kernels read.  [buff] is
    [None] for the null pointer of an operator that is not materialized. *)
Record t {T DenseDist RNGState : Type} : Type := mk {
  dist : DenseDist;
  seed_state : RNGState;
  n_rows : Z;
  n_cols : Z;
  layout : blas.Layout;
  buff : option (list T)
}.
Arguments t : clear implicits.
End DenseSkOp.

Module BLASFriendlyOperator.
Record t {T : Type} : Type := mk {
  layout : blas.Layout;
  n_rows : Z;
  n_cols : Z;
  buff : option (list T);
  ldim : Z;
  own_memory : bool
}.
Arguments t : clear implicits.
End BLASFriendlyOperator.

Module dense.
Import blas.

(** Modelled from the spec: [dims_before_op] is declared in a header
    outside the files embedded here.  "[op] is identity or transpose": the shape of [X]
    when [op(X)] is [m]-by-[n]. *)
Definition dims_before_op (m n : Z) (op : Op) : Z * Z :=
  match op with NoTrans => (m, n) | Trans => (n, m) end.

(** Modelled from the spec: [offset_and_ldim] is declared in a header
    outside the files embedded here.  "standard BLAS dense-matrix addressing:
    [M[i,j] = buffer[i + j*ld]] (column-major) or [buffer[i*ld + j]]
    (row-major)": the position of entry [(ro, co)] in the buffer of an
    [n_rows]-by-[n_cols] matrix, and the leading dimension of the buffer. *)
Definition offset_and_ldim (layout : Layout) (n_rows n_cols ro co : Z) : Z * Z :=
  match layout with
  | ColMajor => (ro + n_rows * co, n_rows)
  | RowMajor => (ro * n_cols + co, n_cols)
  end.

(** The extent of a [rows]-by-[cols] matrix along the axis whose elements
    are contiguous: the least leading dimension the layout admits. *)
Definition minor_extent (layout : Layout) (rows cols : Z) : Z :=
  match layout with ColMajor => rows | RowMajor => cols end.

(** The two comparisons of the kernels: the declared shape of the
    operator ends before the submatrix of shape [dims] at offset
    [(ro_s, co_s)] does. *)
Definition shape_too_small (S_n_rows S_n_cols : Z) (dims : Z * Z)
    (ro_s co_s : Z) : Prop :=
  S_n_rows < dims.1 + ro_s ∨ S_n_cols < dims.2 + co_s.

(** The submatrix of shape [dims] at offset [(ro_s, co_s)] lies inside
    an operator of the declared shape: it starts at a row and a column
    of the operator and ends within it. *)
Definition window_inside (S_n_rows S_n_cols : Z) (dims : Z * Z)
    (ro_s co_s : Z) : Prop :=
  0 ≤ ro_s ∧ dims.1 + ro_s ≤ S_n_rows ∧ 0 ≤ co_s ∧ dims.2 + co_s ≤ S_n_cols.

(** The offsets are as the kernels document them ("a nonnegative
    integer"), and the integers that a kernel forms from them - the two
    sums of its shape checks and the position of the submatrix in the
    buffer - are in the range of [int64_t], so that the arithmetic of the
    code is the arithmetic of [Z]. *)
Definition offsets_in_range (S_layout : Layout) (S_n_rows S_n_cols : Z)
    (dims : Z * Z) (ro_s co_s : Z) : Prop :=
  0 ≤ ro_s ∧ 0 ≤ co_s
  ∧ cint.in_int64 (dims.1 + ro_s) ∧ cint.in_int64 (dims.2 + co_s)
  ∧ cint.in_int64 (offset_and_ldim S_layout S_n_rows S_n_cols ro_s co_s).1.

(** A pointer into a buffer: the buffer and the offset of the pointer. *)
Definition ptr (T : Type) : Type := list T * Z.

Section kernels.
Context {T DenseDist RNGState : Type}.

(** [blas::gemm(layout, opA, opB, m, n, k, alpha, A, lda, B, ldb, beta,
    C, ldc)], the trusted dense primitive; it returns the new contents
    of [C]. *)
Variable gemm :
  Layout → Op → Op → Z → Z → Z → T → ptr T → Z → ptr T → Z → T →
  list T → Z → list T.

(** [submatrix_as_blackbox<BLASFriendlyOperator<T>>(S, n_rows, n_cols,
    ro_s, co_s)] is declared in a header outside the files embedded here; the
    kernels take it as a parameter, and [submatrix_as_blackbox_model]
    below gives the model of it that follows the specification. *)
Variable submatrix_as_blackbox :
  DenseSkOp.t T DenseDist RNGState → Z → Z → Z → Z → BLASFriendlyOperator.t T.

Definition flip (opS : Op) : Op :=
  if decide (opS = NoTrans) then Trans else NoTrans.

(** The part of [lskge3] that follows the [if constexpr] block; it is
    the whole function for a [BLASFriendlyOperator]. *)
Definition lskge3_materialized (layout : Layout) (opS opA : Op) (d n m : Z)
    (alpha : T) (S_layout : Layout) (S_n_rows S_n_cols : Z)
    (S_buff : option (list T)) (ro_s co_s : Z)
    (A : list T) (lda : Z) (beta : T) (B : list T) (ldb : Z)
  : outcome (list T) :=
  let '(rows_submat_S, cols_submat_S) := dims_before_op d m opS in
  match S_buff with
  | None => Throw                        (* S.buff != nullptr *)
  | Some S_buff =>
      randblas_require (S_n_rows >=? rows_submat_S + ro_s);;
      randblas_require (S_n_cols >=? cols_submat_S + co_s);;
      let '(rows_A, cols_A) := dims_before_op m n opA in
      (if decide (layout = ColMajor) then
         randblas_require (lda >=? rows_A);;
         randblas_require (ldb >=? d)
       else
         randblas_require (lda >=? cols_A);;
         randblas_require (ldb >=? n));;
      let '(pos, lds) := offset_and_ldim S_layout S_n_rows S_n_cols ro_s co_s in
      let S_ptr : ptr T := (S_buff, pos) in
      let opS := if decide (S_layout ≠ layout) then flip opS else opS in
      mret (gemm layout opS opA d n m alpha S_ptr lds (A, 0) lda beta B ldb)
  end.

Definition lskge3_blackbox (layout : Layout) (opS opA : Op) (d n m : Z)
    (alpha : T) (S : BLASFriendlyOperator.t T) (ro_s co_s : Z)
    (A : list T) (lda : Z) (beta : T) (B : list T) (ldb : Z)
  : outcome (list T) :=
  lskge3_materialized layout opS opA d n m alpha
    (BLASFriendlyOperator.layout S) (BLASFriendlyOperator.n_rows S)
    (BLASFriendlyOperator.n_cols S) (BLASFriendlyOperator.buff S)
    ro_s co_s A lda beta B ldb.

Definition lskge3 (layout : Layout) (opS opA : Op) (d n m : Z)
    (alpha : T) (S : DenseSkOp.t T DenseDist RNGState) (ro_s co_s : Z)
    (A : list T) (lda : Z) (beta : T) (B : list T) (ldb : Z)
  : outcome (list T) :=
  let '(rows_submat_S, cols_submat_S) := dims_before_op d m opS in
  match DenseSkOp.buff S with
  | None =>
      let submat_S :=
        submatrix_as_blackbox S rows_submat_S cols_submat_S ro_s co_s in
      lskge3_blackbox layout opS opA d n m alpha submat_S 0 0 A lda beta B ldb
  | Some _ =>
      lskge3_materialized layout opS opA d n m alpha
        (DenseSkOp.layout S) (DenseSkOp.n_rows S) (DenseSkOp.n_cols S)
        (DenseSkOp.buff S) ro_s co_s A lda beta B ldb
  end.

Definition rskge3_materialized (layout : Layout) (opA opS : Op) (m d n : Z)
    (alpha : T) (A : list T) (lda : Z)
    (S_layout : Layout) (S_n_rows S_n_cols : Z)
    (S_buff : option (list T)) (ro_s co_s : Z)
    (beta : T) (B : list T) (ldb : Z)
  : outcome (list T) :=
  let '(rows_submat_S, cols_submat_S) := dims_before_op n d opS in
  match S_buff with
  | None => Throw
  | Some S_buff =>
      randblas_require (S_n_rows >=? rows_submat_S + ro_s);;
      randblas_require (S_n_cols >=? cols_submat_S + co_s);;
      let '(rows_A, cols_A) := dims_before_op m n opA in
      (if decide (layout = ColMajor) then
         randblas_require (lda >=? rows_A);;
         randblas_require (ldb >=? m)
       else
         randblas_require (lda >=? cols_A);;
         randblas_require (ldb >=? d));;
      let '(pos, lds) := offset_and_ldim S_layout S_n_rows S_n_cols ro_s co_s in
      let S_ptr : ptr T := (S_buff, pos) in
      let opS := if decide (S_layout ≠ layout) then flip opS else opS in
      mret (gemm layout opA opS m d n alpha (A, 0) lda S_ptr lds beta B ldb)
  end.

Definition rskge3_blackbox (layout : Layout) (opA opS : Op) (m d n : Z)
    (alpha : T) (A : list T) (lda : Z)
    (S : BLASFriendlyOperator.t T) (ro_s co_s : Z)
    (beta : T) (B : list T) (ldb : Z)
  : outcome (list T) :=
  rskge3_materialized layout opA opS m d n alpha A lda
    (BLASFriendlyOperator.layout S) (BLASFriendlyOperator.n_rows S)
    (BLASFriendlyOperator.n_cols S) (BLASFriendlyOperator.buff S)
    ro_s co_s beta B ldb.

Definition rskge3 (layout : Layout) (opA opS : Op) (m d n : Z)
    (alpha : T) (A : list T) (lda : Z)
    (S : DenseSkOp.t T DenseDist RNGState) (ro_s co_s : Z)
    (beta : T) (B : list T) (ldb : Z)
  : outcome (list T) :=
  let '(rows_submat_S, cols_submat_S) := dims_before_op n d opS in
  match DenseSkOp.buff S with
  | None =>
      let submat_S :=
        submatrix_as_blackbox S rows_submat_S cols_submat_S ro_s co_s in
      rskge3_blackbox layout opA opS m d n alpha A lda submat_S 0 0 beta B ldb
  | Some _ =>
      rskge3_materialized layout opA opS m d n alpha A lda
        (DenseSkOp.layout S) (DenseSkOp.n_rows S) (DenseSkOp.n_cols S)
        (DenseSkOp.buff S) ro_s co_s beta B ldb
  end.
End kernels.

Section models.
Context {T DenseDist RNGState : Type} (T0 : T) (Tadd Tmul : T → T → T).

(** [p[k]] for a pointer [p]. *)
Definition deref (p : ptr T) (k : Z) : T :=
  if p.2 + k <? 0 then T0 else nth (Z.to_nat (p.2 + k)) p.1 T0.

(** The position of entry [(i, j)] in a buffer of leading dimension [ld]. *)
Definition index (layout : Layout) (ld i j : Z) : Z :=
  match layout with
  | ColMajor => i + j * ld
  | RowMajor => i * ld + j
  end.

(** Entry [(i, j)] of [op(X)] for the matrix [X] behind [p]. *)
Definition op_entry (layout : Layout) (op : Op) (p : ptr T) (ld i j : Z) : T :=
  match op with
  | NoTrans => deref p (index layout ld i j)
  | Trans => deref p (index layout ld j i)
  end.

Definition dot (k : Z) (a b : Z → T) : T :=
  foldl (λ acc l, Tadd acc (Tmul (a l) (b l))) T0 (seqZ 0 k).

(** Modelled from the spec: the dense GEMM primitive is an external
    collaborator, "(layout, opA, opB, m, n, k, alpha, A, lda, B, ldb,
    beta, C, ldc)", computing [C := alpha * op(A) * op(B) + beta * C]
    on matrices addressed as [M[i,j] = buffer[i + j*ld]] (column-major)
    or [buffer[i*ld + j]] (row-major).  Entry [(i, j)] of the [m]-by-[n]
    result is written at its position in [C]; the products are summed
    from [l = 0] upwards. *)
Definition gemm_model (layout : Layout) (opA opB : Op) (m n k : Z) (alpha : T)
    (A : ptr T) (lda : Z) (B : ptr T) (ldb : Z) (beta : T)
    (C : list T) (ldc : Z) : list T :=
  foldl
    (λ C' i,
       foldl
         (λ C' j,
            let p := index layout ldc i j in
            if p <? 0 then C'
            else
              <[Z.to_nat p :=
                  Tadd (Tmul alpha
                          (dot k (λ l, op_entry layout opA A lda i l)
                                 (λ l, op_entry layout opB B ldb l j)))
                       (Tmul beta (deref (C, 0) p))]> C')
         C' (seqZ 0 n))
    C (seqZ 0 m).

(** Modelled from the spec: the generation procedure of dense operators
    is declared in a header outside the files embedded here.  An operator is
    "randomly-generated ... (by distribution family, shape, seed)", and
    a submatrix is synthesized "via the same generation procedure as
    full materialization - semantically equivalent to materializing the
    whole operator and slicing it": the procedure gives entry [(i, j)]
    of the operator the value [dense_entry dist seed i j], whichever
    window of the operator is generated. *)
Variable dense_entry : DenseDist → RNGState → Z → Z → T.

(** The [n_rows]-by-[n_cols] window of the operator at offset
    [(ro, co)], packed in the given layout. *)
Definition generate (layout : Layout) (dist : DenseDist) (seed : RNGState)
    (n_rows n_cols ro co : Z) : list T :=
  (λ p, match layout with
        | ColMajor => dense_entry dist seed (ro + p `mod` n_rows) (co + p `div` n_rows)
        | RowMajor => dense_entry dist seed (ro + p `div` n_cols) (co + p `mod` n_cols)
        end) <$> seqZ 0 (n_rows * n_cols).

(** Modelled from the spec: [fill_dense(S)] is declared in a header
    outside the files embedded here; "filled on first use or explicitly, producing a
    buffer": the whole operator, in the layout of the operator. *)
Definition fill_dense (S : DenseSkOp.t T DenseDist RNGState)
  : DenseSkOp.t T DenseDist RNGState :=
  DenseSkOp.mk T DenseDist RNGState
    (DenseSkOp.dist S) (DenseSkOp.seed_state S)
    (DenseSkOp.n_rows S) (DenseSkOp.n_cols S) (DenseSkOp.layout S)
    (Some (generate (DenseSkOp.layout S) (DenseSkOp.dist S)
             (DenseSkOp.seed_state S)
             (DenseSkOp.n_rows S) (DenseSkOp.n_cols S) 0 0)).

(** Modelled from the spec: [submatrix_as_blackbox] is declared in a
    header outside the files embedded here; "synthesize just the requested submatrix
    into a temporary buffer via the same generation procedure as full
    materialization". *)
Definition submatrix_as_blackbox_model (S : DenseSkOp.t T DenseDist RNGState)
    (n_rows n_cols ro_s co_s : Z) : BLASFriendlyOperator.t T :=
  BLASFriendlyOperator.mk T
    (DenseSkOp.layout S) n_rows n_cols
    (Some (generate (DenseSkOp.layout S) (DenseSkOp.dist S)
             (DenseSkOp.seed_state S) n_rows n_cols ro_s co_s))
    (match DenseSkOp.layout S with ColMajor => n_rows | RowMajor => n_cols end)
    true.
End models.

End dense.

(** ** The sparse sketching kernels ([RandBLAS/skge.hh], [RandBLAS::sparse]) *)

Module SparseSkOp.
(** The members of [SparseSkOp<T, RNG, sint_t>] that the kernels read;
    [rest] stands for the other members.  The class is declared in a
    header outside the files embedded here. *)
Record t {SparseDist RNGState Rest : Type} : Type := mk {
  dist : SparseDist;
  seed_state : RNGState;
  nnz : Z;
  rest : Rest
}.
Arguments t : clear implicits.
End SparseSkOp.

Module sparse.
Import blas.

Section kernels.
Context {T SparseDist RNGState Rest COOView : Type}.
Local Abbreviation SkOp := (SparseSkOp.t SparseDist RNGState Rest).

(** Declared in headers outside the files embedded here, and parameters of the model: the
    constructor [SparseSkOp(dist, seed_state)], [fill_sparse],
    [coo_view_of_skop], [left_spmm] and [right_spmm].  The two
    multiplication routines return the new contents of [B]. *)
Variable SparseSkOp_new : SparseDist → RNGState → SkOp.
Variable fill_sparse : SkOp → SkOp.
Variable coo_view_of_skop : SkOp → COOView.
Variable left_spmm :
  Layout → Op → Op → Z → Z → Z → T → COOView → Z → Z →
  list T → Z → T → list T → Z → outcome (list T).
Variable right_spmm :
  Layout → Op → Op → Z → Z → Z → T → list T → Z → COOView → Z → Z →
  T → list T → Z → outcome (list T).

(** [lskges] calls itself on the filled copy; [fuel] bounds the depth
    of the calls, and [None] is a run that does not end within it. *)
Fixpoint lskges (fuel : nat) (layout : Layout) (opS opA : Op) (d n m : Z)
    (alpha : T) (S : SkOp) (ro_s co_s : Z) (A : list T) (lda : Z)
    (beta : T) (B : list T) (ldb : Z) : option (outcome (list T)) :=
  match fuel with
  | O => None
  | Datatypes.S fuel =>
      if SparseSkOp.nnz S <? 0 then
        let shallowcopy :=
          SparseSkOp_new (SparseSkOp.dist S) (SparseSkOp.seed_state S) in
        let shallowcopy := fill_sparse shallowcopy in
        lskges fuel layout opS opA d n m alpha shallowcopy ro_s co_s
               A lda beta B ldb
        (* return *)
      else
        let Scoo := coo_view_of_skop S in
        Some (left_spmm layout opS opA d n m alpha Scoo ro_s co_s
                        A lda beta B ldb)
  end.

Fixpoint rskges (fuel : nat) (layout : Layout) (opA opS : Op) (m d n : Z)
    (alpha : T) (A : list T) (lda : Z) (S : SkOp) (ro_s co_s : Z)
    (beta : T) (B : list T) (ldb : Z) : option (outcome (list T)) :=
  match fuel with
  | O => None
  | Datatypes.S fuel =>
      r ← (if SparseSkOp.nnz S <? 0 then
             let shallowcopy :=
               SparseSkOp_new (SparseSkOp.dist S) (SparseSkOp.seed_state S) in
             let shallowcopy := fill_sparse shallowcopy in
             rskges fuel layout opA opS m d n alpha A lda shallowcopy
                    ro_s co_s beta B ldb
             (* no return: control goes on below *)
           else Some (Ok B));
      match r with
      | Ok B =>
          let Scoo := coo_view_of_skop S in
          Some (right_spmm layout opA opS m d n alpha A lda Scoo ro_s co_s
                           beta B ldb)
      | Throw => Some Throw
      | Undefined => Some Undefined
      end
  end.
End kernels.

End sparse.

(** ** The random state of [src/base.cc] *)

Module base.

Record RNGState : Type := mkRNGState {
  len_c : Z;
  len_k : Z;
  ctr : list Z;
  key : list Z
}.

(** [new uint32_t[n]]: the words of the new array are not initialized;
    [junk] gives the value each of them happens to hold. *)
Definition new_uint32 (n : Z) (junk : nat → Z) : list Z :=
  junk <$> seq 0 (Z.to_nat n).

(** [RNGState::RNGState(uint32_t c0, uint32_t k0)]. *)
Definition RNGState_new (c0 k0 : Z) (junk_c junk_k : nat → Z) : RNGState :=
  let len_c := 4 in
  let len_k := 4 in
  let ctr := new_uint32 len_c junk_c in
  let key := new_uint32 len_k junk_k in
  let ctr := <[0%nat := c0]> ctr in
  let key := <[0%nat := k0]> key in
  mkRNGState len_c len_k ctr key.

(** [RNGState::RNGState(const RNGState &s)]: [memcpy] copies [len * 4]
    bytes, that is [len] words. *)
Definition RNGState_copy (s : RNGState) (junk_c junk_k : nat → Z) : RNGState :=
  let n_c := Z.to_nat (len_c s) in
  let n_k := Z.to_nat (len_k s) in
  mkRNGState (len_c s) (len_k s)
    (take n_c (ctr s) ++ drop n_c (new_uint32 (len_c s) junk_c))
    (take n_k (key s) ++ drop n_k (new_uint32 (len_k s) junk_k)).

End base.

(** ** Sampling without replacement

    [repeated_fisher_yates] is called by [trig_skops.hh] and by the tests,
    and defined in a header outside the files embedded here. *)

Module sampling.

(** The counter of a state is four 32-bit words, [v[0]] the least
    significant; it is held as one integer below [2^128]. *)
Definition ctr_modulus : Z := 2 ^ 128.

Record RNGState : Type := mkRNGState {
  counter : Z;
  key : Z
}.

(** [counter.incr(n)]: addition over the four words, with carry, the carry
    out of the last word dropped. *)
Definition incr (c n : Z) : Z := (c + n) `mod` ctr_modulus.

(** [counter.v[i]]. *)
Definition v (c : Z) (i : Z) : Z := (c `div` 2 ^ (32 * i)) `mod` 2 ^ 32.

(** Modelled from the spec: "the increment added to the counter is
    [ceil(num_draws * words_consumed_per_draw /
    words_per_counter_increment)], generator-specific".  A Fisher-Yates
    draw evaluates the generator once, at a counter value of its own: it
    consumes the whole block of a counter increment.  (The test
    [test_updated_rngstates_fisher_yates] expects equal counters from one
    call and from two chained calls.) *)
Definition words_per_counter_increment : Z := 4.
Definition words_consumed_per_draw : Z := 4.

Definition counter_increment (num_draws : Z) : Z :=
  - ((- (num_draws * words_consumed_per_draw)) `div` words_per_counter_increment).

Definition advance (state : RNGState) (num_draws : Z) : RNGState :=
  mkRNGState (incr (counter state) (counter_increment num_draws)) (key state).

Section fisher_yates.
(** The first word the generator gives for a counter and a key. *)
Variable gen : Z → Z → Z.

Definition swap (perm : list Z) (i j : nat) : list Z :=
  <[j := perm !!! i]> (<[i := perm !!! j]> perm).

(** Modelled from the spec: steps [i, i + steps) of one repetition:
    "draw a uniform integer [j] in [[i, d)] from the RNG stream,
    swap-select position [j] into position [i], record the value at
    position [i]". *)
Fixpoint fisher_yates_steps (steps : nat) (i d ctr key : Z) (perm : list Z)
  : list Z :=
  match steps with
  | O => []
  | S steps =>
      let j := i + gen ctr key `mod` (d - i) in
      let perm := swap perm (Z.to_nat i) (Z.to_nat j) in
      perm !!! Z.to_nat i
        :: fisher_yates_steps steps (i + 1) d (incr ctr 1) key perm
  end.

(** Modelled from the spec: one repetition, "a permutation array seeded
    as identity; for [i] from 0 to [k-1] ...". *)
Definition fisher_yates (k d ctr key : Z) : list Z :=
  fisher_yates_steps (Z.to_nat k) 0 d ctr key (seqZ 0 d).

(** Modelled from the spec: "[r] independent partial Fisher-Yates
    shuffles ..., writing each repetition's [k] selected indices
    contiguously into [out_major]". *)
Fixpoint repetitions (r : nat) (k d ctr key : Z) : list Z :=
  match r with
  | O => []
  | S r => fisher_yates k d ctr key ++ repetitions r k d (incr ctr k) key
  end.

(** Modelled from the spec: [repeated_fisher_yates(state, num_samples_k,
    domain_size_d, num_repetitions_r, out_major, ...) -> state'];
    "the returned state reflects consumption from all [r*k] draws".
    The result is the contents of [out_major] and the returned state. *)
Definition repeated_fisher_yates (state : RNGState) (k d r : Z)
  : list Z * RNGState :=
  (repetitions (Z.to_nat r) k d (counter state) (key state),
   advance state (r * k)).
End fisher_yates.

End sampling.

(** ** The overloads of [sketch_general] ([RandBLAS/skge.hh]) *)

Module randblas.
Import blas.

Section sketch_general.
Context {T DenseDist RNGState : Type}.
Variable gemm :
  Layout → Op → Op → Z → Z → Z → T → dense.ptr T → Z → dense.ptr T → Z → T →
  list T → Z → list T.
Variable submatrix_as_blackbox :
  DenseSkOp.t T DenseDist RNGState → Z → Z → Z → Z → BLASFriendlyOperator.t T.

(** [sketch_general(layout, opS, opA, d, n, m, alpha, S, ro_s, co_s, A,
    lda, beta, B, ldb)] for a [DenseSkOp]. *)
Definition sketch_general_left_sub (layout : Layout) (opS opA : Op) (d n m : Z)
    (alpha : T) (S : DenseSkOp.t T DenseDist RNGState) (ro_s co_s : Z)
    (A : list T) (lda : Z) (beta : T) (B : list T) (ldb : Z)
  : outcome (list T) :=
  dense.lskge3 gemm submatrix_as_blackbox layout opS opA d n m alpha S
    ro_s co_s A lda beta B ldb.

(** [sketch_general(layout, opA, opS, m, d, n, alpha, A, lda, S, ro_s,
    co_s, beta, B, ldb)] for a [DenseSkOp]. *)
Definition sketch_general_right_sub (layout : Layout) (opA opS : Op) (m d n : Z)
    (alpha : T) (A : list T) (lda : Z)
    (S : DenseSkOp.t T DenseDist RNGState) (ro_s co_s : Z)
    (beta : T) (B : list T) (ldb : Z) : outcome (list T) :=
  dense.rskge3 gemm submatrix_as_blackbox layout opA opS m d n alpha A lda S
    ro_s co_s beta B ldb.

(** [sketch_general(layout, opS, opA, d, n, m, alpha, S, A, lda, beta, B,
    ldb)], the whole operator applied from the left; for a [DenseSkOp]
    the call in its body resolves to the overload above. *)
Definition sketch_general_left (layout : Layout) (opS opA : Op) (d n m : Z)
    (alpha : T) (S : DenseSkOp.t T DenseDist RNGState)
    (A : list T) (lda : Z) (beta : T) (B : list T) (ldb : Z)
  : outcome (list T) :=
  (if decide (opS = NoTrans) then
     randblas_require (DenseSkOp.n_rows S =? d);;
     randblas_require (DenseSkOp.n_cols S =? m)
   else
     randblas_require (DenseSkOp.n_rows S =? m);;
     randblas_require (DenseSkOp.n_cols S =? d));;
  sketch_general_left_sub layout opS opA d n m alpha S 0 0 A lda beta B ldb.

(** [sketch_general(layout, opA, opS, m, d, n, alpha, A, lda, S, beta, B,
    ldb)], the whole operator applied from the right. *)
Definition sketch_general_right (layout : Layout) (opA opS : Op) (m d n : Z)
    (alpha : T) (A : list T) (lda : Z)
    (S : DenseSkOp.t T DenseDist RNGState)
    (beta : T) (B : list T) (ldb : Z) : outcome (list T) :=
  (if decide (opS = NoTrans) then
     randblas_require (DenseSkOp.n_rows S =? n);;
     randblas_require (DenseSkOp.n_cols S =? d)
   else
     randblas_require (DenseSkOp.n_rows S =? d);;
     randblas_require (DenseSkOp.n_cols S =? n));;
  sketch_general_right_sub layout opA opS m d n alpha A lda S 0 0 beta B ldb.
End sketch_general.

End randblas.

(** ** The trigonometric operators ([RandBLAS/trig_skops.hh]) *)

Module trig.

Section diagonal.
Context {T : Type} (Tmul : T → T → T).
(** The conversion of an integer of [sint_t] to the scalar type. *)
Variable of_int : Z → T.

(** A routine applied to the array behind the pointer [&A[off]]: it sees
    the cells of [A] from [off] on. *)
Definition at_offset (A : list T) (off : Z)
    (f : list T → outcome (list T)) : outcome (list T) :=
  if (off <? 0) || (Z.of_nat (length A) <? off) then Undefined
  else
    x ← f (drop (Z.to_nat off) A);
    mret (take (Z.to_nat off) A ++ x).

(** [applyDiagonalRademacher(rows, cols, A, diag)].  The loop counter
    [col] is an [int]: its increment overflows when [cols] is beyond the
    range of [int]. *)
Definition applyDiagonalRademacher (rows cols : Z) (A : list T) (diag : list Z)
  : outcome (list T) :=
  if cols >? cint.int_max then Undefined
  else
    for_range 0 cols
      (λ col A,
         d ← rd diag col;
         if d >? 0 then mret A
         else at_offset A (col * rows)
                (λ x, blas.scal Tmul rows (of_int d) x 1))
      A.
End diagonal.

End trig.

(** ** The helpers of the tests ([test/test_sparse_data/common.hh]) *)

Module test_common.
Import sparse_data.

Section coo_from_diag.
Context {T : Type}.

End coo_from_diag.

End test_common.

(** ** Inputs of the examples *)

Module examples.
Import sparse_data.

(** A stand-in for the multiplication routine that [apply_coo_left] calls
    out of CSC order: it leaves [B] as it is. *)
Definition kernel_stub :
  blas.Layout → blas.Layout → Z → Z → Z → COOMatrix → Z → Z →
  list Z → Z → list Z → Z → heap Z → outcome (list Z) :=
  λ _ _ _ _ _ _ _ _ _ _ B _ _, Ok B.

(** The 1-by-1 matrix [[2]], in CSC order. *)
Definition h_single : heap Z :=
  Heap {[1%nat := [2]]} {[2%nat := [0]; 3%nat := [0]]} 3%nat.
Definition S_single : COOMatrix :=
  mkCOOMatrix 1 1 IndexBase.Zero false 1 1%nat 2%nat 3%nat NonzeroSort.CSC true.

(** The 1-by-2 matrix [[2, 1]], its nonzeros stored as (0,1,1), (0,0,2)
    and its order declared None. *)
Definition h_unsorted : heap Z :=
  Heap {[1%nat := [1; 2]]} {[2%nat := [0; 0]; 3%nat := [1; 0]]} 3%nat.
Definition S_unsorted : COOMatrix :=
  mkCOOMatrix 1 2 IndexBase.Zero false 2 1%nat 2%nat 3%nat NonzeroSort.None true.

(** The 2-by-2 matrix [[0, 1], [2, 0]], its nonzeros stored as (0,1,1),
    (1,0,2): CSR order, and declared so. *)
Definition h_csr : heap Z :=
  Heap {[1%nat := [1; 2]]} {[2%nat := [0; 1]; 3%nat := [1; 0]]} 3%nat.
Definition S_csr : COOMatrix :=
  mkCOOMatrix 2 2 IndexBase.Zero false 2 1%nat 2%nat 3%nat NonzeroSort.CSR true.

(** The 2-by-2 matrix [[5, 0], [0, 7]] in COO form, and in CSR form. *)
Definition h_diag : heap Z :=
  Heap {[1%nat := [5; 7]]} {[2%nat := [0; 1]; 3%nat := [0; 1]]} 3%nat.
Definition coo_diag : COOMatrix :=
  mkCOOMatrix 2 2 IndexBase.Zero false 2 1%nat 2%nat 3%nat NonzeroSort.CSR true.
Definition h_diag_csr : heap Z :=
  Heap {[4%nat := [5; 7]]} {[5%nat := [0; 1; 2]; 6%nat := [0; 1]]} 6%nat.
Definition csr_diag : csr.CSRMatrix :=
  csr.mkCSRMatrix 2 2 IndexBase.Zero false 2 4%nat 5%nat 6%nat true.

(** What a new array happens to hold. *)
Definition junk : nat → Z := λ _, -1.

(** A dense 2-by-3 operator that is not materialized; entry [(i, j)] of
    the operator is [10 * i + j]. *)
Definition dense_entry : unit → unit → Z → Z → Z := λ _ _ i j, 10 * i + j.
Definition S_dense (layout : blas.Layout) : DenseSkOp.t Z unit unit :=
  DenseSkOp.mk Z unit unit () () 2 3 layout None.

(** A sparse operator that is not materialized, and stand-ins for the
    routines that are parameters of the model: the operator filled has 3 nonzeros,
    the view of an operator is its [nnz], and a multiplication appends
    the [nnz] of the view it was given to [B]. *)
Definition S_sparse : SparseSkOp.t unit unit unit := SparseSkOp.mk unit unit unit () () (-1) ().
Definition SparseSkOp_new_stub : unit → unit → SparseSkOp.t unit unit unit :=
  λ d s, SparseSkOp.mk unit unit unit d s (-1) ().
Definition fill_sparse_stub (S : SparseSkOp.t unit unit unit)
  : SparseSkOp.t unit unit unit :=
  SparseSkOp.mk unit unit unit (SparseSkOp.dist S) (SparseSkOp.seed_state S) 3 ().
Definition coo_view_stub (S : SparseSkOp.t unit unit unit) : Z := SparseSkOp.nnz S.
Definition left_spmm_stub :
  blas.Layout → blas.Op → blas.Op → Z → Z → Z → Z → Z → Z → Z →
  list Z → Z → Z → list Z → Z → outcome (list Z) :=
  λ _ _ _ _ _ _ _ Scoo _ _ _ _ _ B _, Ok (B ++ [Scoo]).
Definition right_spmm_stub :
  blas.Layout → blas.Op → blas.Op → Z → Z → Z → Z → list Z → Z → Z →
  Z → Z → Z → list Z → Z → outcome (list Z) :=
  λ _ _ _ _ _ _ _ _ _ Scoo _ _ _ B _, Ok (B ++ [Scoo]).

End examples.



(** * Theorems *)

Import sparse_data.

(** ** Transposing a COO matrix *)

(** C10.  For every COO matrix [S], [transpose(S)] returns a view that does
    not own its arrays, holds the address of [S]'s [vals] array in [vals]
    (the two objects share the buffer), holds the addresses of [S]'s
    [rows] and [cols] arrays exchanged, has the sort flag mapped CSR to
    CSC, CSC to CSR and None to None, and has [n_rows] and [n_cols] taken
    from [S] as they are, not exchanged.  ([nnz] and [index_base] are
    those of [S] too, and when [S] does not own its arrays the heap is
    left as it was.) *)
Theorem transpose_is_unswapped_view {T : Type} (S : COOMatrix) (h : heap T) :
  ∃ St h',
    transpose S h = Ok (St, h') ∧
    own_memory St = false ∧
    vals St = vals S ∧ rows St = cols S ∧ cols St = rows S ∧
    sort St = match sort S with
              | NonzeroSort.CSR => NonzeroSort.CSC
              | NonzeroSort.CSC => NonzeroSort.CSR
              | NonzeroSort.None => NonzeroSort.None
              end ∧
    n_rows St = n_rows S ∧ n_cols St = n_cols S ∧
    nnz St = nnz S ∧ index_base St = index_base S ∧
    (own_memory S = false → h' = h).
Proof.
  unfold transpose, COOMatrix_view, COOMatrix_destroy.
  destruct S as [nr nc ib own nz v r c srt cr]; cbn.
  destruct own; cbn.
  - eexists _, _. split; [reflexivity|].
    destruct srt; cbn; repeat split; try reflexivity; discriminate.
  - eexists _, _. split; [reflexivity|].
    destruct srt; cbn; repeat split; reflexivity.
Qed.

(** ** A requirement that holds *)

Lemma require_ok {A} (b : bool) (k : outcome A) :
  b = true → (randblas_require b;; k) = k.
Proof. intros ->. reflexivity. Qed.

(** ** The dense kernels: preconditions *)

Section dense_facts.
Context {T DenseDist RNGState : Type}.
Variable gemm :
  blas.Layout → blas.Op → blas.Op → Z → Z → Z → T → dense.ptr T → Z →
  dense.ptr T → Z → T → list T → Z → list T.
Variable submatrix_as_blackbox :
  DenseSkOp.t T DenseDist RNGState → Z → Z → Z → Z → BLASFriendlyOperator.t T.

Lemma lskge3_materialized_throws layout opS opA d n m alpha
    S_layout S_n_rows S_n_cols (buf : list T) ro_s co_s A lda beta B ldb :
  dense.lskge3_materialized gemm layout opS opA d n m alpha
    S_layout S_n_rows S_n_cols (Some buf) ro_s co_s A lda beta B ldb = Throw
  ↔ (lda < dense.minor_extent layout (dense.dims_before_op m n opA).1
                               (dense.dims_before_op m n opA).2
     ∨ ldb < dense.minor_extent layout d n
     ∨ dense.shape_too_small S_n_rows S_n_cols (dense.dims_before_op d m opS) ro_s co_s).
Proof.
  unfold dense.lskge3_materialized, dense.shape_too_small, dense.minor_extent.
  destruct (dense.dims_before_op d m opS) as [rs cs].
  destruct (dense.dims_before_op m n opA) as [rA cA]. cbn [fst snd].
  destruct (Z.geb_spec S_n_rows (rs + ro_s)); cbn;
    [|split; [intros _; lia | reflexivity]].
  destruct (Z.geb_spec S_n_cols (cs + co_s)); cbn;
    [|split; [intros _; lia | reflexivity]].
  destruct layout; cbn.
  - destruct (Z.geb_spec lda rA); cbn; [|split; [intros _; lia | reflexivity]].
    destruct (Z.geb_spec ldb d); cbn; [|split; [intros _; lia | reflexivity]].
    destruct (dense.offset_and_ldim _ _ _ _ _). cbn. split; [discriminate | lia].
  - destruct (Z.geb_spec lda cA); cbn; [|split; [intros _; lia | reflexivity]].
    destruct (Z.geb_spec ldb n); cbn; [|split; [intros _; lia | reflexivity]].
    destruct (dense.offset_and_ldim _ _ _ _ _). cbn. split; [discriminate | lia].
Qed.

Lemma rskge3_materialized_throws layout opA opS m d n alpha A lda
    S_layout S_n_rows S_n_cols (buf : list T) ro_s co_s beta B ldb :
  dense.rskge3_materialized gemm layout opA opS m d n alpha A lda
    S_layout S_n_rows S_n_cols (Some buf) ro_s co_s beta B ldb = Throw
  ↔ (lda < dense.minor_extent layout (dense.dims_before_op m n opA).1
                               (dense.dims_before_op m n opA).2
     ∨ ldb < dense.minor_extent layout m d
     ∨ dense.shape_too_small S_n_rows S_n_cols (dense.dims_before_op n d opS) ro_s co_s).
Proof.
  unfold dense.rskge3_materialized, dense.shape_too_small, dense.minor_extent.
  destruct (dense.dims_before_op n d opS) as [rs cs].
  destruct (dense.dims_before_op m n opA) as [rA cA]. cbn [fst snd].
  destruct (Z.geb_spec S_n_rows (rs + ro_s)); cbn;
    [|split; [intros _; lia | reflexivity]].
  destruct (Z.geb_spec S_n_cols (cs + co_s)); cbn;
    [|split; [intros _; lia | reflexivity]].
  destruct layout; cbn.
  - destruct (Z.geb_spec lda rA); cbn; [|split; [intros _; lia | reflexivity]].
    destruct (Z.geb_spec ldb m); cbn; [|split; [intros _; lia | reflexivity]].
    destruct (dense.offset_and_ldim _ _ _ _ _). cbn. split; [discriminate | lia].
  - destruct (Z.geb_spec lda cA); cbn; [|split; [intros _; lia | reflexivity]].
    destruct (Z.geb_spec ldb d); cbn; [|split; [intros _; lia | reflexivity]].
    destruct (dense.offset_and_ldim _ _ _ _ _). cbn. split; [discriminate | lia].
Qed.

(** C8.  For a materialized operator (a buffer is present), offsets
    that are not negative (as the kernels document them) and sums of the
    shape checks that are in the range of [int64_t]: [lskge3] and
    [rskge3] fail with a precondition error exactly when the leading
    dimension of [A] or of [B] is smaller than the minor-axis extent of
    that operand under the given layout, or the declared shape of the
    operator is too small to hold the requested submatrix at offset
    [(ro_s, co_s)]; for such offsets the shape is too small exactly when
    the submatrix does not lie inside the operator. *)
Theorem skge3_precondition_failure layout opS opA d n m alpha
    (S : DenseSkOp.t T DenseDist RNGState) ro_s co_s A lda beta B ldb :
  is_Some (DenseSkOp.buff S) →
  dense.offsets_in_range (DenseSkOp.layout S) (DenseSkOp.n_rows S)
    (DenseSkOp.n_cols S) (dense.dims_before_op d m opS) ro_s co_s →
  dense.offsets_in_range (DenseSkOp.layout S) (DenseSkOp.n_rows S)
    (DenseSkOp.n_cols S) (dense.dims_before_op n d opS) ro_s co_s →
  (dense.lskge3 gemm submatrix_as_blackbox layout opS opA d n m alpha
     S ro_s co_s A lda beta B ldb = Throw
   ↔ (lda < dense.minor_extent layout (dense.dims_before_op m n opA).1
                                (dense.dims_before_op m n opA).2
      ∨ ldb < dense.minor_extent layout d n
      ∨ dense.shape_too_small (DenseSkOp.n_rows S) (DenseSkOp.n_cols S)
          (dense.dims_before_op d m opS) ro_s co_s))
  ∧ (dense.rskge3 gemm submatrix_as_blackbox layout opA opS m d n alpha
       A lda S ro_s co_s beta B ldb = Throw
     ↔ (lda < dense.minor_extent layout (dense.dims_before_op m n opA).1
                                  (dense.dims_before_op m n opA).2
        ∨ ldb < dense.minor_extent layout m d
        ∨ dense.shape_too_small (DenseSkOp.n_rows S) (DenseSkOp.n_cols S)
            (dense.dims_before_op n d opS) ro_s co_s))
  ∧ (dense.shape_too_small (DenseSkOp.n_rows S) (DenseSkOp.n_cols S)
       (dense.dims_before_op d m opS) ro_s co_s
     ↔ ¬ dense.window_inside (DenseSkOp.n_rows S) (DenseSkOp.n_cols S)
           (dense.dims_before_op d m opS) ro_s co_s)
  ∧ (dense.shape_too_small (DenseSkOp.n_rows S) (DenseSkOp.n_cols S)
       (dense.dims_before_op n d opS) ro_s co_s
     ↔ ¬ dense.window_inside (DenseSkOp.n_rows S) (DenseSkOp.n_cols S)
           (dense.dims_before_op n d opS) ro_s co_s).
Proof.
  intros [buf Hbuf] (Hro & Hco & _) _.
  unfold dense.lskge3, dense.rskge3. rewrite Hbuf.
  destruct (dense.dims_before_op d m opS) as [rs cs] eqn:Hl.
  destruct (dense.dims_before_op n d opS) as [rs' cs'] eqn:Hr.
  rewrite <- Hl, <- Hr.
  split; [apply lskge3_materialized_throws|].
  split; [apply rskge3_materialized_throws|].
  unfold dense.shape_too_small, dense.window_inside. split; lia.
Qed.

End dense_facts.

(** ** The dense kernels: layout and transposition *)

Section layout_facts.
Context {T DenseDist RNGState : Type}.
Variable gemm :
  blas.Layout → blas.Op → blas.Op → Z → Z → Z → T → dense.ptr T → Z →
  dense.ptr T → Z → T → list T → Z → list T.
Variable submatrix_as_blackbox :
  DenseSkOp.t T DenseDist RNGState → Z → Z → Z → Z → BLASFriendlyOperator.t T.

(** A row-major [r]-by-[c] buffer applied with [NoTrans] and the same
    buffer reinterpreted as column-major [c]-by-[r] and applied with
    [Trans] to the mirrored window: the two calls hand GEMM the same
    pointer, leading dimension and flags. *)
Lemma reinterpreted_buffer_same_call layout opA d n m alpha
    (dist : DenseDist) (seed : RNGState) (buf : list T) r c ro co
    A lda beta B ldb :
  let S_row := DenseSkOp.mk T DenseDist RNGState dist seed r c blas.RowMajor (Some buf) in
  let S_col := DenseSkOp.mk T DenseDist RNGState dist seed c r blas.ColMajor (Some buf) in
  dense.lskge3 gemm submatrix_as_blackbox layout blas.NoTrans opA d n m alpha
    S_row ro co A lda beta B ldb
  = dense.lskge3 gemm submatrix_as_blackbox layout blas.Trans opA d n m alpha
      S_col co ro A lda beta B ldb
  ∧ dense.rskge3 gemm submatrix_as_blackbox layout opA blas.NoTrans m d n alpha
      A lda S_row ro co beta B ldb
    = dense.rskge3 gemm submatrix_as_blackbox layout opA blas.Trans m d n alpha
        A lda S_col co ro beta B ldb.
Proof.
  cbn zeta. unfold dense.lskge3, dense.rskge3,
    dense.lskge3_materialized, dense.rskge3_materialized. cbn.
  replace (co + c * ro) with (ro * c + co) by lia.
  destruct (dense.dims_before_op m n opA) as [rA cA].
  split.
  - destruct (r >=? d + ro), (c >=? m + co); cbn; try reflexivity.
    destruct layout; cbn; reflexivity.
  - destruct (r >=? n + ro), (c >=? d + co); cbn; try reflexivity.
    destruct layout; cbn; reflexivity.
Qed.

End layout_facts.

(** ** The dense kernels: operators that are not materialized *)

Section blackbox_facts.
Context {T DenseDist RNGState : Type} (T0 : T) (Tadd Tmul : T → T → T).
Variable dense_entry : DenseDist → RNGState → Z → Z → T.

Lemma foldl_ext_in {A B} (f g : A → B → A) (l : list B) (a : A) :
  (∀ a x, x ∈ l → f a x = g a x) → foldl f a l = foldl g a l.
Proof.
  revert a. induction l as [|x l IH]; intros a Hfg; [reflexivity|].
  cbn. rewrite (Hfg a x) by left. apply IH.
  intros a' y Hy. apply Hfg. by right.
Qed.

Lemma dot_ext (k : Z) (a b a' b' : Z → T) :
  (∀ l, 0 ≤ l < k → a l = a' l) → (∀ l, 0 ≤ l < k → b l = b' l) →
  dense.dot T0 Tadd Tmul k a b = dense.dot T0 Tadd Tmul k a' b'.
Proof.
  intros Ha Hb. unfold dense.dot. apply foldl_ext_in.
  intros acc l Hl. apply elem_of_seqZ in Hl.
  rewrite Ha, Hb by lia. reflexivity.
Qed.

(** GEMM reads its operands only through the entries of [op(A)] and
    [op(B)] that the product needs. *)
Lemma gemm_model_ext layout opA opA' opB opB' m n k alpha
    (A A' : dense.ptr T) lda lda' (B B' : dense.ptr T) ldb ldb' beta C ldc :
  (∀ i l, 0 ≤ i < m → 0 ≤ l < k →
     dense.op_entry T0 layout opA A lda i l
     = dense.op_entry T0 layout opA' A' lda' i l) →
  (∀ l j, 0 ≤ l < k → 0 ≤ j < n →
     dense.op_entry T0 layout opB B ldb l j
     = dense.op_entry T0 layout opB' B' ldb' l j) →
  dense.gemm_model T0 Tadd Tmul layout opA opB m n k alpha A lda B ldb beta C ldc
  = dense.gemm_model T0 Tadd Tmul layout opA' opB' m n k alpha A' lda' B' ldb' beta C ldc.
Proof.
  intros HA HB. unfold dense.gemm_model.
  apply foldl_ext_in. intros C1 i Hi. apply elem_of_seqZ in Hi.
  apply foldl_ext_in. intros C2 j Hj. apply elem_of_seqZ in Hj.
  cbn zeta. destruct (_ <? 0); [reflexivity|].
  f_equal. f_equal. f_equal.
  apply dot_ext; intros l Hl; [apply HA | apply HB]; lia.
Qed.

(** Entry [p] of a generated window. *)
Lemma generate_nth layout dist seed n_rows n_cols ro co p :
  0 ≤ p < n_rows * n_cols →
  nth (Z.to_nat p) (dense.generate dense_entry layout dist seed n_rows n_cols ro co) T0
  = match layout with
    | blas.ColMajor => dense_entry dist seed (ro + p `mod` n_rows) (co + p `div` n_rows)
    | blas.RowMajor => dense_entry dist seed (ro + p `div` n_cols) (co + p `mod` n_cols)
    end.
Proof.
  intros Hp. unfold dense.generate.
  rewrite nth_lookup, list_lookup_fmap.
  rewrite (lookup_seqZ_lt _ _ (Z.to_nat p)) by lia.
  cbn. rewrite Z2Nat.id by lia. rewrite Z.add_0_l. reflexivity.
Qed.

(** Reading entry [(a, b)] of the window at [(ro, co)] of a generated
    [n_rows]-by-[n_cols] block, through the pointer and the leading
    dimension that [offset_and_ldim] gives. *)
Lemma generate_window layout dist seed n_rows n_cols ro0 co0 ro co a b :
  0 ≤ ro → 0 ≤ co → 0 ≤ a → 0 ≤ b → ro + a < n_rows → co + b < n_cols →
  dense.deref T0
    (dense.generate dense_entry layout dist seed n_rows n_cols ro0 co0,
     (dense.offset_and_ldim layout n_rows n_cols ro co).1)
    (dense.index layout (dense.offset_and_ldim layout n_rows n_cols ro co).2 a b)
  = dense_entry dist seed (ro0 + (ro + a)) (co0 + (co + b)).
Proof.
  intros Hro Hco Ha Hb Hr Hc. unfold dense.deref. cbn [fst snd].
  destruct layout; cbn [dense.offset_and_ldim dense.index fst snd].
  - replace (ro + n_rows * co + (a + b * n_rows))
      with ((ro + a) + (co + b) * n_rows) by lia.
    assert (0 ≤ (ro + a) + (co + b) * n_rows < n_rows * n_cols) as Hp by nia.
    destruct (Z.ltb_spec (ro + a + (co + b) * n_rows) 0); [lia|].
    rewrite generate_nth by exact Hp.
    rewrite Z.mod_add, Z.div_add by lia.
    rewrite Z.mod_small, Z.div_small by lia.
    f_equal; lia.
  - replace (ro * n_cols + co + (a * n_cols + b))
      with ((co + b) + (ro + a) * n_cols) by lia.
    assert (0 ≤ (co + b) + (ro + a) * n_cols < n_rows * n_cols) as Hp by nia.
    destruct (Z.ltb_spec (co + b + (ro + a) * n_cols) 0); [lia|].
    rewrite generate_nth by exact Hp.
    rewrite Z.mod_add, Z.div_add by lia.
    rewrite Z.mod_small, Z.div_small by lia.
    f_equal; lia.
Qed.

(** The entry of [op(X)] that GEMM reads when the kernel passes the flag
    it computes from [opS] and the two layouts is entry [(a, b)] of [X] in
    the layout of the operator, [(a, b)] being [(i, l)] for [NoTrans] and
    [(l, i)] for [Trans]. *)
Lemma flipped_entry layout S_layout opS (p : dense.ptr T) ld i l :
  dense.op_entry T0 layout
    (if decide (S_layout ≠ layout) then dense.flip opS else opS) p ld i l
  = match opS with
    | blas.NoTrans => dense.deref T0 p (dense.index S_layout ld i l)
    | blas.Trans => dense.deref T0 p (dense.index S_layout ld l i)
    end.
Proof.
  destruct layout, S_layout, opS;
    destruct (decide _) as [Hne|He]; try (exfalso; congruence);
    try (exfalso; apply He; discriminate);
    cbn; apply (f_equal (dense.deref T0 p)); unfold dense.index; lia.
Qed.

(** The operand that [lskge3] and [rskge3] hand to GEMM for a buffer
    generated as the [R]-by-[C] block at [(ro0, co0)], seen through the
    window at [(ro, co)]: GEMM reads the entries of the operator. *)
Lemma operand_entry layout S_layout opS dist seed R C ro0 co0 ro co i l :
  0 ≤ ro → 0 ≤ co → 0 ≤ i → 0 ≤ l →
  ro + (dense.dims_before_op i l opS).1 < R →
  co + (dense.dims_before_op i l opS).2 < C →
  dense.op_entry T0 layout
    (if decide (S_layout ≠ layout) then dense.flip opS else opS)
    (dense.generate dense_entry S_layout dist seed R C ro0 co0,
     (dense.offset_and_ldim S_layout R C ro co).1)
    (dense.offset_and_ldim S_layout R C ro co).2 i l
  = dense_entry dist seed
      (ro0 + (ro + (dense.dims_before_op i l opS).1))
      (co0 + (co + (dense.dims_before_op i l opS).2)).
Proof.
  intros Hro Hco Hi Hl Hr Hc. rewrite flipped_entry.
  destruct opS; cbn [dense.dims_before_op fst snd] in *;
    apply generate_window; lia.
Qed.

Lemma lskge3_unmaterialized layout opS opA d n m alpha
    (S : DenseSkOp.t T DenseDist RNGState) ro_s co_s A lda beta B ldb :
  DenseSkOp.buff S = None →
  0 ≤ ro_s → 0 ≤ co_s →
  (dense.dims_before_op d m opS).1 + ro_s ≤ DenseSkOp.n_rows S →
  (dense.dims_before_op d m opS).2 + co_s ≤ DenseSkOp.n_cols S →
  dense.lskge3 (dense.gemm_model T0 Tadd Tmul)
    (dense.submatrix_as_blackbox_model dense_entry)
    layout opS opA d n m alpha S ro_s co_s A lda beta B ldb
  = dense.lskge3 (dense.gemm_model T0 Tadd Tmul)
      (dense.submatrix_as_blackbox_model dense_entry)
      layout opS opA d n m alpha (dense.fill_dense dense_entry S)
      ro_s co_s A lda beta B ldb.
Proof.
  intros Hbuf Hro Hco Hr Hc. unfold dense.lskge3. rewrite Hbuf.
  destruct S as [dist seed R C SL bf]. cbn in *. subst bf.
  unfold dense.lskge3_blackbox, dense.lskge3_materialized. cbn.
  destruct (dense.dims_before_op d m opS) as [rs cs] eqn:Hdims. cbn in *.
  rewrite !require_ok by lia.
  destruct (dense.dims_before_op m n opA) as [rA cA].
  assert (∀ k1 k2 : outcome (list T), k1 = k2 →
            ∀ c : outcome unit, (c;; k1) = (c;; k2)) as Hcong
    by (intros ?? -> ?; reflexivity).
  apply Hcong.
  pose proof (operand_entry layout SL opS dist seed rs cs ro_s co_s 0 0) as Hsub.
  pose proof (operand_entry layout SL opS dist seed R C 0 0 ro_s co_s) as Hfull.
  destruct (dense.offset_and_ldim SL rs cs 0 0) as [pos1 lds1].
  destruct (dense.offset_and_ldim SL R C ro_s co_s) as [pos2 lds2].
  cbn [fst snd] in *. cbn. f_equal.
  apply gemm_model_ext; [|reflexivity].
  intros i l Hi Hl.
  assert (0 ≤ (dense.dims_before_op i l opS).1 < rs
          ∧ 0 ≤ (dense.dims_before_op i l opS).2 < cs) as [Ha Hb].
  { destruct opS; cbn in *; inversion Hdims; subst; lia. }
  rewrite Hsub, Hfull by lia. f_equal; lia.
Qed.

Lemma rskge3_unmaterialized layout opA opS m d n alpha A lda
    (S : DenseSkOp.t T DenseDist RNGState) ro_s co_s beta B ldb :
  DenseSkOp.buff S = None →
  0 ≤ ro_s → 0 ≤ co_s →
  (dense.dims_before_op n d opS).1 + ro_s ≤ DenseSkOp.n_rows S →
  (dense.dims_before_op n d opS).2 + co_s ≤ DenseSkOp.n_cols S →
  dense.rskge3 (dense.gemm_model T0 Tadd Tmul)
    (dense.submatrix_as_blackbox_model dense_entry)
    layout opA opS m d n alpha A lda S ro_s co_s beta B ldb
  = dense.rskge3 (dense.gemm_model T0 Tadd Tmul)
      (dense.submatrix_as_blackbox_model dense_entry)
      layout opA opS m d n alpha A lda (dense.fill_dense dense_entry S)
      ro_s co_s beta B ldb.
Proof.
  intros Hbuf Hro Hco Hr Hc. unfold dense.rskge3. rewrite Hbuf.
  destruct S as [dist seed R C SL bf]. cbn in *. subst bf.
  unfold dense.rskge3_blackbox, dense.rskge3_materialized. cbn.
  destruct (dense.dims_before_op n d opS) as [rs cs] eqn:Hdims. cbn in *.
  rewrite !require_ok by lia.
  destruct (dense.dims_before_op m n opA) as [rA cA].
  assert (∀ k1 k2 : outcome (list T), k1 = k2 →
            ∀ c : outcome unit, (c;; k1) = (c;; k2)) as Hcong
    by (intros ?? -> ?; reflexivity).
  apply Hcong.
  pose proof (operand_entry layout SL opS dist seed rs cs ro_s co_s 0 0) as Hsub.
  pose proof (operand_entry layout SL opS dist seed R C 0 0 ro_s co_s) as Hfull.
  destruct (dense.offset_and_ldim SL rs cs 0 0) as [pos1 lds1].
  destruct (dense.offset_and_ldim SL R C ro_s co_s) as [pos2 lds2].
  cbn [fst snd] in *. cbn. f_equal.
  apply gemm_model_ext; [reflexivity|].
  intros l j Hl Hj.
  assert (0 ≤ (dense.dims_before_op l j opS).1 < rs
          ∧ 0 ≤ (dense.dims_before_op l j opS).2 < cs) as [Ha Hb].
  { destruct opS; cbn in *; inversion Hdims; subst; lia. }
  rewrite Hsub, Hfull by lia. f_equal; lia.
Qed.

(** C3.  For an operator that is not materialized and a window that lies
    inside the operator, [lskge3] and [rskge3] (which generate the
    window alone, into a temporary operator) give the outcome of the same
    call on the operator materialized in full by [fill_dense], for both
    layouts of the multiply, both layouts of the operator and both
    transposition flags. *)
Theorem skge3_unmaterialized_refines layout opS opA d n m alpha
    (S : DenseSkOp.t T DenseDist RNGState) ro_s co_s A lda beta B ldb :
  DenseSkOp.buff S = None →
  0 ≤ ro_s → 0 ≤ co_s →
  ((dense.dims_before_op d m opS).1 + ro_s ≤ DenseSkOp.n_rows S →
   (dense.dims_before_op d m opS).2 + co_s ≤ DenseSkOp.n_cols S →
   dense.lskge3 (dense.gemm_model T0 Tadd Tmul)
     (dense.submatrix_as_blackbox_model dense_entry)
     layout opS opA d n m alpha S ro_s co_s A lda beta B ldb
   = dense.lskge3 (dense.gemm_model T0 Tadd Tmul)
       (dense.submatrix_as_blackbox_model dense_entry)
       layout opS opA d n m alpha (dense.fill_dense dense_entry S)
       ro_s co_s A lda beta B ldb)
  ∧ ((dense.dims_before_op n d opS).1 + ro_s ≤ DenseSkOp.n_rows S →
     (dense.dims_before_op n d opS).2 + co_s ≤ DenseSkOp.n_cols S →
     dense.rskge3 (dense.gemm_model T0 Tadd Tmul)
       (dense.submatrix_as_blackbox_model dense_entry)
       layout opA opS m d n alpha A lda S ro_s co_s beta B ldb
     = dense.rskge3 (dense.gemm_model T0 Tadd Tmul)
         (dense.submatrix_as_blackbox_model dense_entry)
         layout opA opS m d n alpha A lda (dense.fill_dense dense_entry S)
         ro_s co_s beta B ldb).
Proof.
  intros Hbuf Hro Hco. split; intros Hr Hc.
  - by apply lskge3_unmaterialized.
  - by apply rskge3_unmaterialized.
Qed.

(** The outcome of the kernels on a materialized operator does not depend
    on the layout the operator is stored in. *)
Lemma skge3_storage_layout layout opS opA d n m alpha
    (dist : DenseDist) (seed : RNGState) R C ro_s co_s A lda beta B ldb :
  let S_in L :=
    DenseSkOp.mk T DenseDist RNGState dist seed R C L
      (Some (dense.generate dense_entry L dist seed R C 0 0)) in
  0 ≤ ro_s → 0 ≤ co_s →
  ((dense.dims_before_op d m opS).1 + ro_s ≤ R →
   (dense.dims_before_op d m opS).2 + co_s ≤ C →
   dense.lskge3 (dense.gemm_model T0 Tadd Tmul)
     (dense.submatrix_as_blackbox_model dense_entry)
     layout opS opA d n m alpha (S_in blas.RowMajor) ro_s co_s A lda beta B ldb
   = dense.lskge3 (dense.gemm_model T0 Tadd Tmul)
       (dense.submatrix_as_blackbox_model dense_entry)
       layout opS opA d n m alpha (S_in blas.ColMajor) ro_s co_s A lda beta B ldb)
  ∧ ((dense.dims_before_op n d opS).1 + ro_s ≤ R →
     (dense.dims_before_op n d opS).2 + co_s ≤ C →
     dense.rskge3 (dense.gemm_model T0 Tadd Tmul)
       (dense.submatrix_as_blackbox_model dense_entry)
       layout opA opS m d n alpha A lda (S_in blas.RowMajor) ro_s co_s beta B ldb
     = dense.rskge3 (dense.gemm_model T0 Tadd Tmul)
         (dense.submatrix_as_blackbox_model dense_entry)
         layout opA opS m d n alpha A lda (S_in blas.ColMajor) ro_s co_s beta B ldb).
Proof.
  intros S_in Hro Hco.
  assert (∀ k1 k2 : outcome (list T), k1 = k2 →
            ∀ c : outcome unit, (c;; k1) = (c;; k2)) as Hcong
    by (intros ?? -> ?; reflexivity).
  pose proof (λ L, operand_entry layout L opS dist seed R C 0 0 ro_s co_s) as Hent.
  split; intros Hr Hc; subst S_in; cbn beta;
    unfold dense.lskge3, dense.rskge3,
      dense.lskge3_materialized, dense.rskge3_materialized; cbn.
  - destruct (dense.dims_before_op d m opS) as [rs cs] eqn:Hdims. cbn in *.
    rewrite !require_ok by lia.
    destruct (dense.dims_before_op m n opA) as [rA cA].
    apply Hcong. f_equal.
    apply gemm_model_ext; [|reflexivity].
    intros i l Hi Hl.
    assert (0 ≤ (dense.dims_before_op i l opS).1 < rs
            ∧ 0 ≤ (dense.dims_before_op i l opS).2 < cs) as [Ha Hb].
    { destruct opS; cbn in *; inversion Hdims; subst; lia. }
    pose proof (Hent blas.RowMajor i l) as H1.
    pose proof (Hent blas.ColMajor i l) as H2.
    cbn [dense.offset_and_ldim fst snd] in H1, H2.
    rewrite H1, H2 by lia. reflexivity.
  - destruct (dense.dims_before_op n d opS) as [rs cs] eqn:Hdims. cbn in *.
    rewrite !require_ok by lia.
    destruct (dense.dims_before_op m n opA) as [rA cA].
    apply Hcong. f_equal.
    apply gemm_model_ext; [reflexivity|].
    intros l j Hl Hj.
    assert (0 ≤ (dense.dims_before_op l j opS).1 < rs
            ∧ 0 ≤ (dense.dims_before_op l j opS).2 < cs) as [Ha Hb].
    { destruct opS; cbn in *; inversion Hdims; subst; lia. }
    pose proof (Hent blas.RowMajor l j) as H1.
    pose proof (Hent blas.ColMajor l j) as H2.
    cbn [dense.offset_and_ldim fst snd] in H1, H2.
    rewrite H1, H2 by lia. reflexivity.
Qed.

End blackbox_facts.

(** C6.  (1) A materialized operator read as row-major [r]-by-[c] and
    applied with [opS = NoTrans], and the same buffer reinterpreted as
    column-major [c]-by-[r] and applied with [opS = Trans] to the mirrored
    window, give the same outcome of [lskge3] and of [rskge3], whatever
    the GEMM primitive computes.  (2) The kernels flip the transpose flag
    where the layout of the operator differs from the layout of the
    multiply, and the outcome is the one of the call on the operator
    stored in the other layout: for a window inside the operator, the
    outcome does not depend on the layout the operator is stored in.
    (3) GEMM reads the same cell of a buffer for entry [(i, l)] of a
    row-major matrix and for entry [(i, l)] of the transpose of the
    column-major matrix in the same buffer. *)
Theorem layout_transpose_equivalence {T DenseDist RNGState : Type}
    (T0 : T) (Tadd Tmul : T → T → T)
    (dense_entry : DenseDist → RNGState → Z → Z → T)
    layout opS opA d n m alpha (dist : DenseDist) (seed : RNGState)
    (buf : list T) R C ro_s co_s A lda beta B ldb :
  (∀ gemm sab,
     let S_row := DenseSkOp.mk T DenseDist RNGState dist seed R C blas.RowMajor (Some buf) in
     let S_col := DenseSkOp.mk T DenseDist RNGState dist seed C R blas.ColMajor (Some buf) in
     dense.lskge3 gemm sab layout blas.NoTrans opA d n m alpha
       S_row ro_s co_s A lda beta B ldb
     = dense.lskge3 gemm sab layout blas.Trans opA d n m alpha
         S_col co_s ro_s A lda beta B ldb
     ∧ dense.rskge3 gemm sab layout opA blas.NoTrans m d n alpha
         A lda S_row ro_s co_s beta B ldb
       = dense.rskge3 gemm sab layout opA blas.Trans m d n alpha
           A lda S_col co_s ro_s beta B ldb)
  ∧ (let S_in L :=
       DenseSkOp.mk T DenseDist RNGState dist seed R C L
         (Some (dense.generate dense_entry L dist seed R C 0 0)) in
     0 ≤ ro_s → 0 ≤ co_s →
     ((dense.dims_before_op d m opS).1 + ro_s ≤ R →
      (dense.dims_before_op d m opS).2 + co_s ≤ C →
      dense.lskge3 (dense.gemm_model T0 Tadd Tmul)
        (dense.submatrix_as_blackbox_model dense_entry)
        layout opS opA d n m alpha (S_in blas.RowMajor) ro_s co_s A lda beta B ldb
      = dense.lskge3 (dense.gemm_model T0 Tadd Tmul)
          (dense.submatrix_as_blackbox_model dense_entry)
          layout opS opA d n m alpha (S_in blas.ColMajor) ro_s co_s A lda beta B ldb)
     ∧ ((dense.dims_before_op n d opS).1 + ro_s ≤ R →
        (dense.dims_before_op n d opS).2 + co_s ≤ C →
        dense.rskge3 (dense.gemm_model T0 Tadd Tmul)
          (dense.submatrix_as_blackbox_model dense_entry)
          layout opA opS m d n alpha A lda (S_in blas.RowMajor) ro_s co_s beta B ldb
        = dense.rskge3 (dense.gemm_model T0 Tadd Tmul)
            (dense.submatrix_as_blackbox_model dense_entry)
            layout opA opS m d n alpha A lda (S_in blas.ColMajor) ro_s co_s beta B ldb))
  ∧ (∀ (p : dense.ptr T) ld i l,
       dense.op_entry T0 blas.RowMajor blas.NoTrans p ld i l
       = dense.op_entry T0 blas.ColMajor blas.Trans p ld i l).
Proof.
  split; [|split].
  - intros gemm sab. apply reinterpreted_buffer_same_call.
  - apply skge3_storage_layout.
  - intros p ld i l. cbn. apply (f_equal (dense.deref T0 p)).
    unfold dense.index. lia.
Qed.

(** ** Sampling without replacement *)

Section fisher_yates_facts.
Import sampling.
Variable gen : Z → Z → Z.

Lemma incr_incr c x y : incr (incr c x) y = incr c (x + y).
Proof.
  unfold incr. rewrite Zplus_mod_idemp_l. f_equal. lia.
Qed.

Lemma iter_incr (a : nat) (c k : Z) :
  0 ≤ c < ctr_modulus →
  Nat.iter a (λ x, incr x k) c = incr c (Z.of_nat a * k).
Proof.
  intros Hc. induction a as [|a IH].
  - cbn. unfold incr. rewrite Z.add_0_r, Z.mod_small; [reflexivity | exact Hc].
  - rewrite Nat.iter_succ, IH, incr_incr. f_equal. lia.
Qed.

Lemma repetitions_app (a b : nat) (k d c key : Z) :
  repetitions gen (a + b) k d c key
  = repetitions gen a k d c key
    ++ repetitions gen b k d (Nat.iter a (λ x, incr x k) c) key.
Proof.
  revert c. induction a as [|a IH]; intros c; [reflexivity|].
  cbn [Nat.add repetitions]. rewrite IH, <- app_assoc.
  rewrite Nat.iter_succ_r. reflexivity.
Qed.

Lemma counter_increment_draws (num_draws : Z) :
  counter_increment num_draws = num_draws.
Proof.
  unfold counter_increment, words_consumed_per_draw, words_per_counter_increment.
  replace (- (num_draws * 4)) with ((- num_draws) * 4) by lia.
  rewrite Z.div_mul by lia. lia.
Qed.

(** C2.  For a state whose counter is a 128-bit value, a domain size [d],
    a sample size [k <= d] and repetition counts [r1] and [r2], one call
    for [r1 + r2] repetitions writes the indices that a call for [r1]
    repetitions followed by a call for [r2] repetitions from the returned
    state write, element for element; the two final states are equal, so
    the final counters differ by no more than one unit. *)
Theorem repeated_fisher_yates_split (s : RNGState) (k d r1 r2 : Z) :
  0 ≤ counter s < ctr_modulus →
  k ≤ d → 0 ≤ r1 → 0 ≤ r2 →
  let onecall := repeated_fisher_yates gen s k d (r1 + r2) in
  let first := repeated_fisher_yates gen s k d r1 in
  let second := repeated_fisher_yates gen first.2 k d r2 in
  onecall.1 = first.1 ++ second.1
  ∧ onecall.2 = second.2
  ∧ Z.abs (counter onecall.2 - counter second.2) ≤ 1.
Proof.
  intros Hc Hkd Hr1 Hr2. cbn zeta. unfold repeated_fisher_yates, advance.
  cbn [fst snd counter key]. rewrite !counter_increment_draws.
  assert (incr (counter s) ((r1 + r2) * k)
          = incr (incr (counter s) (r1 * k)) (r2 * k)) as Hctr.
  { rewrite incr_incr. f_equal. lia. }
  split; [|split].
  - rewrite Z2Nat.inj_add by lia. rewrite repetitions_app.
    rewrite iter_incr by exact Hc. rewrite Z2Nat.id by lia. reflexivity.
  - rewrite Hctr. reflexivity.
  - rewrite Hctr. lia.
Qed.

End fisher_yates_facts.

(** ** The random state of [src/base.cc] *)

(** C7.  The constructor [RNGState(c0, k0)] sets word 0 of the counter and
    word 0 of the key and leaves words 1 to 3 of both as the allocation
    left them: two states constructed from the same [(c0, k0)] agree on
    word 0, and differ wherever the two allocations held different
    words. *)
Theorem RNGState_new_leaves_words_unset (c0 k0 : Z) (junk_c junk_k : nat → Z) :
  let s := base.RNGState_new c0 k0 junk_c junk_k in
  base.ctr s = [c0; junk_c 1%nat; junk_c 2%nat; junk_c 3%nat]
  ∧ base.key s = [k0; junk_k 1%nat; junk_k 2%nat; junk_k 3%nat]
  ∧ base.RNGState_new c0 k0 (λ _, 0) (λ _, 0)
    ≠ base.RNGState_new c0 k0 (λ _, 1) (λ _, 0).
Proof.
  cbn. repeat split. discriminate.
Qed.

(** ** The sparse kernels: operators that are not materialized *)

Section sparse_facts.
Context {T SparseDist RNGState Rest COOView : Type}.
Variable SparseSkOp_new :
  SparseDist → RNGState → SparseSkOp.t SparseDist RNGState Rest.
Variable fill_sparse :
  SparseSkOp.t SparseDist RNGState Rest → SparseSkOp.t SparseDist RNGState Rest.
Variable coo_view_of_skop : SparseSkOp.t SparseDist RNGState Rest → COOView.
Variable left_spmm :
  blas.Layout → blas.Op → blas.Op → Z → Z → Z → T → COOView → Z → Z →
  list T → Z → T → list T → Z → outcome (list T).
Variable right_spmm :
  blas.Layout → blas.Op → blas.Op → Z → Z → Z → T → list T → Z → COOView →
  Z → Z → T → list T → Z → outcome (list T).

(** C4.  Let [S] have a negative [nnz], and let the operator that
    [fill_sparse] makes from [S.dist] and [S.seed_state] have a
    nonnegative one.  [lskges] multiplies once, by the filled operator.
    [rskges] multiplies by the filled operator and then, the buffer [B]
    holding that product, multiplies a second time by the view of [S]
    itself, which is not materialized. *)
Theorem skges_unmaterialized layout opS opA d n m alpha
    (S : SparseSkOp.t SparseDist RNGState Rest) ro_s co_s A lda beta B ldb :
  let filled :=
    fill_sparse (SparseSkOp_new (SparseSkOp.dist S) (SparseSkOp.seed_state S)) in
  SparseSkOp.nnz S < 0 →
  0 ≤ SparseSkOp.nnz filled →
  sparse.lskges SparseSkOp_new fill_sparse coo_view_of_skop left_spmm 2
    layout opS opA d n m alpha S ro_s co_s A lda beta B ldb
  = Some (left_spmm layout opS opA d n m alpha (coo_view_of_skop filled)
            ro_s co_s A lda beta B ldb)
  ∧ sparse.rskges SparseSkOp_new fill_sparse coo_view_of_skop right_spmm 2
      layout opA opS m d n alpha A lda S ro_s co_s beta B ldb
    = Some (B1 ← right_spmm layout opA opS m d n alpha A lda
                   (coo_view_of_skop filled) ro_s co_s beta B ldb;
            right_spmm layout opA opS m d n alpha A lda
              (coo_view_of_skop S) ro_s co_s beta B1 ldb).
Proof.
  intros filled Hneg Hfilled. cbn.
  destruct (Z.ltb_spec (SparseSkOp.nnz S) 0); [|lia].
  fold filled.
  destruct (Z.ltb_spec (SparseSkOp.nnz filled) 0); [lia|].
  split; [reflexivity|]. cbn.
  destruct (right_spmm _ _ _ _ _ _ _ _ _ (coo_view_of_skop filled) _ _ _ _ _);
    reflexivity.
Qed.

End sparse_facts.

(** ** Loops and arrays *)

Section loop_facts.
Context {S : Type}.

Lemma bind_Ok_inv {A B} (m : outcome A) (f : A → outcome B) (b : B) :
  m ≫= f = Ok b → ∃ a, m = Ok a ∧ f a = Ok b.
Proof. destruct m; cbn; intros H; try discriminate. eauto. Qed.

Lemma for_loop_inv (P : S → Prop) (body : Z → S → outcome S) count i s s' :
  P s →
  (∀ j t t', P t → body j t = Ok t' → P t') →
  for_loop count i body s = Ok s' → P s'.
Proof.
  intros Hs Hstep. revert i s Hs. induction count as [|c IH]; intros i s Hs; cbn.
  - intros [= <-]. exact Hs.
  - intros H. apply bind_Ok_inv in H as (t & Hb & H). eauto.
Qed.

(** A loop whose last pass cannot succeed does not succeed. *)
Lemma for_loop_last_fails (body : Z → S → outcome S) count i s :
  (0 < count)%nat →
  (∀ t t', body (i + Z.of_nat count - 1) t ≠ Ok t') →
  ∀ s', for_loop count i body s ≠ Ok s'.
Proof.
  revert i s. induction count as [|c IH]; intros i s Hpos Hlast s'; [lia|].
  cbn. intros H. apply bind_Ok_inv in H as (t & Hb & H).
  destruct c as [|c].
  - apply (Hlast s t). rewrite <- Hb. f_equal. lia.
  - revert H. apply IH; [lia|]. intros u u'.
    replace (i + 1 + Z.of_nat (Datatypes.S c) - 1)
      with (i + Z.of_nat (Datatypes.S (Datatypes.S c)) - 1) by lia.
    apply Hlast.
Qed.
End loop_facts.

Lemma wr_length {A} (a a' : list A) i x : wr a i x = Ok a' → length a' = length a.
Proof.
  unfold wr. destruct (_ && _); [|discriminate].
  intros [= <-]. apply length_insert.
Qed.

Lemma rd_out_of_range {A} (a : list A) i :
  Z.of_nat (length a) ≤ i → rd a i = Undefined.
Proof.
  intros Hi. unfold rd. destruct (Z.ltb_spec i 0); [reflexivity|].
  rewrite lookup_ge_None_2 by lia. reflexivity.
Qed.

Lemma set_filtered_colptr_length nnz colidxs col_start col_end
    (new_colptr new_colptr' : list Z) :
  coo.set_filtered_colptr nnz colidxs col_start col_end new_colptr = Ok new_colptr' →
  length new_colptr' = length new_colptr.
Proof.
  unfold coo.set_filtered_colptr. intros H.
  apply bind_Ok_inv in H as ([prev p] & Hloop & [= <-]).
  unfold for_range in Hloop.
  apply (for_loop_inv (λ st, length st.2 = length new_colptr)) in Hloop;
    [exact Hloop | reflexivity |].
  intros j [prev1 p1] [prev2 p2] Hinv Hbody. cbn in *.
  apply bind_Ok_inv in Hbody as (curr & _ & Hbody).
  destruct (curr <? col_start); [injection Hbody as <- <-; exact Hinv|].
  apply bind_Ok_inv in Hbody as (p3 & Hinner & [= <- <-]).
  unfold for_range in Hinner.
  apply (for_loop_inv (λ st, length st = length new_colptr)) in Hinner;
    [exact Hinner | exact Hinv |].
  intros k t t' Ht Hwr. apply wr_length in Hwr. congruence.
Qed.

Lemma prog_bind_eq {T A B} (m : prog T A) (f : A → prog T B) (h : heap T) :
  (m ≫= f) h
  = match m h with
    | Ok (a, h') => f a h'
    | Throw => Throw
    | Undefined => Undefined
    end.
Proof. reflexivity. Qed.

Ltac prog_step :=
  rewrite prog_bind_eq; unfold lift, load_T, load_i; cbn beta iota.

(** ** The sparse kernel *)

Section coo_left_facts.
Context {T : Type} (T0 : T) (Tadd Tmul : T → T → T).
Variable kernel :
  blas.Layout → blas.Layout → Z → Z → Z → COOMatrix → Z → Z →
  list T → Z → list T → Z → heap T → outcome (list T).

(** The column pointers of a window of [m >= 1] columns are read up to
    index [m]; an array of [m] of them is one too short. *)
Lemma set_filtered_csc_from_cscoo_short_colptr
    (vals : list T) rowidxs colidxs nnz col_start m row_start row_end
    (new_vals : list T) new_rowidxs new_colptr :
  0 < m → Z.of_nat (length new_colptr) = m →
  ∀ r, coo.set_filtered_csc_from_cscoo vals rowidxs colidxs nnz
         col_start (col_start + m) row_start row_end
         new_vals new_rowidxs new_colptr ≠ Ok r.
Proof.
  intros Hm Hlen r H. unfold coo.set_filtered_csc_from_cscoo in H.
  apply bind_Ok_inv in H as (colptr & Hcolptr & H).
  apply set_filtered_colptr_length in Hcolptr.
  apply bind_Ok_inv in H as (st & Hloop & _).
  revert Hloop. unfold for_range. apply for_loop_last_fails; [lia|].
  intros t t' Hbody.
  apply bind_Ok_inv in Hbody as (lo & _ & Hbody).
  apply bind_Ok_inv in Hbody as (hi & Hhi & _).
  rewrite rd_out_of_range in Hhi by lia. discriminate.
Qed.

(** C1.  When the operator is in CSC order and the window has at least
    one column, [apply_coo_left] returns no buffer at all: it allocates
    [m] column pointers and reads the pointer at index [m].  (The kernel
    has no [beta] parameter either: what it does to [B] is add to it.)
    So the buffer [B] on exit of a left sparse sketch is not
    [alpha * op(submat(S)) * op(A) + beta * B]. *)
Theorem apply_coo_left_csc_returns_nothing alpha layout_A layout_B d n m
    (S0 : COOMatrix) row_offset col_offset A lda B ldb (h : heap T) :
  sort S0 = NonzeroSort.CSC → 0 < m →
  ∀ r, coo.apply_coo_left T0 Tadd Tmul kernel alpha layout_A layout_B d n m
         S0 row_offset col_offset A lda B ldb h ≠ Ok r.
Proof.
  intros Hsort Hm r. unfold coo.apply_coo_left.
  prog_step.
  destruct (randblas_require _) as [[]| |]; [|discriminate..].
  destruct (decide (sort S0 ≠ NonzeroSort.CSC)) as [Hne|_]; [congruence|].
  unfold vector_new.
  destruct (Z.ltb_spec (nnz S0) 0); [prog_step; discriminate|].
  destruct (Z.ltb_spec m 0); [lia|].
  do 7 prog_step.
  destruct (coo.set_filtered_csc_from_cscoo _ _ _ _ _ _ _ _ _ _ _)
    as [res| |] eqn:Hcsc; [|discriminate..].
  exfalso. revert Hcsc.
  apply set_filtered_csc_from_cscoo_short_colptr; [exact Hm|].
  rewrite length_replicate. lia.
Qed.

End coo_left_facts.

(** ** Sorting the nonzeros *)

Section sort_facts.
Context {T : Type}.
Implicit Types (t : @tuple_type T) (s : NonzeroSort.t).

Lemma sort_func_before s t1 t2 : sort_func s t1 t2 = true ↔ before s t1 t2.
Proof.
  unfold sort_func, before. destruct s;
    repeat match goal with
           | |- context [?a >? ?b] => rewrite (Z.gtb_ltb a b)
           | |- context [?a <? ?b] => destruct (Z.ltb_spec a b)
           end; split; intros; try discriminate; try reflexivity; lia.
Qed.

Lemma not_after_before s t1 t2 :
  not_after (sort_func s) t1 t2 ↔ ¬ before s t2 t1.
Proof.
  unfold not_after. rewrite <- sort_func_before.
  destruct (sort_func s t2 t1); split; intros; congruence.
Qed.

#[local] Instance not_after_total s : Total (not_after (sort_func (T:=T) s)).
Proof.
  intros t1 t2. rewrite !not_after_before. unfold before. destruct s; lia.
Qed.

#[local] Instance not_after_trans s : Transitive (not_after (sort_func (T:=T) s)).
Proof.
  intros t1 t2 t3. rewrite !not_after_before. unfold before. destruct s; lia.
Qed.

#[local] Instance before_trans s : Transitive (before (T:=T) s).
Proof. intros t1 t2 t3. unfold before. destruct s; lia. Qed.

Lemma std_sort_perm s (l : list (@tuple_type T)) : std_sort (sort_func s) l ≡ₚ l.
Proof. apply merge_sort_Permutation. Qed.

Lemma std_sort_sorted s (l : list (@tuple_type T)) :
  StronglySorted (not_after (sort_func s)) (std_sort (sort_func s) l).
Proof. apply StronglySorted_merge_sort; apply _. Qed.

(** In a list that is strictly increasing, two elements are equal or one
    is before the other. *)
Lemma strictly_sorted_trichotomy s (l : list (@tuple_type T)) t1 t2 :
  Sorted (before s) l → t1 ∈ l → t2 ∈ l →
  t1 = t2 ∨ before s t1 t2 ∨ before s t2 t1.
Proof.
  intros Hl. apply Sorted_StronglySorted in Hl; [|apply _].
  induction Hl as [|x l Hl IH Hx]; intros H1 H2; [by apply elem_of_nil in H1|].
  rewrite Forall_forall in Hx.
  apply elem_of_cons in H1 as [->|H1]; apply elem_of_cons in H2 as [->|H2]; auto.
Qed.

Lemma StronglySorted_weaken {A} (R R' : relation A) (l : list A) :
  (∀ x y, R x y → R' x y) → StronglySorted R l → StronglySorted R' l.
Proof.
  intros HR. induction 1 as [|x l Hl IH Hx]; constructor; [exact IH|].
  eapply Forall_impl; [exact Hx | auto].
Qed.

(** Sorting a strictly increasing list, however its elements were
    shuffled in the meantime, gives the list back. *)
Lemma std_sort_restores s (l l' : list (@tuple_type T)) :
  Sorted (before s) l → l' ≡ₚ l → std_sort (sort_func s) l' = l.
Proof.
  intros Hl Hperm.
  apply (StronglySorted_unique_strong (not_after (sort_func s))).
  - intros t1 t2 H1 H2 H12 H21.
    rewrite not_after_before in H12, H21.
    assert (t1 ∈ l) as H1' by (by rewrite <- Hperm, <- (std_sort_perm s l')).
    destruct (strictly_sorted_trichotomy s l t1 t2 Hl H1' H2) as [?|[?|?]];
      [assumption | contradiction..].
  - apply std_sort_sorted.
  - apply Sorted_StronglySorted in Hl; [|apply _].
    eapply StronglySorted_weaken; [|exact Hl]. clear.
    intros t1 t2 H. apply not_after_before. revert H.
    unfold before. destruct s; lia.
  - by rewrite std_sort_perm.
Qed.

End sort_facts.

Section sort_arrays_facts.
Context {T : Type}.

Lemma for_loop_inv_idx {S} (P : Z → S → Prop) (body : Z → S → outcome S)
    count i s s' :
  P i s →
  (∀ j t t', i ≤ j < i + Z.of_nat count → P j t → body j t = Ok t' → P (j + 1) t') →
  for_loop count i body s = Ok s' → P (i + Z.of_nat count) s'.
Proof.
  revert i s. induction count as [|c IH]; intros i s Hs Hstep; cbn [for_loop].
  - intros [= <-]. by rewrite Z.add_0_r.
  - intros H. apply bind_Ok_inv in H as (t & Hb & H).
    replace (i + Z.of_nat (Datatypes.S c)) with ((i + 1) + Z.of_nat c) by lia.
    apply (IH (i + 1) t); [apply (Hstep i s); [lia|done..] | | done].
    intros j u u' Hj. apply Hstep. lia.
Qed.

Lemma rd_Ok_inv {A} (a : list A) i x :
  rd a i = Ok x → 0 ≤ i ∧ a !! Z.to_nat i = Some x.
Proof.
  unfold rd. destruct (Z.ltb_spec i 0); [discriminate|].
  destruct (a !! Z.to_nat i) eqn:E; [|discriminate]. intros [= <-]. auto.
Qed.

Lemma wr_Ok_inv {A} (a a' : list A) i x :
  wr a i x = Ok a' →
  0 ≤ i ∧ (Z.to_nat i < length a)%nat ∧ a' = <[Z.to_nat i := x]> a.
Proof.
  unfold wr. destruct (Z.leb_spec 0 i), (Z.ltb_spec i (Z.of_nat (length a)));
    cbn; try discriminate.
  intros [= <-]. repeat split; [done | lia].
Qed.

Lemma nonzeros_of_length nnz (vals : list T) rows cols :
  (Z.to_nat nnz ≤ length vals)%nat → (Z.to_nat nnz ≤ length rows)%nat →
  (Z.to_nat nnz ≤ length cols)%nat →
  length (nonzeros_of nnz vals rows cols) = Z.to_nat nnz.
Proof.
  intros. unfold nonzeros_of, tuple_type. rewrite !length_zip, !length_take. lia.
Qed.

Lemma nonzeros_of_succ j (vals : list T) rows cols r c v :
  0 ≤ j →
  rows !! Z.to_nat j = Some r → cols !! Z.to_nat j = Some c →
  vals !! Z.to_nat j = Some v →
  nonzeros_of (j + 1) vals rows cols = nonzeros_of j vals rows cols ++ [(r, c, v)].
Proof.
  intros Hj Hr Hc Hv. unfold nonzeros_of.
  replace (Z.to_nat (j + 1)) with (Datatypes.S (Z.to_nat j)) by lia.
  rewrite (take_S_r _ _ _ Hr), (take_S_r _ _ _ Hc), (take_S_r _ _ _ Hv).
  apply lookup_lt_Some in Hr, Hc, Hv.
  rewrite zip_with_app by (rewrite !length_take; lia).
  rewrite zip_with_app; [reflexivity|].
  rewrite length_zip, !length_take. lia.
Qed.

(** The first loop of [sort_coo_data] collects the nonzeros. *)
Lemma collect_nonzeros nnz (vals : list T) rows cols acc :
  0 ≤ nnz →
  for_range 0 nnz
    (λ ell (acc : list tuple_type),
       r ← rd rows ell; c ← rd cols ell; v ← rd vals ell;
       mret (acc ++ [(r, c, v)])) [] = Ok acc →
  acc = nonzeros_of nnz vals rows cols
  ∧ (Z.to_nat nnz ≤ length vals)%nat
  ∧ (Z.to_nat nnz ≤ length rows)%nat
  ∧ (Z.to_nat nnz ≤ length cols)%nat.
Proof.
  intros Hnnz Hloop. unfold for_range in Hloop.
  apply (for_loop_inv_idx
           (λ j acc, acc = nonzeros_of j vals rows cols
                     ∧ (Z.to_nat j ≤ length vals)%nat
                     ∧ (Z.to_nat j ≤ length rows)%nat
                     ∧ (Z.to_nat j ≤ length cols)%nat)) in Hloop.
  - by replace (0 + Z.of_nat (Z.to_nat (nnz - 0))) with nnz in Hloop by lia.
  - cbn. repeat split; lia.
  - intros j t t' Hj (-> & _) Hbody.
    apply bind_Ok_inv in Hbody as (r & Hr & Hbody).
    apply bind_Ok_inv in Hbody as (c & Hc & Hbody).
    apply bind_Ok_inv in Hbody as (v & Hv & [= <-]).
    apply rd_Ok_inv in Hr as [_ Hr], Hc as [_ Hc], Hv as [_ Hv].
    split; [symmetry; apply nonzeros_of_succ; [lia|done..]|].
    apply lookup_lt_Some in Hr, Hc, Hv. lia.
Qed.

Lemma insert_next_cell {A} (new old : list A) (j : nat) x :
  new !! j = Some x → (j < length old)%nat →
  <[j := x]> (take j new ++ drop j old)
  = take (Datatypes.S j) new ++ drop (Datatypes.S j) old.
Proof.
  intros Hnew Hold.
  pose proof (lookup_lt_Some _ _ _ Hnew) as Hlt.
  rewrite insert_app_r_alt by (rewrite length_take; lia).
  rewrite length_take, Nat.min_l, Nat.sub_diag by lia.
  destruct (lookup_lt_is_Some_2 old j Hold) as [y Hy].
  rewrite (drop_S _ _ _ Hy). cbn.
  rewrite (take_S_r _ _ _ Hnew), <- app_assoc. reflexivity.
Qed.

(** The second loop of [sort_coo_data] writes the sorted nonzeros back
    over the first entries of the three arrays. *)
Lemma write_back (sorted : list (@tuple_type T)) vals rows cols vals' rows' cols' :
  for_range 0 (Z.of_nat (length sorted))
    (λ ell '(vals, rows, cols),
       tup ← rd sorted ell;
       vals ← wr vals ell (tup : tuple_type).2;
       rows ← wr rows ell tup.1.1;
       cols ← wr cols ell tup.1.2;
       mret (vals, rows, cols))
    (vals, rows, cols) = Ok (vals', rows', cols') →
  vals' = sorted.*2 ++ drop (length sorted) vals
  ∧ rows' = sorted.*1.*1 ++ drop (length sorted) rows
  ∧ cols' = sorted.*1.*2 ++ drop (length sorted) cols.
Proof.
  intros Hloop. unfold for_range in Hloop.
  apply (for_loop_inv_idx
           (λ j '(v1, r1, c1),
              v1 = take (Z.to_nat j) (sorted.*2) ++ drop (Z.to_nat j) vals
              ∧ r1 = take (Z.to_nat j) (sorted.*1.*1) ++ drop (Z.to_nat j) rows
              ∧ c1 = take (Z.to_nat j) (sorted.*1.*2) ++ drop (Z.to_nat j) cols))
    in Hloop.
  - replace (Z.to_nat (0 + Z.of_nat (Z.to_nat (Z.of_nat (length sorted) - 0))))
      with (length sorted) in Hloop by lia.
    unfold tuple_type in *.
    rewrite !take_ge in Hloop by (rewrite !length_fmap; lia). exact Hloop.
  - cbn. rewrite !take_0, !drop_0. done.
  - intros j [[v1 r1] c1] [[v2 r2] c2] Hj (-> & -> & ->) Hbody.
    apply bind_Ok_inv in Hbody as (tup & Htup & Hbody).
    apply bind_Ok_inv in Hbody as (v3 & Hv & Hbody).
    apply bind_Ok_inv in Hbody as (r3 & Hr & Hbody).
    apply bind_Ok_inv in Hbody as (c3 & Hc & [= <- <- <-]).
    apply rd_Ok_inv in Htup as [_ Htup].
    apply wr_Ok_inv in Hv as (_ & Hvl & ->), Hr as (_ & Hrl & ->),
      Hc as (_ & Hcl & ->).
    pose proof (lookup_lt_Some _ _ _ Htup) as Hlt.
    rewrite length_app, length_take, length_drop, length_fmap in Hvl.
    rewrite length_app, length_take, length_drop, !length_fmap in Hrl, Hcl.
    replace (Z.to_nat (j + 1)) with (Datatypes.S (Z.to_nat j)) by lia.
    rewrite !insert_next_cell; [done|..]; try lia;
      rewrite ?list_lookup_fmap, Htup; reflexivity.
Qed.

(** What a successful [sort_coo_data] leaves in the three arrays. *)
Lemma sort_coo_data_Ok s nnz (vals : list T) rows cols vals' rows' cols' :
  s ≠ NonzeroSort.None →
  sort_coo_data s nnz vals rows cols = Ok (vals', rows', cols') →
  let sorted := std_sort (sort_func s) (nonzeros_of nnz vals rows cols) in
  0 ≤ nnz
  ∧ (Z.to_nat nnz ≤ length vals)%nat
  ∧ (Z.to_nat nnz ≤ length rows)%nat
  ∧ (Z.to_nat nnz ≤ length cols)%nat
  ∧ vals' = sorted.*2 ++ drop (Z.to_nat nnz) vals
  ∧ rows' = sorted.*1.*1 ++ drop (Z.to_nat nnz) rows
  ∧ cols' = sorted.*1.*2 ++ drop (Z.to_nat nnz) cols.
Proof.
  intros Hs H sorted. unfold sort_coo_data in H.
  destruct s; [| |congruence];
    (apply bind_Ok_inv in H as ([] & Hreq & H);
     assert (0 ≤ nnz) as Hnnz
       by (unfold randblas_require in Hreq;
           destruct (Z.leb_spec 0 nnz); [done|discriminate]);
     apply bind_Ok_inv in H as (nonzeros & Hcollect & Hwrite);
     apply collect_nonzeros in Hcollect as (-> & Hv & Hr & Hc); [|done];
     fold sorted in Hwrite;
     assert (length sorted = Z.to_nat nnz) as Hlen
       by (unfold sorted; rewrite std_sort_perm; by apply nonzeros_of_length);
     replace nnz with (Z.of_nat (length sorted)) in Hwrite by lia;
     apply write_back in Hwrite; rewrite Hlen in Hwrite; tauto).
Qed.

End sort_arrays_facts.

(** ** Sorting a matrix object in the heap *)

Section sort_matrix_facts.
Context {T : Type}.
Implicit Types (h : heap T) (M : COOMatrix).

Lemma store_T_same h a : store_T a (view_T h a) h = Ok ((), h).
Proof.
  unfold store_T, view_T. destruct (cells_T h !! a) as [old|] eqn:E; [|done].
  cbn. rewrite insert_id by done. by destruct h.
Qed.

Lemma store_i_same h a : store_i a (view_i h a) h = Ok ((), h).
Proof.
  unfold store_i, view_i. destruct (cells_i h !! a) as [old|] eqn:E; [|done].
  cbn. rewrite insert_id by done. by destruct h.
Qed.

Lemma store_T_view h a l :
  length l = length (view_T h a) →
  ∃ h1, store_T a l h = Ok ((), h1)
        ∧ view_T h1 a = l
        ∧ (∀ a', a' ≠ a → view_T h1 a' = view_T h a')
        ∧ (∀ a', view_i h1 a' = view_i h a').
Proof.
  intros Hlen. unfold store_T, view_T, view_i in *.
  destruct (cells_T h !! a) as [old|] eqn:E; eexists; (split; [reflexivity|]); cbn.
  - rewrite lookup_insert_eq. split; [done|]. split; [|done].
    intros a' Ha. by rewrite lookup_insert_ne.
  - rewrite E. cbn in *. destruct l; [done | discriminate].
Qed.

Lemma store_i_view h a l :
  length l = length (view_i h a) →
  ∃ h1, store_i a l h = Ok ((), h1)
        ∧ view_i h1 a = l
        ∧ (∀ a', a' ≠ a → view_i h1 a' = view_i h a')
        ∧ (∀ a', view_T h1 a' = view_T h a').
Proof.
  intros Hlen. unfold store_i, view_T, view_i in *.
  destruct (cells_i h !! a) as [old|] eqn:E; eexists; (split; [reflexivity|]); cbn.
  - rewrite lookup_insert_eq. split; [done|]. split; [|done].
    intros a' Ha. by rewrite lookup_insert_ne.
  - rewrite E. cbn in *. destruct l; [done | discriminate].
Qed.

Lemma sort_coo_data_lengths s nnz (vals vals' : list T) rows cols rows' cols' :
  sort_coo_data s nnz vals rows cols = Ok (vals', rows', cols') →
  length vals' = length vals ∧ length rows' = length rows
  ∧ length cols' = length cols.
Proof.
  intros H. destruct (decide (s = NonzeroSort.None)) as [->|Hs].
  - cbn in H. by injection H as <- <- <-.
  - apply sort_coo_data_Ok in H as (Hn & Hv & Hr & Hc & -> & -> & ->); [|done].
    assert (length (std_sort (sort_func s) (nonzeros_of nnz vals rows cols))
            = Z.to_nat nnz) as Hlen
      by (rewrite std_sort_perm; by apply nonzeros_of_length).
    unfold tuple_type in *.
    rewrite !length_app, !length_fmap, !length_drop. lia.
Qed.

(** Sorting to [None] leaves the heap as it is. *)
Lemma sort_coo_data_matrix_None M h :
  sort_coo_data_matrix NonzeroSort.None M h = Ok (set_sort NonzeroSort.None M, h).
Proof.
  unfold sort_coo_data_matrix. do 4 prog_step. cbn.
  rewrite prog_bind_eq, store_T_same.
  rewrite prog_bind_eq, store_i_same.
  rewrite prog_bind_eq, store_i_same. reflexivity.
Qed.

(** Sorting to CSR or CSC: the outcome on the three arrays of the
    matrix, which are the only cells of the heap that change. *)
Lemma sort_coo_data_matrix_Ok s M h M' h' :
  sort_coo_data_matrix s M h = Ok (M', h') →
  M' = set_sort s M
  ∧ ∃ vals' rows' cols',
      sort_coo_data s (nnz M) (view_T h (vals M)) (view_i h (rows M))
                    (view_i h (cols M)) = Ok (vals', rows', cols')
      ∧ view_T h' (vals M) = vals'
      ∧ view_i h' (cols M) = cols'
      ∧ (rows M ≠ cols M → view_i h' (rows M) = rows')
      ∧ (∀ a, a ≠ vals M → view_T h' a = view_T h a)
      ∧ (∀ a, a ≠ rows M → a ≠ cols M → view_i h' a = view_i h a).
Proof.
  unfold sort_coo_data_matrix. do 4 prog_step.
  destruct (sort_coo_data _ _ _ _ _) as [[[v' r'] c']| |] eqn:Hsort;
    [|discriminate..].
  apply sort_coo_data_lengths in Hsort as Hlen. destruct Hlen as (Hlv & Hlr & Hlc).
  destruct (store_T_view h (vals M) v' Hlv) as (h1 & E1 & Hv1 & Hf1 & Hi1).
  rewrite prog_bind_eq, E1.
  assert (length r' = length (view_i h1 (rows M))) as Hlr1 by (by rewrite Hi1).
  destruct (store_i_view h1 (rows M) r' Hlr1) as (h2 & E2 & Hv2 & Hf2 & Hi2).
  rewrite prog_bind_eq, E2.
  assert (length c' = length (view_i h2 (cols M))) as Hlc2.
  { destruct (decide (cols M = rows M)) as [e|Hne].
    - rewrite e, Hv2, Hlr, Hlc, e. reflexivity.
    - rewrite Hf2, Hi1 by done. done. }
  destruct (store_i_view h2 (cols M) c' Hlc2) as (h3 & E3 & Hv3 & Hf3 & Hi3).
  rewrite prog_bind_eq, E3. intros [= <- <-].
  split; [reflexivity|]. exists v', r', c'.
  split; [reflexivity|]. split; [by rewrite Hi3, Hi2|].
  split; [done|]. split; [intros Hne; by rewrite Hf3, Hv2|].
  split.
  - intros a Ha. by rewrite Hi3, Hi2, Hf1.
  - intros a Har Hac. by rewrite Hf3, Hf2, Hi1.
Qed.

End sort_matrix_facts.

(** ** What [apply_coo_left] leaves of the matrix object *)

Section restore_facts.
Context {T : Type} (T0 : T) (Tadd Tmul : T → T → T).
Variable kernel :
  blas.Layout → blas.Layout → Z → Z → Z → COOMatrix → Z → Z →
  list T → Z → list T → Z → heap T → outcome (list T).

Lemma prog_bind_Ok_inv {A B} (m : prog T A) (f : A → prog T B) (h : heap T) r :
  (m ≫= f) h = Ok r → ∃ a h1, m h = Ok (a, h1) ∧ f a h1 = Ok r.
Proof.
  rewrite prog_bind_eq. destruct (m h) as [[a h1]| |]; [eauto | discriminate..].
Qed.

Lemma lift_Ok_inv {A} (o : outcome A) (h h1 : heap T) a :
  lift o h = Ok (a, h1) → o = Ok a ∧ h1 = h.
Proof. unfold lift. destruct o; [|discriminate..]. by intros [= <- <-]. Qed.

(** In CSC order the kernel only reads the matrix. *)
Lemma apply_coo_left_csc_frame alpha layout_A layout_B d n m
    (S0 : COOMatrix) row_offset col_offset A lda B ldb (h : heap T) S0' B' h' :
  sort S0 = NonzeroSort.CSC →
  coo.apply_coo_left T0 Tadd Tmul kernel alpha layout_A layout_B d n m
    S0 row_offset col_offset A lda B ldb h = Ok (S0', B', h') →
  S0' = S0 ∧ h' = h.
Proof.
  intros Hsort H. unfold coo.apply_coo_left in H.
  apply prog_bind_Ok_inv in H as ([] & h1 & Hreq & H).
  apply lift_Ok_inv in Hreq as [_ ->].
  destruct (decide (sort S0 ≠ NonzeroSort.CSC)) as [Hne|_]; [congruence|].
  apply prog_bind_Ok_inv in H as (S_rows & h1 & E & H).
  apply lift_Ok_inv in E as [_ ->].
  apply prog_bind_Ok_inv in H as (S_colptr & h1 & E & H).
  apply lift_Ok_inv in E as [_ ->].
  apply prog_bind_Ok_inv in H as (S_vals & h1 & E & H).
  apply lift_Ok_inv in E as [_ ->].
  apply prog_bind_Ok_inv in H as (S0_vals & h1 & [= _ <-] & H).
  apply prog_bind_Ok_inv in H as (S0_rows & h1 & [= _ <-] & H).
  apply prog_bind_Ok_inv in H as (S0_cols & h1 & [= _ <-] & H).
  apply prog_bind_Ok_inv in H as ([[[S_nnz S_vals1] S_rows1] S_colptr1] & h1 & E & H).
  apply lift_Ok_inv in E as [_ ->].
  apply prog_bind_Ok_inv in H as (S_vals2 & h1 & E & H).
  apply lift_Ok_inv in E as [_ ->].
  destruct (decide (layout_A = blas.ColMajor)), (decide (layout_B = blas.ColMajor));
    apply prog_bind_Ok_inv in H as (B1 & h1 & E & H);
    apply lift_Ok_inv in E as [_ ->];
    by injection H as <- <- <-.
Qed.

(** In CSC order the kernel returns only for a window without columns:
    for [m >= 1] it reads the column pointer at index [m] of an array of
    [m], and it refuses [m < 0]. *)
Lemma apply_coo_left_csc_empty_window alpha layout_A layout_B d n m
    (S0 : COOMatrix) row_offset col_offset A lda B ldb (h : heap T) S0' B' h' :
  sort S0 = NonzeroSort.CSC →
  coo.apply_coo_left T0 Tadd Tmul kernel alpha layout_A layout_B d n m
    S0 row_offset col_offset A lda B ldb h = Ok (S0', B', h') →
  m = 0.
Proof.
  intros Hsort H. unfold coo.apply_coo_left in H.
  apply prog_bind_Ok_inv in H as ([] & h1 & Hreq & H).
  apply lift_Ok_inv in Hreq as [_ ->].
  destruct (decide (sort S0 ≠ NonzeroSort.CSC)) as [Hne|_]; [congruence|].
  apply prog_bind_Ok_inv in H as (S_rows & h1 & E & H).
  apply lift_Ok_inv in E as [_ ->].
  apply prog_bind_Ok_inv in H as (S_colptr & h1 & E & H).
  apply lift_Ok_inv in E as [Ecolptr ->].
  unfold vector_new in Ecolptr.
  destruct (Z.ltb_spec m 0) as [|Hm]; [discriminate|]. injection Ecolptr as <-.
  apply prog_bind_Ok_inv in H as (S_vals & h1 & E & H).
  apply lift_Ok_inv in E as [_ ->].
  apply prog_bind_Ok_inv in H as (S0_vals & h1 & [= _ <-] & H).
  apply prog_bind_Ok_inv in H as (S0_rows & h1 & [= _ <-] & H).
  apply prog_bind_Ok_inv in H as (S0_cols & h1 & [= _ <-] & H).
  apply prog_bind_Ok_inv in H as (res & h1 & E & _).
  apply lift_Ok_inv in E as [Ecsc _].
  destruct (decide (0 < m)) as [Hpos|]; [exfalso|lia].
  revert Ecsc. apply set_filtered_csc_from_cscoo_short_colptr; [exact Hpos|].
  rewrite length_replicate. lia.
Qed.

Lemma set_sort_set_sort s (S0 : COOMatrix) :
  set_sort (sort S0) (set_sort s S0) = S0.
Proof. by destruct S0. Qed.

(** Out of CSC order: the matrix is sorted to CSC, the routine that
    multiplies runs, and the matrix is sorted to the order it had. *)
Lemma apply_coo_left_unsorted alpha layout_A layout_B d n m
    (S0 : COOMatrix) row_offset col_offset A lda B ldb (h : heap T) S0' B' h' :
  sort S0 ≠ NonzeroSort.CSC →
  coo.apply_coo_left T0 Tadd Tmul kernel alpha layout_A layout_B d n m
    S0 row_offset col_offset A lda B ldb h = Ok (S0', B', h') →
  S0' = S0
  ∧ ∃ h1,
      sort_coo_data_matrix NonzeroSort.CSC S0 h
        = Ok (set_sort NonzeroSort.CSC S0, h1)
      ∧ kernel layout_A layout_B d n m (set_sort NonzeroSort.CSC S0)
          row_offset col_offset A lda B ldb h1 = Ok B'
      ∧ sort_coo_data_matrix (sort S0) (set_sort NonzeroSort.CSC S0) h1
        = Ok (S0, h').
Proof.
  intros Hsort H. unfold coo.apply_coo_left in H.
  apply prog_bind_Ok_inv in H as ([] & h0 & Hreq & H).
  apply lift_Ok_inv in Hreq as [_ ->].
  destruct (decide (sort S0 ≠ NonzeroSort.CSC)) as [_|Hne]; [|contradiction].
  apply prog_bind_Ok_inv in H as (S1 & h1 & E1 & H).
  pose proof (sort_coo_data_matrix_Ok _ _ _ _ _ E1) as [-> _].
  apply prog_bind_Ok_inv in H as (B1 & h2 & Ek & H).
  destruct (kernel _ _ _ _ _ _ _ _ _ _ _ _ h1) as [b| |] eqn:Ekernel;
    [|discriminate..].
  cbn in Ek. injection Ek as -> <-.
  apply prog_bind_Ok_inv in H as (S2 & h3 & E2 & H).
  injection H as <- <- <-.
  pose proof E2 as E2'.
  destruct (decide (sort S0 = NonzeroSort.None)) as [HN|HN].
  - rewrite HN, sort_coo_data_matrix_None in E2'. injection E2' as <- <-.
    rewrite <- HN at 1. rewrite set_sort_set_sort.
    split; [done|]. exists h1. split; [done|]. split; [done|].
    rewrite E2. f_equal. f_equal. rewrite <- HN at 1. apply set_sort_set_sort.
  - apply sort_coo_data_matrix_Ok in E2' as [-> _].
    cbn [sort set_sort] in *. rewrite set_sort_set_sort in *.
    split; [done|]. exists h1. done.
Qed.

End restore_facts.

Section restore_theorem.
Context {T : Type} (T0 : T) (Tadd Tmul : T → T → T).
Variable kernel :
  blas.Layout → blas.Layout → Z → Z → Z → COOMatrix → Z → Z →
  list T → Z → list T → Z → heap T → outcome (list T).

(** The nonzeros seen in arrays whose first entries hold a list of
    triples are those triples. *)
Lemma nonzeros_of_written nnz (t : list (@tuple_type T)) dv dr dc :
  length t = Z.to_nat nnz →
  nonzeros_of nnz (t.*2 ++ dv) (t.*1.*1 ++ dr) (t.*1.*2 ++ dc) = t.
Proof.
  intros Hlen. unfold nonzeros_of, tuple_type in *.
  rewrite !take_app_length' by (rewrite !length_fmap; lia).
  by rewrite !zip_fst_snd.
Qed.

Lemma nonzeros_of_arrays nnz (vals : list T) rows cols :
  (Z.to_nat nnz ≤ length vals)%nat → (Z.to_nat nnz ≤ length rows)%nat →
  (Z.to_nat nnz ≤ length cols)%nat →
  (nonzeros_of nnz vals rows cols).*2 = take (Z.to_nat nnz) vals
  ∧ (nonzeros_of nnz vals rows cols).*1.*1 = take (Z.to_nat nnz) rows
  ∧ (nonzeros_of nnz vals rows cols).*1.*2 = take (Z.to_nat nnz) cols.
Proof.
  intros Hv Hr Hc. unfold nonzeros_of, tuple_type.
  rewrite snd_zip by (rewrite length_zip, !length_take; lia).
  rewrite !fst_zip by (rewrite ?length_zip, !length_take; lia).
  rewrite snd_zip by (rewrite !length_take; lia). done.
Qed.

(** C9, as the code has it.  On return from [apply_coo_left] the matrix
    object is the one that entered, its [sort] field included, and no
    array of the heap other than the three of the matrix has changed.
    When the entry order is CSC, the call returns only for a window
    without columns ([m = 0]), and the heap is then as on entry.  When
    the entry order is CSR and the nonzeros on entry are in strictly
    increasing CSR order, the three arrays are as on entry.  When the
    entry order is None, the nonzeros on return are a rearrangement of
    the nonzeros on entry in which none is before an earlier one in CSC
    order, and the cells of the arrays from [nnz] on are as on entry.
    ([rows] and [cols] are taken to be two arrays.) *)
Theorem apply_coo_left_restores_sort_field alpha layout_A layout_B d n m
    (S0 : COOMatrix) row_offset col_offset A lda B ldb (h : heap T) S0' B' h' :
  coo.apply_coo_left T0 Tadd Tmul kernel alpha layout_A layout_B d n m
    S0 row_offset col_offset A lda B ldb h = Ok (S0', B', h') →
  S0' = S0
  ∧ (∀ a, a ≠ vals S0 → view_T h' a = view_T h a)
  ∧ (∀ a, a ≠ rows S0 → a ≠ cols S0 → view_i h' a = view_i h a)
  ∧ (sort S0 = NonzeroSort.CSC → m = 0 ∧ h' = h)
  ∧ (rows S0 ≠ cols S0 →
     (sort S0 = NonzeroSort.None →
      coo_nonzeros S0 h' ≡ₚ coo_nonzeros S0 h
      ∧ StronglySorted (λ t1 t2, ¬ before NonzeroSort.CSC t2 t1)
                       (coo_nonzeros S0 h')
      ∧ drop (Z.to_nat (nnz S0)) (view_T h' (vals S0))
        = drop (Z.to_nat (nnz S0)) (view_T h (vals S0))
      ∧ drop (Z.to_nat (nnz S0)) (view_i h' (rows S0))
        = drop (Z.to_nat (nnz S0)) (view_i h (rows S0))
      ∧ drop (Z.to_nat (nnz S0)) (view_i h' (cols S0))
        = drop (Z.to_nat (nnz S0)) (view_i h (cols S0)))
     ∧ (sort S0 = NonzeroSort.CSR →
        Sorted (before NonzeroSort.CSR) (coo_nonzeros S0 h) →
        view_T h' (vals S0) = view_T h (vals S0)
        ∧ view_i h' (rows S0) = view_i h (rows S0)
        ∧ view_i h' (cols S0) = view_i h (cols S0))).
Proof.
  intros H.
  destruct (decide (sort S0 = NonzeroSort.CSC)) as [Hcsc|Hcsc].
  { pose proof (apply_coo_left_csc_empty_window T0 Tadd Tmul kernel
                  _ _ _ _ _ _ _ _ _ _ _ _ _ _ _ _ _ Hcsc H) as Hm.
    apply apply_coo_left_csc_frame in H as [-> ->]; [|done].
    split; [done|]. split; [done|]. split; [done|]. split; [done|].
    intros _. split; [intros ?; congruence | intros ? ?; congruence]. }
  apply apply_coo_left_unsorted in H as (-> & h1 & E1 & _ & E2); [|done].
  apply sort_coo_data_matrix_Ok in E1
    as (_ & v1 & r1 & c1 & Hs1 & Hv1 & Hc1 & Hr1 & Hf1 & Hg1).
  apply sort_coo_data_Ok in Hs1 as (Hn & Hlv & Hlr & Hlc & Ev1 & Er1 & Ec1);
    [|done].
  set (t0 := coo_nonzeros S0 h) in *.
  set (t1 := std_sort (sort_func NonzeroSort.CSC) t0) in *.
  fold t0 in Ev1, Er1, Ec1. fold t1 in Ev1, Er1, Ec1.
  assert (length t1 = Z.to_nat (nnz S0)) as Hlen1.
  { unfold t1. rewrite std_sort_perm. by apply nonzeros_of_length. }
  destruct (decide (sort S0 = NonzeroSort.None)) as [HN|HN].
  - rewrite HN, sort_coo_data_matrix_None in E2. injection E2 as _ <-.
    split; [done|]. split; [done|]. split; [done|]. split; [done|].
    intros Hne. split; [|congruence]. intros _.
    unfold coo_nonzeros. rewrite Hv1, Hc1, Hr1 by done.
    rewrite Ev1, Er1, Ec1. rewrite nonzeros_of_written by done.
    split; [apply std_sort_perm|]. split.
    + eapply StronglySorted_weaken; [|apply std_sort_sorted].
      intros t2 t3. by rewrite not_after_before.
    + unfold t1, t0, coo_nonzeros in Hlen1. unfold tuple_type in *.
      rewrite !drop_app_length' by (rewrite !length_fmap; lia). done.
  - assert (sort S0 = NonzeroSort.CSR) as HR by (by destruct (sort S0)).
    apply sort_coo_data_matrix_Ok in E2
      as (_ & v2 & r2 & c2 & Hs2 & Hv2 & Hc2 & Hr2 & Hf2 & Hg2).
    cbn [vals rows cols nnz set_sort] in *.
    split; [done|].
    split; [intros a Ha; by rewrite Hf2, Hf1|].
    split; [intros a Ha Ha'; by rewrite Hg2, Hg1|].
    split; [done|].
    intros Hne. split; [congruence|]. intros _ Hsorted.
    rewrite Hv1, Hc1, Hr1 in Hs2 by done.
    rewrite HR in Hs2.
    apply sort_coo_data_Ok in Hs2 as (_ & _ & _ & _ & Ev2 & Er2 & Ec2); [|done].
    rewrite Ev1, Er1, Ec1 in Ev2, Er2, Ec2.
    rewrite nonzeros_of_written in Ev2, Er2, Ec2 by done.
    pose proof (std_sort_restores NonzeroSort.CSR t0 t1 Hsorted
                  (std_sort_perm _ _)) as Hrestore.
    unfold t1, t0, coo_nonzeros in Hrestore, Hlen1.
    rewrite Hrestore in Ev2, Er2, Ec2.
    destruct (nonzeros_of_arrays (nnz S0) (view_T h (vals S0))
                (view_i h (rows S0)) (view_i h (cols S0)) Hlv Hlr Hlc)
      as (Pv & Pr & Pc).
    unfold tuple_type in *.
    rewrite drop_app_length' in Ev2 by (rewrite !length_fmap; lia).
    rewrite drop_app_length' in Er2 by (rewrite !length_fmap; lia).
    rewrite drop_app_length' in Ec2 by (rewrite !length_fmap; lia).
    rewrite Pv in Ev2. rewrite Pr in Er2. rewrite Pc in Ec2.
    rewrite take_drop in Ev2. rewrite take_drop in Er2. rewrite take_drop in Ec2.
    rewrite Hv2, Hc2, Hr2 by done. done.
Qed.

End restore_theorem.

(** ** From CSR back to COO *)

Section csr_to_coo_facts.
Context {T : Type}.

(** The loops of [csr_to_coo] write cell 0 of the three arrays and no
    other cell. *)
Lemma csr_to_coo_loops_keep_cells (csr_rowptr : list Z) (csr_vals : list T)
    n_rows (v0 v : list T) (r0 c0 r c : list Z) :
  for_range 0 n_rows
    (λ i st,
       lo ← rd csr_rowptr i;
       hi ← rd csr_rowptr (i + 1);
       for_range lo hi
         (λ j '(coo_vals, coo_rows, coo_cols),
            x ← rd csr_vals 0;
            coo_vals ← wr coo_vals 0 x;
            coo_rows ← wr coo_rows 0 i;
            coo_cols ← wr coo_cols 0 j;
            mret (coo_vals, coo_rows, coo_cols))
         st)
    (v0, r0, c0) = Ok (v, r, c) →
  (length v = length v0 ∧ length r = length r0 ∧ length c = length c0)
  ∧ ∀ i : nat, (0 < i)%nat →
      v !! i = v0 !! i ∧ r !! i = r0 !! i ∧ c !! i = c0 !! i.
Proof.
  intros H. unfold for_range in H.
  set (P := λ st : list T * list Z * list Z,
         (length st.1.1 = length v0 ∧ length st.1.2 = length r0
          ∧ length st.2 = length c0)
         ∧ ∀ i : nat, (0 < i)%nat →
             st.1.1 !! i = v0 !! i ∧ st.1.2 !! i = r0 !! i ∧ st.2 !! i = c0 !! i).
  apply (for_loop_inv P) in H; [exact H | by split |].
  intros i st st' Hst Hbody.
  apply bind_Ok_inv in Hbody as (lo & _ & Hbody).
  apply bind_Ok_inv in Hbody as (hi & _ & Hbody).
  apply (for_loop_inv P) in Hbody; [exact Hbody | exact Hst |].
  clear. intros j [[v1 r1] c1] [[v2 r2] c2] HP Hbody.
  unfold P in *. cbn [fst snd] in HP. destruct HP as [(Lv & Lr & Lc) Hcells].
  apply bind_Ok_inv in Hbody as (x & _ & Hbody).
  apply bind_Ok_inv in Hbody as (v3 & Hv & Hbody).
  apply bind_Ok_inv in Hbody as (r3 & Hr & Hbody).
  apply bind_Ok_inv in Hbody as (c3 & Hc & [= <- <- <-]).
  apply wr_Ok_inv in Hv as (_ & _ & ->), Hr as (_ & _ & ->), Hc as (_ & _ & ->).
  cbn [fst snd]. rewrite !length_insert. split; [done|].
  intros k Hk. rewrite !list_lookup_insert_ne by lia. by apply Hcells.
Qed.

Lemma new_T_Ok n (junk : nat → T) (h h1 : heap T) a :
  new_T n junk h = Ok (a, h1) →
  a = Datatypes.S (next_addr h) ∧ next_addr h1 = a
  ∧ view_T h1 a = junk <$> seq 0 (Z.to_nat n)
  ∧ cells_i h1 = cells_i h.
Proof.
  unfold new_T, view_T. destruct (n <? 0); [discriminate|].
  intros [= <- <-]. cbn. by rewrite lookup_insert_eq.
Qed.

Lemma new_i_Ok n (junk : nat → Z) (h h1 : heap T) a :
  new_i n junk h = Ok (a, h1) →
  a = Datatypes.S (next_addr h) ∧ next_addr h1 = a
  ∧ view_i h1 a = junk <$> seq 0 (Z.to_nat n)
  ∧ (∀ a', a' ≠ a → view_i h1 a' = view_i h a')
  ∧ (∀ a', view_T h1 a' = view_T h a').
Proof.
  unfold new_i, view_i, view_T. destruct (n <? 0); [discriminate|].
  intros [= <- <-]. cbn. rewrite lookup_insert_eq.
  repeat split; try done. intros a' Ha. by rewrite lookup_insert_ne.
Qed.

(** Whatever CSR matrix [csr_to_coo] is given, the COO matrix it returns
    holds in every cell but cell 0 what the allocation left there. *)
Lemma csr_to_coo_writes_cell_0_only (csr0 csr' : csr.CSRMatrix)
    (coo0 coo' : COOMatrix) (junk_v : nat → T) (junk_r junk_c : nat → Z)
    (h h' : heap T) :
  csr.csr_to_coo csr0 coo0 junk_v junk_r junk_c h = Ok (csr', coo', h') →
  nnz coo' = csr.nnz csr0
  ∧ ∀ i : nat, (0 < i)%nat → (i < Z.to_nat (csr.nnz csr0))%nat →
      view_T h' (vals coo') !! i = Some (junk_v i)
      ∧ view_i h' (rows coo') !! i = Some (junk_r i)
      ∧ view_i h' (cols coo') !! i = Some (junk_c i).
Proof.
  intros H. unfold csr.csr_to_coo in H.
  apply prog_bind_Ok_inv in H as ([] & h0 & E & H). apply lift_Ok_inv in E as [_ ->].
  apply prog_bind_Ok_inv in H as ([] & h0 & E & H). apply lift_Ok_inv in E as [_ ->].
  apply prog_bind_Ok_inv in H as (coo1 & h3 & Hres & H).
  unfold reserve in Hres.
  apply prog_bind_Ok_inv in Hres as ([] & h0 & E & Hres). apply lift_Ok_inv in E as [_ ->].
  apply prog_bind_Ok_inv in Hres as ([] & h0 & E & Hres). apply lift_Ok_inv in E as [_ ->].
  apply prog_bind_Ok_inv in Hres as (av & h1 & Ev & Hres).
  apply prog_bind_Ok_inv in Hres as (ar & h2 & Er & Hres).
  apply prog_bind_Ok_inv in Hres as (ac & h3' & Ec & Hres).
  injection Hres as <- <-.
  apply new_T_Ok in Ev as (Hav & Hn1 & Vv & _).
  apply new_i_Ok in Er as (Har & Hn2 & Vr & _ & Tr).
  apply new_i_Ok in Ec as (Hac & Hn3 & Vc & Ic & Tc).
  assert (ar ≠ ac) as Hne by lia.
  cbn [vals rows cols nnz] in H.
  apply prog_bind_Ok_inv in H as (csr_rowptr & h0 & [= <- <-] & H).
  apply prog_bind_Ok_inv in H as (csr_vals & h0 & [= <- <-] & H).
  apply prog_bind_Ok_inv in H as (v0 & h0 & [= <- <-] & H).
  apply prog_bind_Ok_inv in H as (r0 & h0 & [= <- <-] & H).
  apply prog_bind_Ok_inv in H as (c0 & h0 & [= <- <-] & H).
  apply prog_bind_Ok_inv in H as ([[v r] c] & h0 & E & H).
  apply lift_Ok_inv in E as [Hloop ->].
  apply csr_to_coo_loops_keep_cells in Hloop as [(Lv & Lr & Lc) Hcells].
  destruct (store_T_view h3' av v Lv) as (h4 & E4 & Hv4 & Hf4 & Hi4).
  apply prog_bind_Ok_inv in H as ([] & h4' & E4' & H).
  rewrite E4 in E4'. injection E4' as <-.
  assert (length r = length (view_i h4 ar)) as Lr4 by (by rewrite Hi4).
  destruct (store_i_view h4 ar r Lr4) as (h5 & E5 & Hv5 & Hf5 & Hi5).
  apply prog_bind_Ok_inv in H as ([] & h5' & E5' & H).
  rewrite E5 in E5'. injection E5' as <-.
  assert (length c = length (view_i h5 ac)) as Lc5 by (by rewrite Hf5, Hi4).
  destruct (store_i_view h5 ac c Lc5) as (h6 & E6 & Hv6 & Hf6 & Hi6).
  apply prog_bind_Ok_inv in H as ([] & h6' & E6' & H).
  rewrite E6 in E6'. injection E6' as <-.
  injection H as <- <- <-. cbn [vals rows cols nnz set_sort].
  split; [reflexivity|]. intros i Hi Hlt.
  destruct (Hcells i Hi) as (Cv & Cr & Cc).
  rewrite Hi6, Hi5, Hv4, Cv. rewrite Hf6, Hv5, Cr by done. rewrite Hv6, Cc.
  rewrite Tc, Tr, Vv. rewrite Ic, Vr by done. rewrite Vc.
  rewrite !list_lookup_fmap, !lookup_seq_lt by lia. done.
Qed.

End csr_to_coo_facts.

(** ** The theorems at concrete inputs *)

Section concrete.
Import examples.

Local Abbreviation gemmZ := (dense.gemm_model 0 Z.add Z.mul).
Local Abbreviation sabZ := (dense.submatrix_as_blackbox_model dense_entry).
Local Abbreviation full := (dense.fill_dense dense_entry (S_dense blas.ColMajor)).

(** [skge3_precondition_failure] at a 2-by-3 operator: with [A] 3-by-1 in
    column-major layout, [lda = 2] is refused. *)
Lemma skge3_precondition_failure_witness :
  is_Some (DenseSkOp.buff full)
  ∧ dense.offsets_in_range (DenseSkOp.layout full) (DenseSkOp.n_rows full)
      (DenseSkOp.n_cols full) (dense.dims_before_op 2 3 blas.NoTrans) 0 0
  ∧ dense.offsets_in_range (DenseSkOp.layout full) (DenseSkOp.n_rows full)
      (DenseSkOp.n_cols full) (dense.dims_before_op 1 2 blas.NoTrans) 0 0
  ∧ dense.lskge3 gemmZ sabZ blas.ColMajor blas.NoTrans blas.NoTrans 2 1 3 1
      full 0 0 [1; 1; 1] 2 0 [0; 0] 2 = Throw.
Proof.
  assert (is_Some (DenseSkOp.buff full)) as Hbuf by (eexists; reflexivity).
  assert (dense.offsets_in_range (DenseSkOp.layout full) (DenseSkOp.n_rows full)
            (DenseSkOp.n_cols full) (dense.dims_before_op 2 3 blas.NoTrans) 0 0)
    as Hl by (unfold dense.offsets_in_range, cint.in_int64; cbn; lia).
  assert (dense.offsets_in_range (DenseSkOp.layout full) (DenseSkOp.n_rows full)
            (DenseSkOp.n_cols full) (dense.dims_before_op 1 2 blas.NoTrans) 0 0)
    as Hr by (unfold dense.offsets_in_range, cint.in_int64; cbn; lia).
  split; [exact Hbuf|]. split; [exact Hl|]. split; [exact Hr|].
  destruct (skge3_precondition_failure gemmZ sabZ blas.ColMajor blas.NoTrans
              blas.NoTrans 2 1 3 1 full 0 0 [1; 1; 1] 2 0 [0; 0] 2 Hbuf Hl Hr)
    as [Hthrow _].
  apply Hthrow. left. cbn. lia.
Defined.

(** [skge3_unmaterialized_refines] at the window of 2 rows and 2 columns
    at offset (0, 1) of the 2-by-3 operator. *)
Lemma skge3_unmaterialized_refines_witness :
  DenseSkOp.buff (S_dense blas.ColMajor) = None
  ∧ dense.lskge3 gemmZ sabZ blas.RowMajor blas.NoTrans blas.NoTrans 2 1 2 1
      (S_dense blas.ColMajor) 0 1 [1; 1] 1 0 [0; 0] 1
    = dense.lskge3 gemmZ sabZ blas.RowMajor blas.NoTrans blas.NoTrans 2 1 2 1
        full 0 1 [1; 1] 1 0 [0; 0] 1
  ∧ dense.rskge3 gemmZ sabZ blas.RowMajor blas.NoTrans blas.NoTrans 2 2 1 1
      [1; 1] 1 (S_dense blas.ColMajor) 0 1 0 [0; 0; 0; 0] 2
    = dense.rskge3 gemmZ sabZ blas.RowMajor blas.NoTrans blas.NoTrans 2 2 1 1
        [1; 1] 1 full 0 1 0 [0; 0; 0; 0] 2.
Proof.
  split; [reflexivity|].
  destruct (skge3_unmaterialized_refines 0 Z.add Z.mul dense_entry
              blas.RowMajor blas.NoTrans blas.NoTrans 2 1 2 1
              (S_dense blas.ColMajor) 0 1 [1; 1] 1 0 [0; 0] 1
              eq_refl ltac:(lia) ltac:(lia)) as [Hl _].
  destruct (skge3_unmaterialized_refines 0 Z.add Z.mul dense_entry
              blas.RowMajor blas.NoTrans blas.NoTrans 2 1 2 1
              (S_dense blas.ColMajor) 0 1 [1; 1] 1 0 [0; 0; 0; 0] 2
              eq_refl ltac:(lia) ltac:(lia)) as [_ Hr].
  split; [apply Hl; cbn; lia | apply Hr; cbn; lia].
Defined.

(** [layout_transpose_equivalence] at the 2-by-3 operator. *)
Lemma layout_transpose_equivalence_witness :
  dense.lskge3 gemmZ sabZ blas.ColMajor blas.Trans blas.NoTrans 2 1 2 1
    (dense.fill_dense dense_entry (S_dense blas.RowMajor)) 0 1
    [1; 1] 2 0 [0; 0] 2
  = dense.lskge3 gemmZ sabZ blas.ColMajor blas.Trans blas.NoTrans 2 1 2 1
      (dense.fill_dense dense_entry (S_dense blas.ColMajor)) 0 1
      [1; 1] 2 0 [0; 0] 2.
Proof.
  destruct (layout_transpose_equivalence 0 Z.add Z.mul dense_entry
              blas.ColMajor blas.Trans blas.NoTrans 2 1 2 1 () () [] 2 3 0 1
              [1; 1] 2 0 [0; 0] 2) as (_ & H & _).
  destruct (H ltac:(lia) ltac:(lia)) as [Hl _].
  apply Hl; cbn; lia.
Defined.

(** [repeated_fisher_yates_split] at the numbers of the test
    [test_updated_rngstates_fisher_yates]. *)
Lemma repeated_fisher_yates_split_witness :
  let gen := λ c k : Z, 7 * c + k in
  let s := sampling.mkRNGState 306 0 in
  (sampling.repeated_fisher_yates gen s 17 29 (1 + 3)).1
  = (sampling.repeated_fisher_yates gen s 17 29 1).1
    ++ (sampling.repeated_fisher_yates gen
          (sampling.repeated_fisher_yates gen s 17 29 1).2 17 29 3).1.
Proof.
  intros gen s.
  apply (repeated_fisher_yates_split gen s 17 29 1 3);
    unfold sampling.ctr_modulus; cbn; lia.
Defined.

(** [skges_unmaterialized] with the stand-ins: [rskges] has multiplied by
    the filled operator (3 nonzeros) and then by the operator that is not
    materialized ([nnz = -1]). *)
Lemma skges_unmaterialized_witness :
  sparse.rskges SparseSkOp_new_stub fill_sparse_stub coo_view_stub right_spmm_stub 2
    blas.ColMajor blas.NoTrans blas.NoTrans 1 1 1 1 [1] 1 S_sparse 0 0 0 [0] 1
  = Some (Ok [0; 3; -1]).
Proof.
  destruct (skges_unmaterialized SparseSkOp_new_stub fill_sparse_stub
              coo_view_stub left_spmm_stub right_spmm_stub
              blas.ColMajor blas.NoTrans blas.NoTrans 1 1 1 1 S_sparse 0 0
              [1] 1 0 [0] 1) as [_ Hr]; [cbn; lia | cbn; lia |].
  rewrite Hr. reflexivity.
Defined.

(** [apply_coo_left_csc_returns_nothing] at the 1-by-1 matrix [[2]],
    [A = [3]], [B = [0]], [alpha = 1]. *)
Lemma apply_coo_left_csc_returns_nothing_witness :
  sort S_single = NonzeroSort.CSC
  ∧ 0 < 1
  ∧ ∀ r, coo.apply_coo_left 0 Z.add Z.mul kernel_stub 1
           blas.ColMajor blas.ColMajor 1 1 1 S_single 0 0 [3] 1 [0] 1 h_single
         ≠ Ok r.
Proof.
  split; [reflexivity|]. split; [lia|].
  apply (apply_coo_left_csc_returns_nothing 0 Z.add Z.mul kernel_stub);
    [reflexivity | lia].
Defined.

(** The same call, evaluated: the read of [S_colptr[1]] is outside the
    one-element array. *)
Example apply_coo_left_single_entry :
  coo.apply_coo_left 0 Z.add Z.mul kernel_stub 1
    blas.ColMajor blas.ColMajor 1 1 1 S_single 0 0 [3] 1 [0] 1 h_single
  = Undefined.
Proof. vm_compute. reflexivity. Qed.

(** The matrix [[2, 0]] and a window of its two columns, with an array
    of three column pointers: the pointer of column 1 is never set, and
    the nonzero of column 0 is not copied ([new_nnz] is 0). *)
Example set_filtered_csc_drops_last_column :
  coo.set_filtered_csc_from_cscoo [2] [0] [0] 1 0 2 0 1 [0] [0] [0; 0; 0]
  = Ok (0, [0], [0], [0; 0; 0]).
Proof. vm_compute. reflexivity. Qed.

(** A window without columns: the kernel returns, and [B] is as it was;
    nothing scales [B]. *)
Example apply_coo_left_empty_window :
  ∃ h', coo.apply_coo_left 0 Z.add Z.mul kernel_stub 1
          blas.ColMajor blas.ColMajor 1 1 0 S_single 0 1 [3] 1 [5] 1 h_single
        = Ok (S_single, [5], h').
Proof. eexists. vm_compute. reflexivity. Qed.

(** [apply_coo_left_restores_sort_field] at a matrix in CSR order, whose
    arrays come back as they were; at the matrix [[2, 1]] in no declared
    order, whose nonzeros come back rearranged; and at a matrix in CSC
    order with a window without columns. *)
Lemma apply_coo_left_restores_sort_field_witness :
  (∃ B' h',
     coo.apply_coo_left 0 Z.add Z.mul kernel_stub 1
       blas.ColMajor blas.ColMajor 2 1 2 S_csr 0 0 [3; 4] 2 [0; 0] 2 h_csr
     = Ok (S_csr, B', h')
     ∧ view_T h' (vals S_csr) = view_T h_csr (vals S_csr)
     ∧ view_i h' (rows S_csr) = view_i h_csr (rows S_csr)
     ∧ view_i h' (cols S_csr) = view_i h_csr (cols S_csr))
  ∧ (∃ B' h',
       coo.apply_coo_left 0 Z.add Z.mul kernel_stub 1
         blas.ColMajor blas.ColMajor 1 1 2 S_unsorted 0 0 [3; 4] 2 [0] 1
         h_unsorted
       = Ok (S_unsorted, B', h')
       ∧ coo_nonzeros S_unsorted h' ≡ₚ coo_nonzeros S_unsorted h_unsorted
       ∧ StronglySorted (λ t1 t2, ¬ before NonzeroSort.CSC t2 t1)
                        (coo_nonzeros S_unsorted h'))
  ∧ (∃ B' h',
       coo.apply_coo_left 0 Z.add Z.mul kernel_stub 1
         blas.ColMajor blas.ColMajor 1 1 0 S_single 0 1 [3] 1 [5] 1 h_single
       = Ok (S_single, B', h')
       ∧ h' = h_single).
Proof.
  split; [|split].
  - eexists _, _. split; [vm_compute; reflexivity|].
    eapply (apply_coo_left_restores_sort_field 0 Z.add Z.mul kernel_stub 1
              blas.ColMajor blas.ColMajor 2 1 2 S_csr 0 0 [3; 4] 2 [0; 0] 2 h_csr).
    + vm_compute. reflexivity.
    + discriminate.
    + reflexivity.
    + repeat constructor.
  - eexists _, _. split; [vm_compute; reflexivity|].
    match goal with
    | |- coo_nonzeros _ ?h' ≡ₚ _ ∧ _ =>
        destruct (apply_coo_left_restores_sort_field 0 Z.add Z.mul kernel_stub 1
                    blas.ColMajor blas.ColMajor 1 1 2 S_unsorted 0 0 [3; 4] 2
                    [0] 1 h_unsorted S_unsorted [0] h')
          as (_ & _ & _ & _ & Hrest)
    end; [vm_compute; reflexivity|].
    destruct Hrest as [Hnone _]; [discriminate|].
    destruct Hnone as (Hperm & Hsorted & _); [reflexivity|].
    split; [exact Hperm | exact Hsorted].
  - eexists _, _. split; [vm_compute; reflexivity|].
    match goal with
    | |- ?h' = _ =>
        destruct (apply_coo_left_restores_sort_field 0 Z.add Z.mul kernel_stub 1
                    blas.ColMajor blas.ColMajor 1 1 0 S_single 0 1 [3] 1
                    [5] 1 h_single S_single [5] h')
          as (_ & _ & _ & Hcsc & _)
    end; [vm_compute; reflexivity|].
    destruct Hcsc as [_ Hh]; [reflexivity|]. exact Hh.
Defined.

(** C9 does not hold as stated.  The matrix [[2, 1]] enters
    [apply_coo_left] with its nonzeros stored as (0,1,1), (0,0,2) and its
    order declared None.  Whatever the routine that multiplies does with
    [B], a call that returns has left the nonzeros stored as (0,0,2),
    (0,1,1): the [cols] and [vals] arrays are not as on entry.  With the
    stand-in for that routine the call does return. *)
Lemma apply_coo_left_leaves_unsorted_matrix_sorted :
  (∀ kernel S0' B' h',
     coo.apply_coo_left 0 Z.add Z.mul kernel 1
       blas.ColMajor blas.ColMajor 1 1 2 S_unsorted 0 0 [3; 4] 2 [0] 1 h_unsorted
     = Ok (S0', B', h') →
     view_i h_unsorted (cols S_unsorted) = [1; 0]
     ∧ view_T h_unsorted (vals S_unsorted) = [1; 2]
     ∧ view_i h' (cols S_unsorted) = [0; 1]
     ∧ view_T h' (vals S_unsorted) = [2; 1])
  ∧ ∃ S0' B' h',
      coo.apply_coo_left 0 Z.add Z.mul kernel_stub 1
        blas.ColMajor blas.ColMajor 1 1 2 S_unsorted 0 0 [3; 4] 2 [0] 1 h_unsorted
      = Ok (S0', B', h').
Proof.
  split.
  - intros kernel S0' B' h' H.
    apply apply_coo_left_unsorted in H as (_ & h1 & E1 & _ & E2); [|discriminate].
    change (sort S_unsorted) with NonzeroSort.None in E2.
    rewrite sort_coo_data_matrix_None in E2. injection E2 as <-.
    vm_compute in E1. injection E1 as <-.
    vm_compute. done.
  - eexists _, _, _. vm_compute. reflexivity.
Qed.

(** C5 on the matrix [[5, 0], [0, 7]].  [coo_to_csr] does not return: its
    loop reads [coo.rows[2]], outside the two-element array.  [csr_to_coo],
    given the CSR form of the matrix, never advances [ell] and stores the
    position [j] as the column: it returns a COO matrix whose cell 0 holds
    the triple (1, 1, 5) and whose cell 1 holds what the allocation left
    there, not the triples (0, 0, 5) and (1, 1, 7). *)
Theorem coo_csr_round_trip_fails :
  csr.coo_to_csr coo_diag (csr.CSRMatrix_new 2 2 IndexBase.Zero)
    junk junk junk h_diag = Undefined
  ∧ ∃ csr' coo' h',
      csr.csr_to_coo csr_diag (COOMatrix_new 2 2 IndexBase.Zero)
        junk junk junk h_diag_csr = Ok (csr', coo', h')
      ∧ nnz coo' = 2
      ∧ view_i h' (rows coo') = [1; junk 1%nat]
      ∧ view_i h' (cols coo') = [1; junk 1%nat]
      ∧ view_T h' (vals coo') = [5; junk 1%nat].
Proof.
  split; [vm_compute; reflexivity|].
  eexists _, _, _. split; [vm_compute; reflexivity|].
  vm_compute. done.
Qed.

End concrete.

(** * Further properties of the embedded code *)

(** ** Loops that run to their end *)

Lemma rd_Ok {A} (a : list A) i x :
  0 ≤ i → a !! Z.to_nat i = Some x → rd a i = Ok x.
Proof.
  intros Hi Hx. unfold rd. destruct (Z.ltb_spec i 0); [lia|]. by rewrite Hx.
Qed.

Lemma rd_in_range {A} (a : list A) i :
  0 ≤ i < Z.of_nat (length a) → ∃ x, a !! Z.to_nat i = Some x ∧ rd a i = Ok x.
Proof.
  intros Hi. destruct (lookup_lt_is_Some_2 a (Z.to_nat i)) as [x Hx]; [lia|].
  exists x. split; [done|]. apply rd_Ok; [lia|done].
Qed.

Lemma wr_Ok {A} (a : list A) i x :
  0 ≤ i < Z.of_nat (length a) → wr a i x = Ok (<[Z.to_nat i := x]> a).
Proof.
  intros Hi. unfold wr.
  destruct (Z.leb_spec 0 i), (Z.ltb_spec i (Z.of_nat (length a))); cbn; try lia; done.
Qed.

Lemma for_loop_total {S} (P : Z → S → Prop) (body : Z → S → outcome S) count i s :
  P i s →
  (∀ j t, i ≤ j < i + Z.of_nat count → P j t →
          ∃ t', body j t = Ok t' ∧ P (j + 1) t') →
  ∃ s', for_loop count i body s = Ok s' ∧ P (i + Z.of_nat count) s'.
Proof.
  revert i s. induction count as [|c IH]; intros i s Hs Hstep; cbn [for_loop].
  - exists s. split; [done|]. by rewrite Z.add_0_r.
  - destruct (Hstep i s) as (t & Hb & Ht); [lia|done|].
    rewrite Hb. cbn.
    destruct (IH (i + 1) t Ht) as (s' & Hl & Hs').
    { intros j u Hj. apply Hstep. lia. }
    exists s'. split; [done|].
    by replace (i + Z.of_nat (Datatypes.S c)) with ((i + 1) + Z.of_nat c) by lia.
Qed.

Lemma for_range_total {S} (P : Z → S → Prop) (body : Z → S → outcome S) lo hi s :
  lo ≤ hi → P lo s →
  (∀ j t, lo ≤ j < hi → P j t → ∃ t', body j t = Ok t' ∧ P (j + 1) t') →
  ∃ s', for_range lo hi body s = Ok s' ∧ P hi s'.
Proof.
  intros Hle Hs Hstep. unfold for_range.
  destruct (for_loop_total P body (Z.to_nat (hi - lo)) lo s Hs) as (s' & Hl & Hs').
  { intros j t Hj. apply Hstep. lia. }
  replace (lo + Z.of_nat (Z.to_nat (hi - lo))) with hi in Hs' by lia.
  by exists s'.
Qed.

Lemma for_range_empty {S} (body : Z → S → outcome S) lo hi s :
  hi ≤ lo → for_range lo hi body s = Ok s.
Proof.
  intros H. unfold for_range. by replace (Z.to_nat (hi - lo)) with 0%nat by lia.
Qed.

(** ** The order of the nonzeros of a COO matrix *)

Lemma coo_sort_loop rows cols count i a b :
  1 ≤ i →
  (count ≠ 0%nat → i + Z.of_nat count ≤ Z.of_nat (length rows)) →
  (count ≠ 0%nat → i + Z.of_nat count ≤ Z.of_nat (length cols)) →
  for_loop_break count i
    (λ ell '(csr_okay, csc_okay),
       i0 ← rd rows (ell - 1);
       j0 ← rd cols (ell - 1);
       i1 ← rd rows ell;
       j1 ← rd cols ell;
       let csr_okay : bool :=
         if csr_okay : bool then increasing_by_csr i0 j0 i1 j1 else csr_okay in
       let csc_okay : bool :=
         if csc_okay : bool then increasing_by_csc i0 j0 i1 j1 else csc_okay in
       mret ((csr_okay, csc_okay), negb csr_okay && negb csc_okay))
    (a, b)
  = Ok (a && forallb (increasing_at increasing_by_csr rows cols)
                     (seqZ i (Z.of_nat count)),
        b && forallb (increasing_at increasing_by_csc rows cols)
                     (seqZ i (Z.of_nat count))).
Proof.
  revert i a b. induction count as [|c IH]; intros i a b Hi Hr Hc.
  - cbn. by rewrite !andb_true_r.
  - cbn [for_loop_break]. specialize (Hr ltac:(done)). specialize (Hc ltac:(done)).
    destruct (rd_in_range rows (i - 1)) as (i0 & Ei0 & ->); [lia|].
    destruct (rd_in_range cols (i - 1)) as (j0 & Ej0 & ->); [lia|].
    destruct (rd_in_range rows i) as (i1 & Ei1 & ->); [lia|].
    destruct (rd_in_range cols i) as (j1 & Ej1 & ->); [lia|].
    cbn.
    replace (Z.of_nat (Datatypes.S c)) with (Z.succ (Z.of_nat c)) by lia.
    rewrite seqZ_cons by lia. cbn [forallb].
    replace (Z.pred (Z.succ (Z.of_nat c))) with (Z.of_nat c) by lia.
    unfold increasing_at at 1 3. rewrite Ei0, Ej0, Ei1, Ej1.
    set (x := increasing_by_csr i0 j0 i1 j1).
    set (y := increasing_by_csc i0 j0 i1 j1).
    destruct (negb (if a then x else a) && negb (if b then y else b)) eqn:E.
    + apply andb_prop in E as [E1 E2]. apply negb_true_iff in E1, E2.
      f_equal. f_equal.
      * destruct a; cbn in *; [rewrite E1|]; done.
      * destruct b; cbn in *; [rewrite E2|]; done.
    + replace (Z.succ i) with (i + 1) by lia.
      rewrite IH by lia. f_equal. f_equal.
      * destruct a; cbn; done.
      * destruct b; cbn; done.
Qed.

Lemma forallb_increasing_at f rows cols nnz :
  forallb (increasing_at f rows cols) (seqZ 1 (nnz - 1)) = true
  ↔ pairs_increasing f nnz rows cols.
Proof.
  rewrite forallb_forall. unfold pairs_increasing. split.
  - intros H ell Hell. apply H. rewrite <- list_elem_of_In, elem_of_seqZ. lia.
  - intros H ell Hell. rewrite <- list_elem_of_In, elem_of_seqZ in Hell.
    apply H. lia.
Qed.

(** What [coo_sort_type] returns, for arrays that hold [nnz] nonzeros. *)
Lemma coo_sort_type_eq (nnz : Z) (rows cols : list Z) :
  nnz ≤ Z.of_nat (length rows) → nnz ≤ Z.of_nat (length cols) →
  coo_sort_type nnz rows cols
  = Ok (if forallb (increasing_at increasing_by_csr rows cols) (seqZ 1 (nnz - 1))
        then NonzeroSort.CSR
        else if forallb (increasing_at increasing_by_csc rows cols)
                        (seqZ 1 (nnz - 1))
             then NonzeroSort.CSC
             else NonzeroSort.None).
Proof.
  intros Hr Hc. unfold coo_sort_type, for_range_break.
  rewrite coo_sort_loop by lia. cbn.
  assert (seqZ 1 (Z.of_nat (Z.to_nat (nnz - 1))) = seqZ 1 (nnz - 1)) as ->.
  { unfold seqZ. by rewrite Nat2Z.id. }
  reflexivity.
Qed.

(** X1.  For arrays that hold at least [nnz] row and column indices,
    [coo_sort_type] returns normally: CSR exactly when every nonzero after
    the first is not before its predecessor in row-major order (so also
    for [nnz <= 1], and for data that is in both orders), CSC exactly
    when the data is not in row-major order and is in column-major order,
    and None otherwise. *)
Theorem coo_sort_type_classifies (nnz : Z) (rows cols : list Z) :
  nnz ≤ Z.of_nat (length rows) → nnz ≤ Z.of_nat (length cols) →
  ∃ s, coo_sort_type nnz rows cols = Ok s
       ∧ (s = NonzeroSort.CSR ↔ pairs_increasing increasing_by_csr nnz rows cols)
       ∧ (s = NonzeroSort.CSC ↔
            ¬ pairs_increasing increasing_by_csr nnz rows cols
            ∧ pairs_increasing increasing_by_csc nnz rows cols)
       ∧ (s = NonzeroSort.None ↔
            ¬ pairs_increasing increasing_by_csr nnz rows cols
            ∧ ¬ pairs_increasing increasing_by_csc nnz rows cols).
Proof.
  intros Hr Hc. rewrite coo_sort_type_eq by done.
  pose proof (forallb_increasing_at increasing_by_csr rows cols nnz) as H1.
  pose proof (forallb_increasing_at increasing_by_csc rows cols nnz) as H2.
  destruct (forallb (increasing_at increasing_by_csr rows cols) _);
    destruct (forallb (increasing_at increasing_by_csc rows cols) _);
    eexists; (split; [reflexivity|]);
    repeat split; try done; try tauto; intuition congruence.
Qed.

Lemma coo_sort_type_classifies_witness :
  3 ≤ Z.of_nat (length [0; 0; 1]) ∧ 3 ≤ Z.of_nat (length [1; 2; 0])
  ∧ ∃ s, coo_sort_type 3 [0; 0; 1] [1; 2; 0] = Ok s
         ∧ (s = NonzeroSort.CSR
            ↔ pairs_increasing increasing_by_csr 3 [0; 0; 1] [1; 2; 0])
         ∧ (s = NonzeroSort.CSC
            ↔ ¬ pairs_increasing increasing_by_csr 3 [0; 0; 1] [1; 2; 0]
              ∧ pairs_increasing increasing_by_csc 3 [0; 0; 1] [1; 2; 0])
         ∧ (s = NonzeroSort.None
            ↔ ¬ pairs_increasing increasing_by_csr 3 [0; 0; 1] [1; 2; 0]
              ∧ ¬ pairs_increasing increasing_by_csc 3 [0; 0; 1] [1; 2; 0]).
Proof.
  split; [cbn; lia|]. split; [cbn; lia|].
  apply (coo_sort_type_classifies 3 [0; 0; 1] [1; 2; 0]); cbn; lia.
Defined.

(** ** Sorting, and the order found afterwards *)

Section sort_total.
Context {T : Type}.
Implicit Types (s : NonzeroSort.t).

Lemma sort_loops_total (comp : @tuple_type T → @tuple_type T → bool) nnz
    (vals : list T) rows cols :
  0 ≤ nnz →
  nnz ≤ Z.of_nat (length vals) → nnz ≤ Z.of_nat (length rows) →
  nnz ≤ Z.of_nat (length cols) →
  ∃ r,
    (nonzeros ←
       for_range 0 nnz
         (λ ell (acc : list tuple_type),
            r ← rd rows ell; c ← rd cols ell; v ← rd vals ell;
            mret (acc ++ [(r, c, v)]))
         [];
     let nonzeros := std_sort comp nonzeros in
     for_range 0 nnz
       (λ ell '(vals, rows, cols),
          tup ← rd nonzeros ell;
          vals ← wr vals ell (tup : tuple_type).2;
          rows ← wr rows ell tup.1.1;
          cols ← wr cols ell tup.1.2;
          mret (vals, rows, cols))
       (vals, rows, cols)) = Ok r.
Proof.
  intros Hn Hv Hr Hc.
  match goal with
  | |- context [for_range 0 nnz ?body []] =>
      destruct (for_range_total
                  (λ j (acc : list (@tuple_type T)), length acc = Z.to_nat j)
                  body 0 nnz []) as (acc & -> & Hacc); [done | done | |]
  end.
  { intros j t Hj Ht.
    destruct (rd_in_range rows j) as (r & _ & ->); [lia|].
    destruct (rd_in_range cols j) as (c & _ & ->); [lia|].
    destruct (rd_in_range vals j) as (v & _ & ->); [lia|].
    eexists. split; [reflexivity|]. rewrite length_app. cbn. lia. }
  cbn.
  match goal with
  | |- context [for_range 0 nnz ?body (vals, rows, cols)] =>
      destruct (for_range_total
                  (λ (j : Z) (st : list T * list Z * list Z),
                     length st.1.1 = length vals
                     ∧ length st.1.2 = length rows
                     ∧ length st.2 = length cols)
                  body 0 nnz (vals, rows, cols))
        as (st & -> & _); [done | done | | by eexists]
  end.
  intros j [[v1 r1] c1] Hj (Hv1 & Hr1 & Hc1). cbn in Hv1, Hr1, Hc1.
  destruct (rd_in_range (std_sort comp acc) j) as (tup & _ & ->).
  { unfold std_sort. rewrite merge_sort_Permutation. lia. }
  cbn. rewrite !wr_Ok by lia. cbn.
  eexists. split; [reflexivity|]. cbn. rewrite !length_insert. done.
Qed.

(** [sort_coo_data] returns normally on arrays that hold [nnz] nonzeros. *)
Lemma sort_coo_data_total s nnz (vals : list T) rows cols :
  0 ≤ nnz →
  nnz ≤ Z.of_nat (length vals) → nnz ≤ Z.of_nat (length rows) →
  nnz ≤ Z.of_nat (length cols) →
  ∃ r, sort_coo_data s nnz vals rows cols = Ok r.
Proof.
  intros Hn Hv Hr Hc. unfold sort_coo_data.
  destruct s; [| |by eexists];
    (unfold randblas_require; destruct (Z.leb_spec 0 nnz); [|lia]; cbn;
     by apply sort_loops_total).
Qed.

Lemma StronglySorted_adjacent {A} (R : relation A) (l : list A) (i : nat) x y :
  StronglySorted R l → l !! i = Some x → l !! Datatypes.S i = Some y → R x y.
Proof.
  intros Hl. revert i. induction Hl as [|a l Hl IH Ha]; intros i Hx Hy; [done|].
  destruct i as [|i]; cbn in *.
  - injection Hx as ->. rewrite Forall_forall in Ha. apply Ha.
    by eapply list_elem_of_lookup_2.
  - by eapply IH.
Qed.

Lemma not_after_increasing s (t1 t2 : @tuple_type T) :
  s ≠ NonzeroSort.None →
  not_after (sort_func s) t1 t2 →
  (if decide (s = NonzeroSort.CSR) then increasing_by_csr else increasing_by_csc)
    t1.1.1 t1.1.2 t2.1.1 t2.1.2 = true.
Proof.
  intros Hs H. apply not_after_before in H. unfold before in H.
  unfold increasing_by_csr, increasing_by_csc.
  destruct s; [| |done];
    (destruct (decide _) as [e|e]; [try discriminate e|try (exfalso; by apply e)]);
    cbn in *;
    repeat match goal with
           | |- context [?a >? ?b] => rewrite (Z.gtb_ltb a b)
           | |- context [?a <? ?b] => destruct (Z.ltb_spec a b)
           | |- context [?a =? ?b] => destruct (Z.eqb_spec a b)
           | |- context [?a <=? ?b] => destruct (Z.leb_spec a b)
           end; try done; lia.
Qed.

(** Arrays whose first [nnz] cells hold a list sorted by the comparator
    pass the test of [coo_sort_type] for the same order. *)
Lemma sorted_pairs_increasing s nnz (t : list (@tuple_type T)) dr dc :
  s ≠ NonzeroSort.None → length t = Z.to_nat nnz →
  StronglySorted (not_after (sort_func s)) t →
  pairs_increasing
    (if decide (s = NonzeroSort.CSR) then increasing_by_csr else increasing_by_csc)
    nnz (t.*1.*1 ++ dr) (t.*1.*2 ++ dc).
Proof.
  intros Hs Hlen Hsorted ell Hell. unfold increasing_at.
  destruct (lookup_lt_is_Some_2 t (Z.to_nat (ell - 1))) as [a Ha]; [lia|].
  destruct (lookup_lt_is_Some_2 t (Z.to_nat ell)) as [b Hb]; [lia|].
  unfold tuple_type in *.
  rewrite !lookup_app_l by (rewrite !length_fmap; lia).
  rewrite !list_lookup_fmap, Ha, Hb. cbn.
  apply not_after_increasing; [done|].
  apply (StronglySorted_adjacent _ t (Z.to_nat (ell - 1))); [done..|].
  by replace (Datatypes.S (Z.to_nat (ell - 1))) with (Z.to_nat ell) by lia.
Qed.

(** X2.  For [s] = CSR or CSC and arrays that hold [nnz >= 0] nonzeros,
    [sort_coo_data] returns normally; the first [nnz] triples of the
    arrays are then a rearrangement of the triples on entry, no triple
    is before an earlier one in the order of [s], and the cells from
    [nnz] on are as they were. *)
Theorem sort_coo_data_sorts s nnz (vals : list T) rows cols :
  s ≠ NonzeroSort.None → 0 ≤ nnz →
  nnz ≤ Z.of_nat (length vals) → nnz ≤ Z.of_nat (length rows) →
  nnz ≤ Z.of_nat (length cols) →
  ∃ vals' rows' cols',
    sort_coo_data s nnz vals rows cols = Ok (vals', rows', cols')
    ∧ nonzeros_of nnz vals' rows' cols' ≡ₚ nonzeros_of nnz vals rows cols
    ∧ StronglySorted (λ t1 t2, ¬ before s t2 t1)
                     (nonzeros_of nnz vals' rows' cols')
    ∧ drop (Z.to_nat nnz) vals' = drop (Z.to_nat nnz) vals
    ∧ drop (Z.to_nat nnz) rows' = drop (Z.to_nat nnz) rows
    ∧ drop (Z.to_nat nnz) cols' = drop (Z.to_nat nnz) cols.
Proof.
  intros Hs Hn Hv Hr Hc.
  destruct (sort_coo_data_total s nnz vals rows cols) as ([[v' r'] c'] & E);
    [done..|].
  exists v', r', c'. split; [done|].
  apply sort_coo_data_Ok in E as (_ & _ & _ & _ & -> & -> & ->); [|done].
  set (t := std_sort (sort_func s) (nonzeros_of nnz vals rows cols)).
  assert (length t = Z.to_nat nnz) as Hlen.
  { unfold t. rewrite std_sort_perm. apply nonzeros_of_length; lia. }
  rewrite nonzeros_of_written by done.
  split; [apply std_sort_perm|]. split.
  - eapply StronglySorted_weaken; [|apply std_sort_sorted].
    intros t1 t2. by rewrite not_after_before.
  - unfold tuple_type in *.
    rewrite !drop_app_length' by (rewrite !length_fmap; lia). done.
Qed.


(** X3.  After a successful [sort_coo_data(s, ...)] with [s] = CSR or
    CSC, [coo_sort_type] on the sorted arrays returns normally and never
    returns None; after a sort to CSR it returns CSR.  (After a sort to
    CSC it returns CSR when the sorted data is in row-major order as
    well, and CSC otherwise.) *)
Theorem sort_coo_data_then_coo_sort_type s nnz (vals : list T) rows cols
    vals' rows' cols' :
  s ≠ NonzeroSort.None →
  sort_coo_data s nnz vals rows cols = Ok (vals', rows', cols') →
  ∃ s', coo_sort_type nnz rows' cols' = Ok s'
        ∧ s' ≠ NonzeroSort.None
        ∧ (s = NonzeroSort.CSR → s' = NonzeroSort.CSR)
        ∧ (s' = NonzeroSort.CSC → s = NonzeroSort.CSC).
Proof.
  intros Hs E.
  apply sort_coo_data_Ok in E as (Hn & Hv & Hr & Hc & -> & -> & ->); [|done].
  set (t := std_sort (sort_func s) (nonzeros_of nnz vals rows cols)).
  assert (length t = Z.to_nat nnz) as Hlen.
  { unfold t. rewrite std_sort_perm. apply nonzeros_of_length; lia. }
  pose proof (sorted_pairs_increasing s nnz t (drop (Z.to_nat nnz) rows)
                (drop (Z.to_nat nnz) cols) Hs Hlen (std_sort_sorted s _)) as Hp.
  apply forallb_increasing_at in Hp.
  rewrite coo_sort_type_eq;
    [|unfold tuple_type in *; rewrite length_app, !length_fmap; lia..].
  destruct (decide (s = NonzeroSort.CSR)) as [->|Hne].
  - rewrite Hp. eexists. split; [reflexivity|]. done.
  - rewrite Hp.
    match goal with |- context [if ?b then _ else _] => destruct b end;
      eexists; (split; [reflexivity|]);
      (split; [done|]); split; try done. intros _. by destruct s.
Qed.


End sort_total.

Lemma sort_coo_data_sorts_witness :
  let vals := [10; 20; 30] in
  let rows := [1; 0; 0] in
  let cols := [0; 1; 0] in
  NonzeroSort.CSR ≠ NonzeroSort.None ∧ 0 ≤ 3
  ∧ 3 ≤ Z.of_nat (length vals) ∧ 3 ≤ Z.of_nat (length rows)
  ∧ 3 ≤ Z.of_nat (length cols)
  ∧ ∃ vals' rows' cols',
      sort_coo_data NonzeroSort.CSR 3 vals rows cols = Ok (vals', rows', cols')
      ∧ nonzeros_of 3 vals' rows' cols' ≡ₚ nonzeros_of 3 vals rows cols
      ∧ StronglySorted (λ t1 t2, ¬ before NonzeroSort.CSR t2 t1)
                       (nonzeros_of 3 vals' rows' cols')
      ∧ drop (Z.to_nat 3) vals' = drop (Z.to_nat 3) vals
      ∧ drop (Z.to_nat 3) rows' = drop (Z.to_nat 3) rows
      ∧ drop (Z.to_nat 3) cols' = drop (Z.to_nat 3) cols.
Proof.
  cbv zeta. split; [done|]. split; [lia|]. do 3 (split; [cbn; lia|]).
  apply (sort_coo_data_sorts NonzeroSort.CSR 3 [10; 20; 30] [1; 0; 0] [0; 1; 0]);
    [done | lia | cbn; lia..].
Defined.

Lemma sort_coo_data_then_coo_sort_type_witness :
  NonzeroSort.CSR ≠ NonzeroSort.None
  ∧ sort_coo_data NonzeroSort.CSR 3 [10; 20; 30] [1; 0; 0] [0; 1; 0]
    = Ok ([30; 20; 10], [0; 0; 1], [0; 1; 0])
  ∧ ∃ s', coo_sort_type 3 [0; 0; 1] [0; 1; 0] = Ok s'
          ∧ s' ≠ NonzeroSort.None
          ∧ (NonzeroSort.CSR = NonzeroSort.CSR → s' = NonzeroSort.CSR)
          ∧ (s' = NonzeroSort.CSC → NonzeroSort.CSR = NonzeroSort.CSC).
Proof.
  split; [done|]. split; [reflexivity|].
  apply (sort_coo_data_then_coo_sort_type NonzeroSort.CSR 3
           [10; 20; 30] [1; 0; 0] [0; 1; 0] [30; 20; 10]); [done | reflexivity].
Defined.

(** ** Reserving the arrays of a COO matrix, and transposed views *)

Section coo_object_facts.
Context {T : Type}.
Implicit Types (h : heap T) (M S : COOMatrix).

(** X4.  A successful [reserve(nnz)] was called on a matrix that owns its
    memory, with [nnz >= 0]; it leaves three new arrays of [nnz] cells
    each (their contents indeterminate) at distinct addresses, and any
    further [reserve] on the matrix throws, whatever it asks for. *)
Theorem reserve_only_once M n (jv : nat → T) (jr jc : nat → Z) h M' h' :
  reserve M n jv jr jc h = Ok (M', h') →
  (own_memory M = true ∧ 0 ≤ n ∧ nnz M' = n
   ∧ view_T h' (vals M') = jv <$> seq 0 (Z.to_nat n)
   ∧ view_i h' (rows M') = jr <$> seq 0 (Z.to_nat n)
   ∧ view_i h' (cols M') = jc <$> seq 0 (Z.to_nat n)
   ∧ rows M' ≠ cols M')
  ∧ ∀ n' (jv' : nat → T) jr' jc' h'', reserve M' n' jv' jr' jc' h'' = Throw.
Proof.
  unfold reserve. rewrite !prog_bind_eq. unfold lift, randblas_require.
  destruct (_can_reserve M); [|discriminate].
  destruct (own_memory M); [|discriminate].
  rewrite !prog_bind_eq. unfold new_T at 1.
  destruct (Z.ltb_spec n 0); [discriminate|].
  unfold new_i. cbn.
  destruct (Z.ltb_spec n 0); [lia|]. cbn.
  intros [= <- <-]. cbn. unfold view_T, view_i. cbn.
  split; [|done].
  rewrite lookup_insert_eq.
  rewrite lookup_insert_ne by lia. rewrite !lookup_insert_eq. cbn.
  repeat split; try done; lia.
Qed.

End coo_object_facts.

Lemma reserve_only_once_witness :
  let h := Heap (T:=Z) ∅ ∅ 0%nat in
  let M := COOMatrix_new 2 2 IndexBase.Zero in
  let M' := mkCOOMatrix 2 2 IndexBase.Zero true 2 1%nat 2%nat 3%nat
                        NonzeroSort.None false in
  let h' := Heap (T:=Z) {[1%nat := [-1; -1]]}
                 (<[3%nat := [-1; -1]]> {[2%nat := [-1; -1]]}) 3%nat in
  reserve M 2 examples.junk examples.junk examples.junk h = Ok (M', h')
  ∧ (own_memory M = true ∧ 0 ≤ 2 ∧ nnz M' = 2
     ∧ view_T h' (vals M') = examples.junk <$> seq 0 (Z.to_nat 2)
     ∧ view_i h' (rows M') = examples.junk <$> seq 0 (Z.to_nat 2)
     ∧ view_i h' (cols M') = examples.junk <$> seq 0 (Z.to_nat 2)
     ∧ rows M' ≠ cols M')
  ∧ ∀ n' (jv' : nat → Z) jr' jc' h'', reserve M' n' jv' jr' jc' h'' = Throw.
Proof.
  cbv zeta. split; [reflexivity|].
  apply (reserve_only_once (T:=Z) (COOMatrix_new 2 2 IndexBase.Zero) 2
           examples.junk examples.junk examples.junk (Heap ∅ ∅ 0%nat)).
  reflexivity.
Defined.

Section transpose_facts.
Context {T : Type}.
Implicit Types (h : heap T) (S : COOMatrix).

(** X5.  For a matrix that does not own its arrays, [transpose] leaves
    the heap as it is, and the transpose of the transpose is a view with
    the fields of the matrix: the same arrays in the same roles, the
    same shape, number of nonzeros, index base and sort order. *)
Theorem transpose_twice S h :
  own_memory S = false →
  ∃ St, transpose S h = Ok (St, h)
        ∧ transpose St h
          = Ok (mkCOOMatrix (n_rows S) (n_cols S) (index_base S) false (nnz S)
                            (vals S) (rows S) (cols S) (sort S) true, h).
Proof.
  destruct S as [nr nc ib own nz v r c srt cr]. cbn. intros ->.
  destruct srt; eexists; split; reflexivity.
Qed.

(** X6.  [transpose] takes its argument by value.  For a matrix that owns
    its arrays, the copy that is the parameter owns them too and frees
    them when the function returns: the view that is returned holds the
    addresses of three arrays that are no longer allocated. *)
Theorem transpose_of_owner_dangles S h :
  own_memory S = true →
  ∃ St h', transpose S h = Ok (St, h')
           ∧ own_memory St = false
           ∧ vals St = vals S ∧ rows St = cols S ∧ cols St = rows S
           ∧ cells_T h' !! vals St = None
           ∧ cells_i h' !! rows St = None
           ∧ cells_i h' !! cols St = None.
Proof.
  destruct S as [nr nc ib own nz v r c srt cr]. cbn. intros ->.
  eexists _, _. split; [reflexivity|]. cbn.
  repeat split.
  - apply lookup_delete_eq.
  - apply lookup_delete_eq.
  - destruct (decide (c = r)) as [->|Hne]; [apply lookup_delete_eq|].
    rewrite lookup_delete_ne by done. apply lookup_delete_eq.
Qed.
End transpose_facts.

Lemma transpose_twice_witness :
  own_memory examples.S_csr = false
  ∧ ∃ St, transpose examples.S_csr examples.h_csr = Ok (St, examples.h_csr)
          ∧ transpose St examples.h_csr = Ok (examples.S_csr, examples.h_csr).
Proof.
  split; [reflexivity|].
  apply (transpose_twice examples.S_csr examples.h_csr). reflexivity.
Defined.

Lemma transpose_of_owner_dangles_witness :
  let S := mkCOOMatrix 2 2 IndexBase.Zero true 2 1%nat 2%nat 3%nat
                       NonzeroSort.CSR false in
  own_memory S = true
  ∧ ∃ St h', transpose S examples.h_csr = Ok (St, h')
             ∧ own_memory St = false
             ∧ vals St = vals S ∧ rows St = cols S ∧ cols St = rows S
             ∧ cells_T h' !! vals St = None
             ∧ cells_i h' !! rows St = None
             ∧ cells_i h' !! cols St = None.
Proof.
  cbv zeta. split; [reflexivity|].
  apply (transpose_of_owner_dangles
           (mkCOOMatrix 2 2 IndexBase.Zero true 2 1%nat 2%nat 3%nat
                        NonzeroSort.CSR false) examples.h_csr).
  reflexivity.
Defined.

(** ** Copies of a random state *)

(** X7.  The copy constructor of [RNGState] gives a state with the
    lengths and all the counter and key words of the state it copies,
    whatever the new arrays held, for a state whose arrays have [len_c]
    and [len_k] words (as the constructors make them). *)
Theorem RNGState_copy_equal (s : base.RNGState) (junk_c junk_k : nat → Z) :
  length (base.ctr s) = Z.to_nat (base.len_c s) →
  length (base.key s) = Z.to_nat (base.len_k s) →
  base.RNGState_copy s junk_c junk_k = s.
Proof.
  intros Hc Hk. destruct s as [lc lk c k]. cbn in *.
  unfold base.RNGState_copy, base.new_uint32. cbn.
  rewrite !take_ge by lia.
  rewrite !drop_ge by (rewrite length_fmap, length_seq; lia).
  by rewrite !app_nil_r.
Qed.

Lemma RNGState_copy_equal_witness :
  let s := base.RNGState_new 7 9 examples.junk examples.junk in
  length (base.ctr s) = Z.to_nat (base.len_c s)
  ∧ length (base.key s) = Z.to_nat (base.len_k s)
  ∧ base.RNGState_copy s (λ _, 0) (λ _, 0) = s.
Proof.
  cbv zeta. split; [reflexivity|]. split; [reflexivity|].
  apply RNGState_copy_equal; reflexivity.
Defined.

(** ** The overloads of [sketch_general] on a whole dense operator *)

Section sketch_general_facts.
Context {T DenseDist RNGState : Type}.
Variable gemm :
  blas.Layout → blas.Op → blas.Op → Z → Z → Z → T → dense.ptr T → Z →
  dense.ptr T → Z → T → list T → Z → list T.
Variable submatrix_as_blackbox :
  DenseSkOp.t T DenseDist RNGState → Z → Z → Z → Z → BLASFriendlyOperator.t T.

Lemma require_eqb_ok {A} (x y : Z) (k : outcome A) :
  x = y → (randblas_require (x =? y);; k) = k.
Proof. intros ->. by rewrite Z.eqb_refl. Qed.

Lemma require_eqb_throw {A} (x y : Z) (k : outcome A) :
  x ≠ y → (randblas_require (x =? y);; k) = Throw.
Proof. intros H. by destruct (Z.eqb_spec x y). Qed.

Lemma require_geb_ok {A} (x y : Z) (k : outcome A) :
  y ≤ x → (randblas_require (x >=? y);; k) = k.
Proof. intros H. by destruct (Z.geb_spec x y); [|lia]. Qed.

Lemma require_geb_throw {A} (x y : Z) (k : outcome A) :
  x < y → (randblas_require (x >=? y);; k) = Throw.
Proof. intros H. by destruct (Z.geb_spec x y); [lia|]. Qed.

(** X8.  The overloads of [sketch_general] that apply a whole operator,
    on a materialized [DenseSkOp]: the call throws unless the declared
    shape of the operator is exactly the shape that [op(S)] needs and
    the leading dimensions of [A] and [B] reach the minor-axis extents of
    the operands; when it does not throw, it is one GEMM call on the
    buffer of the operator from its first cell, with the leading
    dimension of the operator's own layout and the transposition flag
    flipped when that layout differs from [layout]. *)
Theorem sketch_general_whole_operator layout opS opA d n m alpha
    (S : DenseSkOp.t T DenseDist RNGState) (buf : list T) A lda beta B ldb :
  DenseSkOp.buff S = Some buf →
  let opS' :=
    if decide (DenseSkOp.layout S ≠ layout) then dense.flip opS else opS in
  let lds :=
    dense.minor_extent (DenseSkOp.layout S)
                       (DenseSkOp.n_rows S) (DenseSkOp.n_cols S) in
  let lda_ok :=
    dense.minor_extent layout (dense.dims_before_op m n opA).1
                              (dense.dims_before_op m n opA).2 ≤ lda in
  randblas.sketch_general_left gemm submatrix_as_blackbox layout opS opA d n m
    alpha S A lda beta B ldb
  = (if decide ((DenseSkOp.n_rows S, DenseSkOp.n_cols S)
                = dense.dims_before_op d m opS
                ∧ lda_ok ∧ dense.minor_extent layout d n ≤ ldb)
     then Ok (gemm layout opS' opA d n m alpha (buf, 0) lds (A, 0) lda beta B ldb)
     else Throw)
  ∧ randblas.sketch_general_right gemm submatrix_as_blackbox layout opA opS m d n
      alpha A lda S beta B ldb
    = (if decide ((DenseSkOp.n_rows S, DenseSkOp.n_cols S)
                  = dense.dims_before_op n d opS
                  ∧ lda_ok ∧ dense.minor_extent layout m d ≤ ldb)
       then Ok (gemm layout opA opS' m d n alpha (A, 0) lda (buf, 0) lds beta B ldb)
       else Throw).
Proof.
  intros Hbuf. cbv zeta.
  unfold randblas.sketch_general_left, randblas.sketch_general_right,
    randblas.sketch_general_left_sub, randblas.sketch_general_right_sub,
    dense.lskge3, dense.rskge3, dense.lskge3_materialized,
    dense.rskge3_materialized.
  rewrite Hbuf.
  destruct S as [dist seed nr nc Sl Sb]. cbn [DenseSkOp.n_rows DenseSkOp.n_cols
    DenseSkOp.layout DenseSkOp.buff] in *. subst Sb.
  split.
  all: destruct opS, opA, layout, Sl; cbn.
  all: repeat (match goal with
               | |- context [@decide ?P ?i] =>
                   lazymatch P with
                   | _ ∧ _ => fail
                   | _ => destruct (@decide P i)
                   end
               end; try congruence).
  all: repeat match goal with
              | |- context [?x >=? ?y] => destruct (Z.geb_spec x y); cbn
              | |- context [?x =? ?y] => destruct (Z.eqb_spec x y); cbn
              end.
  all: rewrite ?Z.mul_0_r; cbn.
  all: match goal with
       | |- _ = (if decide ?P then _ else _) =>
           destruct (decide P) as [(Hshape & Hlda & Hldb)|Hno]
       end.
  all: try reflexivity.
  all: try (exfalso; apply Hno; repeat split; solve [congruence | lia]).
  all: cbn in Hshape, Hlda, Hldb; injection Hshape as ? ?; lia.
Qed.
(** X9.  The same overloads on a [DenseSkOp] that is not materialized:
    a declared shape other than the shape that [op(S)] needs makes the
    call throw before any entry is generated; otherwise the window that
    is generated is the whole operator, at offset [(0, 0)], and the call
    goes on as for a [BLASFriendlyOperator]. *)
Theorem sketch_general_unmaterialized layout opS opA d n m alpha
    (S : DenseSkOp.t T DenseDist RNGState) A lda beta B ldb :
  DenseSkOp.buff S = None →
  let whole :=
    submatrix_as_blackbox S (DenseSkOp.n_rows S) (DenseSkOp.n_cols S) 0 0 in
  randblas.sketch_general_left gemm submatrix_as_blackbox layout opS opA d n m
    alpha S A lda beta B ldb
  = (if decide ((DenseSkOp.n_rows S, DenseSkOp.n_cols S)
                = dense.dims_before_op d m opS)
     then dense.lskge3_blackbox gemm layout opS opA d n m alpha whole 0 0
            A lda beta B ldb
     else Throw)
  ∧ randblas.sketch_general_right gemm submatrix_as_blackbox layout opA opS m d n
      alpha A lda S beta B ldb
    = (if decide ((DenseSkOp.n_rows S, DenseSkOp.n_cols S)
                  = dense.dims_before_op n d opS)
       then dense.rskge3_blackbox gemm layout opA opS m d n alpha A lda whole 0 0
              beta B ldb
       else Throw).
Proof.
  intros Hbuf. cbv zeta.
  unfold randblas.sketch_general_left, randblas.sketch_general_right,
    randblas.sketch_general_left_sub, randblas.sketch_general_right_sub,
    dense.lskge3, dense.rskge3.
  rewrite Hbuf.
  destruct S as [dist seed nr nc Sl Sb]. cbn [DenseSkOp.n_rows DenseSkOp.n_cols
    DenseSkOp.layout DenseSkOp.buff] in *. subst Sb.
  split.
  all: destruct opS; cbn [dense.dims_before_op].
  all: match goal with
       | |- context [decide (?a = blas.NoTrans)] =>
           destruct (decide (a = blas.NoTrans)); try congruence
       end.
  all: match goal with
       | |- _ = (if decide ?P then _ else _) =>
           destruct (decide P) as [Hshape|Hno]
       end.
  all: try (injection Hshape as -> ->; rewrite !Z.eqb_refl; reflexivity).
  all: repeat match goal with
              | |- context [?x =? ?y] => destruct (Z.eqb_spec x y)
              end; try reflexivity.
  all: exfalso; apply Hno; congruence.
Qed.

End sketch_general_facts.

Lemma sketch_general_whole_operator_witness :
  let gemmZ := dense.gemm_model 0 Z.add Z.mul in
  let sab := dense.submatrix_as_blackbox_model examples.dense_entry in
  let S := DenseSkOp.mk Z unit unit () () 2 3 blas.ColMajor
                        (Some [1; 2; 3; 4; 5; 6]) in
  DenseSkOp.buff S = Some [1; 2; 3; 4; 5; 6]
  ∧ randblas.sketch_general_left gemmZ sab blas.ColMajor blas.NoTrans blas.NoTrans
      2 1 3 1 S [1; 1; 1] 3 0 [0; 0] 2 = Ok [9; 12]
  ∧ randblas.sketch_general_right gemmZ sab blas.ColMajor blas.NoTrans blas.NoTrans
      1 3 2 1 [1; 1] 1 S 0 [0; 0; 0] 1 = Ok [3; 7; 11]
  ∧ randblas.sketch_general_left gemmZ sab blas.ColMajor blas.Trans blas.NoTrans
      2 1 3 1 S [1; 1; 1] 3 0 [0; 0] 2 = Throw.
Proof.
  cbv zeta. split; [reflexivity|].
  destruct (sketch_general_whole_operator
              (dense.gemm_model 0 Z.add Z.mul)
              (dense.submatrix_as_blackbox_model examples.dense_entry)
              blas.ColMajor blas.NoTrans blas.NoTrans 2 1 3 1
              (DenseSkOp.mk Z unit unit () () 2 3 blas.ColMajor
                            (Some [1; 2; 3; 4; 5; 6]))
              [1; 2; 3; 4; 5; 6] [1; 1; 1] 3 0 [0; 0] 2 eq_refl) as [H1 _].
  split; [rewrite H1; reflexivity|].
  split; reflexivity.
Defined.

Lemma sketch_general_unmaterialized_witness :
  let gemmZ := dense.gemm_model 0 Z.add Z.mul in
  let sab := dense.submatrix_as_blackbox_model examples.dense_entry in
  let S := examples.S_dense blas.ColMajor in
  DenseSkOp.buff S = None
  ∧ randblas.sketch_general_left gemmZ sab blas.ColMajor blas.NoTrans blas.NoTrans
      2 1 3 1 S [1; 1; 1] 3 0 [0; 0] 2
    = dense.lskge3_blackbox gemmZ blas.ColMajor blas.NoTrans blas.NoTrans
        2 1 3 1 (sab S 2 3 0 0) 0 0 [1; 1; 1] 3 0 [0; 0] 2.
Proof.
  cbv zeta. split; [reflexivity|].
  destruct (sketch_general_unmaterialized
              (dense.gemm_model 0 Z.add Z.mul)
              (dense.submatrix_as_blackbox_model examples.dense_entry)
              blas.ColMajor blas.NoTrans blas.NoTrans 2 1 3 1
              (examples.S_dense blas.ColMajor)
              [1; 1; 1] 3 0 [0; 0] 2 eq_refl) as [H1 _].
  rewrite H1. reflexivity.
Defined.

(** ** Matrices built from a diagonal *)

Ltac list_len :=
  repeat (progress rewrite ?length_app, ?length_take, ?length_drop, ?length_fmap,
            ?length_seqZ, ?length_seq, ?length_replicate, ?length_insert).

Section diagonal_loops.
Context {T : Type}.

(** The loop of [csr_from_diag] and of [coo_from_diag]: cell [ell] of the
    two index arrays gets [f1 ell] and [f2 ell], cell [ell] of the value
    array gets [vals[ell]]. *)
Lemma diag_loop (f1 f2 : Z → Z) (vals : list T) n (a1 a2 : list Z) (a3 : list T) :
  0 ≤ n →
  n ≤ Z.of_nat (length a1) → n ≤ Z.of_nat (length a2) →
  n ≤ Z.of_nat (length a3) → n ≤ Z.of_nat (length vals) →
  for_range 0 n
    (λ ell '(a1, a2, a3),
       a1 ← wr a1 ell (f1 ell);
       a2 ← wr a2 ell (f2 ell);
       v ← rd vals ell;
       a3 ← wr a3 ell v;
       mret (a1, a2, a3))
    (a1, a2, a3)
  = Ok ((f1 <$> seqZ 0 n) ++ drop (Z.to_nat n) a1,
        (f2 <$> seqZ 0 n) ++ drop (Z.to_nat n) a2,
        take (Z.to_nat n) vals ++ drop (Z.to_nat n) a3).
Proof.
  intros Hn H1 H2 H3 Hv.
  set (F1 := f1 <$> seqZ 0 n). set (F2 := f2 <$> seqZ 0 n).
  assert (length F1 = Z.to_nat n) as HF1
    by (unfold F1; by rewrite length_fmap, length_seqZ).
  assert (length F2 = Z.to_nat n) as HF2
    by (unfold F2; by rewrite length_fmap, length_seqZ).
  match goal with
  | |- for_range 0 n ?body _ = _ =>
      destruct (for_range_total
                  (λ j (st : list Z * list Z * list T),
                     st.1.1 = take (Z.to_nat j) F1 ++ drop (Z.to_nat j) a1
                     ∧ st.1.2 = take (Z.to_nat j) F2 ++ drop (Z.to_nat j) a2
                     ∧ st.2 = take (Z.to_nat j) vals ++ drop (Z.to_nat j) a3)
                  body 0 n (a1, a2, a3))
        as ([[b1 b2] b3] & -> & E1 & E2 & E3); [done | done | |]
  end.
  - intros j [[c1 c2] c3] Hj (Ec1 & Ec2 & Ec3). cbn [fst snd] in *. subst c1 c2 c3.
    destruct (rd_in_range vals j) as (v & Ev & Hrd); [lia|].
    rewrite !wr_Ok by (rewrite length_app, length_take, length_drop; lia).
    cbn. rewrite Hrd. cbn.
    rewrite wr_Ok by (rewrite length_app, length_take, length_drop; lia).
    cbn. eexists. split; [reflexivity|]. cbn [fst snd].
    replace (Z.to_nat (j + 1)) with (Datatypes.S (Z.to_nat j)) by lia.
    rewrite !insert_next_cell; [done | done | lia | | lia | | lia].
    + unfold F2. rewrite list_lookup_fmap, lookup_seqZ_lt by lia.
      cbn. do 2 f_equal. lia.
    + unfold F1. rewrite list_lookup_fmap, lookup_seqZ_lt by lia.
      cbn. do 2 f_equal. lia.
  - cbn [fst snd] in E1, E2, E3. subst b1 b2 b3.
    rewrite !(take_ge F1), !(take_ge F2) by lia. done.
Qed.

(** A loop that stores one value in the cells [lo, hi). *)
Lemma fill_loop {A} (c : A) lo hi (a : list A) :
  0 ≤ lo → lo ≤ hi → hi ≤ Z.of_nat (length a) →
  for_range lo hi (λ ell a, wr a ell c) a
  = Ok (take (Z.to_nat lo) a ++ replicate (Z.to_nat (hi - lo)) c
        ++ drop (Z.to_nat hi) a).
Proof.
  intros Hlo Hle Hhi.
  destruct (for_range_total
              (λ j (b : list A),
                 b = take (Z.to_nat lo) a ++ replicate (Z.to_nat (j - lo)) c
                     ++ drop (Z.to_nat j) a)
              (λ ell a, wr a ell c) lo hi a) as (b & -> & ->); [done | | | done].
  - rewrite Z.sub_diag. change (replicate (Z.to_nat 0) c) with (@nil A).
    by rewrite app_nil_l, take_drop.
  - intros j b Hj ->.
    rewrite wr_Ok
      by (rewrite !length_app, length_take, length_replicate, length_drop; lia).
    eexists. split; [reflexivity|].
    replace (Z.to_nat j) with (length (take (Z.to_nat lo) a) + Z.to_nat (j - lo))%nat
      at 1 by (rewrite length_take; lia).
    rewrite insert_app_r.
    replace (Z.to_nat (j - lo)) with (length (replicate (Z.to_nat (j - lo)) c) + 0)%nat
      at 1 by (rewrite length_replicate; lia).
    rewrite insert_app_r.
    destruct (lookup_lt_is_Some_2 a (Z.to_nat j)) as [y Hy]; [lia|].
    rewrite (drop_S _ _ _ Hy). cbn.
    replace (Z.to_nat (j + 1 - lo)) with (Datatypes.S (Z.to_nat (j - lo))) by lia.
    rewrite replicate_S_end, <- !app_assoc. cbn.
    by replace (Z.to_nat (j + 1)) with (Datatypes.S (Z.to_nat j)) by lia.
Qed.
End diagonal_loops.

Section from_diag.
Context {T : Type}.
Implicit Types (h : heap T).

Lemma csr_reserve_Ok (M : csr.CSRMatrix) n (jp jc : nat → Z) (jv : nat → T) h :
  csr._can_reserve M = true → csr.own_memory M = true →
  0 ≤ n → 0 ≤ csr.n_rows M + 1 →
  ∃ M' h1,
    csr.reserve M n jp jc jv h = Ok (M', h1)
    ∧ M' = csr.mkCSRMatrix (csr.n_rows M) (csr.n_cols M) (csr.index_base M) true n
                           (csr.vals M') (csr.rowptr M') (csr.colidxs M') false
    ∧ view_i h1 (csr.rowptr M') = jp <$> seq 0 (Z.to_nat (csr.n_rows M + 1))
    ∧ view_i h1 (csr.colidxs M') = jc <$> seq 0 (Z.to_nat n)
    ∧ view_T h1 (csr.vals M') = jv <$> seq 0 (Z.to_nat n)
    ∧ csr.rowptr M' ≠ csr.colidxs M'.
Proof.
  intros Hcr Hown Hn Hrows. unfold csr.reserve.
  rewrite !prog_bind_eq. unfold lift, randblas_require. rewrite Hcr, Hown.
  rewrite !prog_bind_eq. unfold new_i at 1.
  destruct (Z.ltb_spec (csr.n_rows M + 1) 0); [lia|].
  unfold new_i, new_T. cbn.
  destruct (Z.ltb_spec n 0); [lia|]. cbn.
  eexists _, _. split; [reflexivity|]. cbn. unfold view_T, view_i. cbn.
  rewrite lookup_insert_eq.
  rewrite lookup_insert_ne by lia. rewrite !lookup_insert_eq. cbn.
  repeat split; try done; lia.
Qed.


(** What [csr_from_diag] leaves for an offset [>= 0]. *)
Lemma csr_from_diag_Ok (vals : list T) nnz offset
    (M : csr.CSRMatrix) (jp jc : nat → Z) (jv : nat → T) h :
  csr._can_reserve M = true → csr.own_memory M = true →
  0 ≤ offset → 0 ≤ nnz → nnz ≤ csr.n_rows M → nnz ≤ Z.of_nat (length vals) →
  ∃ M' h',
    csr.csr_from_diag vals nnz offset M jp jc jv h = Ok (M', h')
    ∧ csr.n_rows M' = csr.n_rows M ∧ csr.n_cols M' = csr.n_cols M
    ∧ csr.index_base M' = csr.index_base M
    ∧ csr.nnz M' = nnz
    ∧ view_i h' (csr.rowptr M')
      = seqZ 0 nnz ++ replicate (Z.to_nat (csr.n_rows M + 1 - nnz)) nnz
    ∧ view_i h' (csr.colidxs M') = (λ ell, ell + offset) <$> seqZ 0 nnz
    ∧ view_T h' (csr.vals M') = take (Z.to_nat nnz) vals.
Proof.
  intros Hcr Hown Hoff Hn Hrows Hvals.
  destruct (csr_reserve_Ok M nnz jp jc jv h)
    as (M' & h1 & E & HM' & Hp & Hc & Hv & Hne); [done | done | lia | lia |].
  unfold csr.csr_from_diag. rewrite prog_bind_eq, E.
  do 3 prog_step. rewrite Hp, Hc, Hv.
  assert (csr.n_rows M' = csr.n_rows M) as Hnr by (by rewrite HM').
  rewrite prog_bind_eq. unfold lift.
  destruct (Z.geb_spec offset 0); [|lia].
  unfold randblas_require. rewrite Hnr.
  destruct (Z.leb_spec nnz (csr.n_rows M)); [|lia]. cbn [mbind outcome_bind].
  pose proof (diag_loop (λ e, e) (λ e, e + offset) vals nnz
                (jp <$> seq 0 (Z.to_nat (csr.n_rows M + 1)))
                (jc <$> seq 0 (Z.to_nat nnz))
                (jv <$> seq 0 (Z.to_nat nnz))) as Hloop.
  cbn beta in Hloop. rewrite Hloop;
    [|done | list_len; lia..| done].
  clear Hloop.
  rewrite prog_bind_eq.
  rewrite Z.max_r by lia.
  rewrite fill_loop;
    [|lia | lia | list_len; lia].
  set (p' := take _ _ ++ replicate _ _ ++ drop _ _).
  set (c' := _ ++ drop _ (jc <$> _)).
  set (v' := _ ++ drop _ (jv <$> _)).
  assert (p' = seqZ 0 nnz ++ replicate (Z.to_nat (csr.n_rows M + 1 - nnz)) nnz)
    as Hp'.
  { unfold p'. rewrite take_app_length' by (by rewrite length_fmap, length_seqZ).
    rewrite list_fmap_id.
    rewrite drop_ge, app_nil_r; [done|].
    list_len. lia. }
  assert (c' = (λ ell, ell + offset) <$> seqZ 0 nnz) as Hc'.
  { unfold c'. rewrite drop_ge, app_nil_r; [done|].
    list_len. lia. }
  assert (v' = take (Z.to_nat nnz) vals) as Hv'.
  { unfold v'. rewrite drop_ge, app_nil_r; [done|].
    list_len. lia. }
  clearbody p' c' v'. subst p' c' v'.
  destruct (store_i_view h1 (csr.rowptr M')
              (seqZ 0 nnz ++ replicate (Z.to_nat (csr.n_rows M + 1 - nnz)) nnz))
    as (h2 & E2 & Hv2 & Hf2 & Hi2).
  { rewrite Hp. list_len. lia. }
  destruct (store_i_view h2 (csr.colidxs M') ((λ ell, ell + offset) <$> seqZ 0 nnz))
    as (h3 & E3 & Hv3 & Hf3 & Hi3).
  { rewrite Hf2 by done. rewrite Hc. list_len. done. }
  destruct (store_T_view h3 (csr.vals M') (take (Z.to_nat nnz) vals))
    as (h4 & E4 & Hv4 & Hf4 & Hi4).
  { rewrite Hi3, Hi2, Hv. list_len. lia. }
  unfold lift. cbn beta iota.
  rewrite prog_bind_eq, E2. rewrite prog_bind_eq, E3. rewrite prog_bind_eq, E4.
  exists M', h4. split; [reflexivity|].
  rewrite Hv4, !Hi4, Hv3, (Hf3 (csr.rowptr M')), Hv2 by done.
  rewrite HM'. cbn. done.
Qed.

End from_diag.



(** ** The diagonal of signs *)

Section diagonal_facts.
Context {T : Type} (Tmul : T → T → T) (of_int : Z → T).

(** [blas::scal] with increment 1 multiplies the first [n] cells. *)
Lemma scal_unit_stride n alpha (x : list T) :
  0 ≤ n → n ≤ Z.of_nat (length x) →
  blas.scal Tmul n alpha x 1
  = Ok ((Tmul alpha <$> take (Z.to_nat n) x) ++ drop (Z.to_nat n) x).
Proof.
  intros Hn Hlen. unfold blas.scal.
  set (new := Tmul alpha <$> x).
  match goal with
  | |- for_range 0 n ?body _ = _ =>
      destruct (for_range_total
                  (λ j (y : list T),
                     y = take (Z.to_nat j) new ++ drop (Z.to_nat j) x)
                  body 0 n x) as (y & -> & ->); [done | done | |]
  end.
  - intros j y Hj ->.
    destruct (lookup_lt_is_Some_2 x (Z.to_nat j)) as [xj Hxj]; [lia|].
    assert (length new = length x) as Hnew by (unfold new; by list_len).
    rewrite (rd_Ok _ _ xj); [|lia|].
    2:{ rewrite lookup_app_r by (list_len; lia).
        rewrite lookup_drop. rewrite <- Hxj. f_equal. list_len. lia. }
    cbn. rewrite wr_Ok by (list_len; lia).
    eexists. split; [reflexivity|].
    replace (Z.to_nat (j * 1)) with (Z.to_nat j) by lia.
    replace (Z.to_nat (j + 1)) with (Datatypes.S (Z.to_nat j)) by lia.
    apply insert_next_cell; [|lia].
    unfold new. by rewrite list_lookup_fmap, Hxj.
  - unfold new. by rewrite fmap_take.
Qed.

(** The column of the cell at position [i + j * rows]. *)
Lemma scaled_cell_eq rows (i j : Z) :
  0 ≤ i < rows → 0 ≤ j → (i + j * rows) `div` rows = j.
Proof.
  intros Hi Hj. rewrite Z.div_add by lia. rewrite Z.div_small by lia. lia.
Qed.

(** X12.  [applyDiagonalRademacher(rows, cols, A, diag)] on a
    column-major [rows]-by-[cols] matrix returns normally, leaves every
    column whose entry of [diag] is positive as it is (whatever the
    entry), multiplies every other column by its entry of [diag], and
    touches no cell after the matrix. *)
Theorem applyDiagonalRademacher_columns rows cols (A : list T) (diag : list Z) :
  0 ≤ rows → 0 ≤ cols → cols ≤ cint.int_max →
  cols ≤ Z.of_nat (length diag) → rows * cols ≤ Z.of_nat (length A) →
  ∃ A', trig.applyDiagonalRademacher Tmul of_int rows cols A diag = Ok A'
        ∧ length A' = length A
        ∧ (∀ i j d a,
             0 ≤ i < rows → 0 ≤ j < cols →
             diag !! Z.to_nat j = Some d →
             A !! Z.to_nat (i + j * rows) = Some a →
             A' !! Z.to_nat (i + j * rows)
             = Some (if d >? 0 then a else Tmul (of_int d) a))
        ∧ (∀ k : nat, (Z.to_nat (rows * cols) ≤ k)%nat → A' !! k = A !! k).
Proof.
  intros Hrows Hcols Hint Hdiag HA.
  unfold trig.applyDiagonalRademacher.
  destruct (Z.gtb_spec cols cint.int_max); [lia|].
  set (g := λ (k : nat) (a : T),
              match diag !! Z.to_nat (Z.of_nat k `div` rows) with
              | Some d => if d >? 0 then a else Tmul (of_int d) a
              | None => a
              end).
  match goal with
  | |- context [for_range 0 cols ?body A] =>
      destruct (for_range_total
                  (λ col (B : list T),
                     length B = length A
                     ∧ ∀ k : nat,
                         B !! k = (if Z.of_nat k <? col * rows then g k else id)
                                  <$> A !! k)
                  body 0 cols A) as (A' & -> & Hlen & HA'); [done | | |]
  end.
  - split; [done|]. intros k. rewrite Z.mul_0_l.
    destruct (Z.ltb_spec (Z.of_nat k) 0); [lia|]. by rewrite option_fmap_id.
  - intros col B Hcol (HlenB & HB).
    destruct (rd_in_range diag col) as (d & Hd & ->); [lia|]. cbn.
    assert (0 ≤ col * rows ∧ col * rows + rows ≤ Z.of_nat (length A)) as Hoff by nia.
    assert (∀ k : nat, col * rows ≤ Z.of_nat k < col * rows + rows →
                       Z.of_nat k `div` rows = col) as Hdiv.
    { intros k Hk. symmetry. apply (Z.div_unique _ _ _ (Z.of_nat k - col * rows)); lia. }
    destruct (Z.gtb_spec d 0) as [Hpos|Hneg].
    + eexists. split; [reflexivity|]. split; [done|].
      intros k. rewrite HB.
      destruct (Z.ltb_spec (Z.of_nat k) (col * rows)),
               (Z.ltb_spec (Z.of_nat k) ((col + 1) * rows)); try done; try lia.
      destruct (A !! k) as [a|]; [|done]. cbn. unfold g.
      rewrite Hdiv by lia. rewrite Hd.
      destruct (Z.gtb_spec d 0); [done|lia].
    + unfold trig.at_offset.
      destruct (Z.ltb_spec (col * rows) 0); [lia|].
      destruct (Z.ltb_spec (Z.of_nat (length B)) (col * rows)); [lia|]. cbn.
      rewrite scal_unit_stride by (list_len; lia). cbn.
      eexists. split; [reflexivity|]. split; [list_len; lia|].
      intros k.
      destruct (Z.ltb_spec (Z.of_nat k) ((col + 1) * rows)) as [Hk|Hk].
      * destruct (Z.ltb_spec (Z.of_nat k) (col * rows)) as [Hk'|Hk'].
        -- rewrite lookup_app_l by (list_len; lia).
           rewrite lookup_take_lt by lia. rewrite HB.
           destruct (Z.ltb_spec (Z.of_nat k) (col * rows)); [done|lia].
        -- rewrite lookup_app_r by (list_len; lia).
           rewrite lookup_app_l by (list_len; lia).
           rewrite list_lookup_fmap, lookup_take_lt by (list_len; lia).
           rewrite lookup_drop.
           replace (Z.to_nat (col * rows)
                    + (k - length (take (Z.to_nat (col * rows)) B)))%nat
             with k by (list_len; lia).
           rewrite HB.
           destruct (Z.ltb_spec (Z.of_nat k) (col * rows)); [lia|].
           destruct (A !! k) as [a|]; [|done]. cbn. unfold g.
           rewrite Hdiv by lia. rewrite Hd.
           destruct (Z.gtb_spec d 0); [lia|done].
      * rewrite lookup_app_r by (list_len; lia).
        rewrite lookup_app_r by (list_len; lia).
        rewrite !lookup_drop.
        match goal with
        | |- B !! ?k' = _ => replace k' with k by (list_len; lia)
        end.
        rewrite HB.
        destruct (Z.ltb_spec (Z.of_nat k) (col * rows)); [lia|done].
  - exists A'. split; [done|]. split; [done|]. split.
    + intros i j d a Hi Hj Hd Ha. rewrite HA', Ha. cbn.
      destruct (Z.ltb_spec (Z.of_nat (Z.to_nat (i + j * rows))) (cols * rows));
        [|nia].
      unfold g. rewrite Z2Nat.id by nia.
      rewrite (scaled_cell_eq rows i j) by (done || lia). by rewrite Hd.
    + intros k Hk. rewrite HA'.
      destruct (Z.ltb_spec (Z.of_nat k) (cols * rows)); [lia|].
      by rewrite option_fmap_id.
Qed.
End diagonal_facts.

Lemma applyDiagonalRademacher_columns_witness :
  let A := [1; 2; 3; 4; 5; 6; 7] in
  let diag := [-1; 3; 0] in
  0 ≤ 2 ∧ 0 ≤ 3 ∧ 3 ≤ cint.int_max
  ∧ 3 ≤ Z.of_nat (length diag) ∧ 2 * 3 ≤ Z.of_nat (length A)
  ∧ trig.applyDiagonalRademacher Z.mul id 2 3 A diag = Ok [-1; -2; 3; 4; 0; 0; 7]
  ∧ ∃ A', trig.applyDiagonalRademacher Z.mul id 2 3 A diag = Ok A'
          ∧ length A' = length A
          ∧ (∀ i j d a,
               0 ≤ i < 2 → 0 ≤ j < 3 →
               diag !! Z.to_nat j = Some d →
               A !! Z.to_nat (i + j * 2) = Some a →
               A' !! Z.to_nat (i + j * 2)
               = Some (if d >? 0 then a else Z.mul (id d) a))
          ∧ (∀ k : nat, (Z.to_nat (2 * 3) ≤ k)%nat → A' !! k = A !! k).
Proof.
  cbv zeta. do 2 (split; [lia|]). split; [unfold cint.int_max; lia|].
  do 2 (split; [cbn; lia|]). split; [reflexivity|].
  apply (applyDiagonalRademacher_columns Z.mul id 2 3
           [1; 2; 3; 4; 5; 6; 7] [-1; 3; 0]);
    [lia | lia | unfold cint.int_max; lia | cbn; lia | cbn; lia].
Defined.

(** ** From CSR to dense *)

(** A loop whose pass [ell] stores [val ell] in cell [pos ell]: a cell
    that no pass stores to is as before, and a cell holds the value of
    the last pass that stored to it. *)
Lemma writes_loop {A} lo hi (body : Z → list A → outcome (list A))
    (pos : Z → Z) (val : Z → A) (m0 : list A) :
  (∀ ell, lo ≤ ell < hi → 0 ≤ pos ell < Z.of_nat (length m0)) →
  (∀ ell m, lo ≤ ell < hi → length m = length m0 →
            body ell m = Ok (<[Z.to_nat (pos ell) := val ell]> m)) →
  ∃ m, for_range lo hi body m0 = Ok m
       ∧ length m = length m0
       ∧ (∀ k : nat, (∀ ell, lo ≤ ell < hi → Z.to_nat (pos ell) ≠ k) →
                     m !! k = m0 !! k)
       ∧ (∀ ell, lo ≤ ell < hi →
                 (∀ ell', ell < ell' < hi → pos ell' ≠ pos ell) →
                 m !! Z.to_nat (pos ell) = Some (val ell)).
Proof.
  intros Hpos Hbody.
  destruct (Z.le_gt_cases lo hi) as [Hle|Hgt].
  2:{ exists m0. rewrite for_range_empty by lia.
      split; [done|]. split; [done|]. split; [done|]. intros ell Hell. lia. }
  destruct (for_range_total
              (λ j (m : list A),
                 length m = length m0
                 ∧ (∀ k : nat, (∀ ell, lo ≤ ell < j → Z.to_nat (pos ell) ≠ k) →
                               m !! k = m0 !! k)
                 ∧ (∀ ell, lo ≤ ell < j →
                           (∀ ell', ell < ell' < j → pos ell' ≠ pos ell) →
                           m !! Z.to_nat (pos ell) = Some (val ell)))
              body lo hi m0) as (m & E & Hm); [done | | | by exists m].
  - split; [done|]. split; [done|]. intros ell Hell. lia.
  - intros j m Hj (Hlen & Hframe & Hlast).
    rewrite Hbody by done. eexists. split; [reflexivity|].
    split; [by rewrite length_insert|]. split.
    + intros k Hk. rewrite list_lookup_insert_ne by (apply Hk; lia).
      apply Hframe. intros ell Hell. apply Hk. lia.
    + intros ell Hell Hlater.
      destruct (decide (ell = j)) as [->|Hne].
      * apply list_lookup_insert_eq. specialize (Hpos j Hj). lia.
      * rewrite list_lookup_insert_ne.
        -- apply Hlast; [lia|]. intros ell' Hell'. apply Hlater. lia.
        -- specialize (Hlater j ltac:(lia)).
           pose proof (Hpos j Hj). pose proof (Hpos ell ltac:(lia)). lia.
Qed.

Section csr_to_dense_facts.
Context {T : Type} (T0 : T).
Variables (P C : list Z) (V : list T) (nr nc sr sc : Z) (ib : IndexBase.t).
Variable mat : list T.

Local Abbreviation idx := (λ i j : Z, i * sr + j * sc).
Local Abbreviation bz := (csr.base_of ib).

Hypothesis Hnr : 0 ≤ nr.
Hypothesis Hnc : 0 ≤ nc ≤ cint.int_max.
Hypothesis HP : nr + 1 ≤ Z.of_nat (length P).
Hypothesis Hrows :
  ∀ i ell, 0 ≤ i < nr → csr.in_row P i ell →
    0 ≤ ell < Z.of_nat (length C) ∧ ell < Z.of_nat (length V)
    ∧ ∀ c, C !! Z.to_nat ell = Some c → 0 ≤ c - bz < nc.
Hypothesis Hbounds :
  ∀ i j, 0 ≤ i < nr → 0 ≤ j < nc → 0 ≤ idx i j < Z.of_nat (length mat).
Hypothesis Hinj :
  ∀ i j i' j', 0 ≤ i < nr → 0 ≤ j < nc → 0 ≤ i' < nr → 0 ≤ j' < nc →
    idx i j = idx i' j' → i = i' ∧ j = j'.

(** The first pair of loops clears the cells of the matrix. *)
Lemma csr_to_dense_clears :
  ∃ m1,
    for_range 0 nr
      (λ i mat, for_range 0 nc (λ j mat, wr mat (i * sr + j * sc) T0) mat) mat
    = Ok m1
    ∧ length m1 = length mat
    ∧ (∀ k : nat, (∀ i j, 0 ≤ i < nr → 0 ≤ j < nc → Z.to_nat (idx i j) ≠ k) →
                  m1 !! k = mat !! k)
    ∧ (∀ i j, 0 ≤ i < nr → 0 ≤ j < nc → m1 !! Z.to_nat (idx i j) = Some T0).
Proof.
  match goal with
  | |- ∃ m1, for_range 0 nr ?body mat = _ ∧ _ =>
      destruct (for_range_total
                  (λ i (m : list T),
                     length m = length mat
                     ∧ (∀ k : nat,
                          (∀ i' j, 0 ≤ i' < i → 0 ≤ j < nc →
                                   Z.to_nat (idx i' j) ≠ k) →
                          m !! k = mat !! k)
                     ∧ (∀ i' j, 0 ≤ i' < i → 0 ≤ j < nc →
                                m !! Z.to_nat (idx i' j) = Some T0))
                  body 0 nr mat) as (m1 & E & Hlen & Hframe & Hzero);
        [done | | | ]
  end.
  - split; [done|]. split; [done|]. intros i' j Hi'. lia.
  - intros i m Hi (Hlen & Hframe & Hzero).
    destruct (writes_loop 0 nc (λ j mat, wr mat (i * sr + j * sc) T0)
                (λ j, idx i j) (λ _, T0) m) as (m' & E & Hlen' & Hframe' & Hlast').
    { intros j Hj. rewrite Hlen. by apply Hbounds. }
    { intros j m2 Hj Hm2. apply wr_Ok. rewrite Hm2, Hlen. by apply Hbounds. }
    exists m'. split; [done|]. split; [congruence|]. split.
    + intros k Hk. rewrite Hframe'.
      * apply Hframe. intros i' j Hi' Hj. apply Hk; lia.
      * intros j Hj. apply Hk; lia.
    + intros i' j Hi' Hj. destruct (decide (i' = i)) as [->|Hne].
      * apply Hlast'; [done|]. intros j' Hj' Heq.
        destruct (Hinj i j' i j) as [_ ?]; [lia..| done |lia].
      * rewrite Hframe'; [apply Hzero; lia|].
        intros j' Hj' Heq.
        pose proof (Hbounds i j' Hi Hj'). pose proof (Hbounds i' j ltac:(lia) Hj).
        destruct (Hinj i j' i' j) as [? _]; [lia..| |lia]. lia.
  - exists m1. split; [done|]. split; [done|]. split.
    + intros k Hk. apply Hframe. intros i j Hi Hj. apply Hk; lia.
    + intros i j Hi Hj. apply Hzero; lia.
Qed.
Lemma in_row_bounds i ell lo hi :
  P !! Z.to_nat i = Some lo → P !! Z.to_nat (i + 1) = Some hi →
  csr.in_row P i ell ↔ lo ≤ ell < hi.
Proof.
  intros Hlo Hhi. unfold csr.in_row. split.
  - intros (lo' & hi' & E1 & E2 & H). congruence.
  - intros H. by exists lo, hi.
Qed.

(** One pass of the loop over the entries of a row stores the value of
    the entry in the cell of its column. *)
Lemma csr_to_dense_pass i ell (m : list T) c v :
  0 ≤ i < nr → csr.in_row P i ell → length m = length mat →
  C !! Z.to_nat ell = Some c → V !! Z.to_nat ell = Some v →
  (c0 ← rd C ell;
   let j := cint.to_int c0 in
   j ← (if decide (ib = IndexBase.One) then
          if j =? cint.int_min then Undefined else mret (j - 1)
        else mret j);
   v0 ← rd V ell;
   wr m (i * sr + j * sc) v0)
  = Ok (<[Z.to_nat (idx i (c - bz)) := v]> m).
Proof.
  intros Hi Hrow Hlen Hc Hv.
  destruct (Hrows i ell Hi Hrow) as (Hell & _ & Hcol).
  specialize (Hcol c Hc).
  rewrite (rd_Ok _ _ c) by (done || lia). cbn.
  assert (0 ≤ c < 2 ^ 31) as Hc31.
  { unfold cint.int_max in Hnc. unfold csr.base_of in Hcol. destruct ib; lia. }
  assert (cint.to_int c = c) as ->.
  { unfold cint.to_int. rewrite Z.mod_small; lia. }
  assert ((if decide (ib = IndexBase.One)
           then if c =? cint.int_min then Undefined else mret (c - 1)
           else mret c) = Ok (c - bz)) as ->.
  { unfold csr.base_of in *. destruct ib; cbn.
    - destruct (decide _); [done|]. f_equal. lia.
    - destruct (decide _); [|done].
      destruct (Z.eqb_spec c cint.int_min); [unfold cint.int_min in *; lia|done]. }
  cbn. rewrite (rd_Ok _ _ v) by (done || lia). cbn.
  apply wr_Ok. rewrite Hlen. by apply Hbounds.
Qed.

(** The second pair of loops stores the entries, row by row. *)
Lemma csr_to_dense_fills (m1 : list T) :
  length m1 = length mat →
  ∃ m2,
    for_range 0 nr
      (λ i mat,
         lo ← rd P i;
         hi ← rd P (i + 1);
         for_range lo hi
           (λ ell mat,
              c ← rd C ell;
              let j := cint.to_int c in
              j ← (if decide (ib = IndexBase.One) then
                     if j =? cint.int_min then Undefined else mret (j - 1)
                   else mret j);
              v ← rd V ell;
              wr mat (i * sr + j * sc) v)
           mat)
      m1 = Ok m2
    ∧ length m2 = length mat
    ∧ (∀ k : nat,
         (∀ i ell c, 0 ≤ i < nr → csr.in_row P i ell →
                     C !! Z.to_nat ell = Some c →
                     Z.to_nat (idx i (c - bz)) ≠ k) →
         m2 !! k = m1 !! k)
    ∧ (∀ i ell c v,
         0 ≤ i < nr → csr.in_row P i ell →
         C !! Z.to_nat ell = Some c → V !! Z.to_nat ell = Some v →
         (∀ ell', csr.in_row P i ell' → ell < ell' →
                  C !! Z.to_nat ell' ≠ Some c) →
         m2 !! Z.to_nat (idx i (c - bz)) = Some v).
Proof.
  intros Hlen1.
  match goal with
  | |- ∃ m2, for_range 0 nr ?body m1 = _ ∧ _ =>
      destruct (for_range_total
                  (λ i0 (m : list T),
                     length m = length mat
                     ∧ (∀ k : nat,
                          (∀ i ell c, 0 ≤ i < i0 → csr.in_row P i ell →
                                      C !! Z.to_nat ell = Some c →
                                      Z.to_nat (idx i (c - bz)) ≠ k) →
                          m !! k = m1 !! k)
                     ∧ (∀ i ell c v,
                          0 ≤ i < i0 → csr.in_row P i ell →
                          C !! Z.to_nat ell = Some c → V !! Z.to_nat ell = Some v →
                          (∀ ell', csr.in_row P i ell' → ell < ell' →
                                   C !! Z.to_nat ell' ≠ Some c) →
                          m !! Z.to_nat (idx i (c - bz)) = Some v))
                  body 0 nr m1) as (m2 & E & Hlen & Hframe & Hlast);
        [done | | | ]
  end.
  - split; [done|]. split; [done|]. intros i ell c v Hi. lia.
  - intros i m Hi (Hlen & Hframe & Hlast).
    destruct (rd_in_range P i) as (lo & Hlo & ->); [lia|].
    destruct (rd_in_range P (i + 1)) as (hi & Hhi & ->); [lia|]. cbn.
    pose proof (in_row_bounds i) as Hin.
    assert (∀ ell, lo ≤ ell < hi →
              ∃ c v, C !! Z.to_nat ell = Some c ∧ V !! Z.to_nat ell = Some v
                     ∧ 0 ≤ c - bz < nc) as Hcell.
    { intros ell Hell.
      destruct (Hrows i ell Hi) as (HellC & HellV & Hcol);
        [by apply (Hin ell lo hi)|].
      destruct (lookup_lt_is_Some_2 C (Z.to_nat ell)) as [c Hc]; [lia|].
      destruct (lookup_lt_is_Some_2 V (Z.to_nat ell)) as [v Hv]; [lia|].
      exists c, v. auto. }
    match goal with
    | |- ∃ t', for_range lo hi ?inner m = _ ∧ _ =>
        destruct (writes_loop lo hi inner
                    (λ ell, idx i (default 0 (C !! Z.to_nat ell) - bz))
                    (λ ell, default T0 (V !! Z.to_nat ell)) m)
          as (m' & E & Hlen' & Hframe' & Hlast')
    end.
    { intros ell Hell. destruct (Hcell ell Hell) as (c & v & Hc & Hv & Hcol).
      rewrite Hc, Hlen. cbn. by apply Hbounds. }
    { intros ell m0 Hell Hm0.
      destruct (Hcell ell Hell) as (c & v & Hc & Hv & Hcol).
      rewrite Hc, Hv. cbn [default].
      apply csr_to_dense_pass; [done | by apply (Hin ell lo hi) | congruence | done..]. }
    exists m'. split; [done|]. split; [congruence|]. split.
    + intros k Hk. rewrite Hframe'.
      * apply Hframe. intros i' ell c Hi' Hrow Hc.
        apply (Hk i' ell c); [lia | done..].
      * intros ell Hell. destruct (Hcell ell Hell) as (c & v & Hc & Hv & Hcol).
        rewrite Hc. cbn.
        apply (Hk i ell c); [lia | by apply (Hin ell lo hi) | done].
    + intros i' ell c v Hi' Hrow Hc Hv Hlater.
      destruct (Hrows i' ell ltac:(lia) Hrow) as (_ & _ & Hcol).
      specialize (Hcol c Hc).
      destruct (decide (i' = i)) as [->|Hne].
      * apply (Hin ell lo hi) in Hrow as Hell; [|done..].
        specialize (Hlast' ell Hell). cbn beta in Hlast'. rewrite Hc, Hv in Hlast'.
        apply Hlast'. intros ell' Hell' Heq.
        destruct (Hcell ell' ltac:(lia)) as (c' & v' & Hc' & Hv' & Hcol').
        rewrite Hc' in Heq. cbn in Heq.
        destruct (Hinj i (c' - bz) i (c - bz)) as [_ ?]; [done..|].
        apply (Hlater ell'); [apply (Hin ell' lo hi); [done..|lia] | lia |].
        rewrite Hc'. f_equal. lia.
      * rewrite Hframe'; [apply (Hlast i' ell c v); [lia | done..]|].
        intros ell' Hell' Heq.
        destruct (Hcell ell' Hell') as (c' & v' & Hc' & Hv' & Hcol').
        rewrite Hc' in Heq. cbn in Heq.
        pose proof (Hbounds i (c' - bz) Hi Hcol').
        pose proof (Hbounds i' (c - bz) ltac:(lia) Hcol).
        destruct (Hinj i (c' - bz) i' (c - bz)) as [? _]; [lia..| |lia]. lia.
  - exists m2. split; [done|]. split; [done|]. split.
    + intros k Hk. apply Hframe. intros i ell c Hi. apply Hk. lia.
    + intros i ell c v Hi. apply Hlast. lia.
Qed.
(** The two pairs of loops together. *)
Lemma csr_to_dense_loops :
  ∃ m2,
    (mat ← for_range 0 nr
             (λ i mat,
                for_range 0 nc (λ j mat, wr mat (i * sr + j * sc) T0) mat)
             mat;
     for_range 0 nr
       (λ i mat,
          lo ← rd P i;
          hi ← rd P (i + 1);
          for_range lo hi
            (λ ell mat,
               c ← rd C ell;
               let j := cint.to_int c in
               j ← (if decide (ib = IndexBase.One) then
                      if j =? cint.int_min then Undefined else mret (j - 1)
                    else mret j);
               v ← rd V ell;
               wr mat (i * sr + j * sc) v)
            mat)
       mat) = Ok m2
    ∧ length m2 = length mat
    ∧ (∀ i ell c v,
         0 ≤ i < nr → csr.in_row P i ell →
         C !! Z.to_nat ell = Some c → V !! Z.to_nat ell = Some v →
         (∀ ell', csr.in_row P i ell' → ell < ell' →
                  C !! Z.to_nat ell' ≠ Some c) →
         m2 !! Z.to_nat (idx i (c - bz)) = Some v)
    ∧ (∀ i j,
         0 ≤ i < nr → 0 ≤ j < nc →
         (∀ ell c, csr.in_row P i ell → C !! Z.to_nat ell = Some c →
                   c - bz ≠ j) →
         m2 !! Z.to_nat (idx i j) = Some T0)
    ∧ (∀ k : nat,
         (∀ i j, 0 ≤ i < nr → 0 ≤ j < nc → Z.to_nat (idx i j) ≠ k) →
         m2 !! k = mat !! k).
Proof.
  destruct csr_to_dense_clears as (m1 & -> & Hlen1 & Hframe1 & Hzero1).
  destruct (csr_to_dense_fills m1 Hlen1) as (m2 & E & Hlen2 & Hframe2 & Hlast2).
  cbn. exists m2. split; [done|]. split; [done|]. split; [done|]. split.
  - intros i j Hi Hj Habsent. rewrite Hframe2; [by apply Hzero1|].
    intros i' ell c Hi' Hrow Hc Heq.
    destruct (Hrows i' ell Hi' Hrow) as (_ & _ & Hcol). specialize (Hcol c Hc).
    pose proof (Hbounds i j Hi Hj). pose proof (Hbounds i' (c - bz) Hi' Hcol).
    destruct (Hinj i' (c - bz) i j) as [-> ?]; [done..|lia|].
    by apply (Habsent ell c).
  - intros k Hk. rewrite Hframe2; [by apply Hframe1|].
    intros i ell c Hi Hrow Hc.
    destruct (Hrows i ell Hi Hrow) as (_ & _ & Hcol). specialize (Hcol c Hc).
    by apply Hk.
Qed.
End csr_to_dense_facts.

(** X13.  [csr_to_dense(spmat, stride_row, stride_col, mat)] on a
    well-formed CSR matrix and strides that send the positions [(i, j)]
    of the matrix to distinct cells of [mat]: the call returns normally
    and leaves the heap as it is; the cell of [(i, j)] holds the value of
    the last entry of row [i] whose column is [j], and [0.0] when row [i]
    has no entry in column [j]; the cells of [mat] that are the cell of
    no position are as before. *)
Theorem csr_to_dense_entries {T : Type} (T0 : T) (M : csr.CSRMatrix)
    (stride_row stride_col : Z) (mat : list T) (h : heap T) :
  let P := view_i h (csr.rowptr M) in
  let C := view_i h (csr.colidxs M) in
  let V := view_T h (csr.vals M) in
  let base := csr.base_of (csr.index_base M) in
  let cell := λ i j : Z, Z.to_nat (i * stride_row + j * stride_col) in
  csr.well_formed M h →
  csr.strides_fit (csr.n_rows M) (csr.n_cols M) stride_row stride_col
                  (length mat) →
  ∃ mat',
    csr.csr_to_dense T0 M stride_row stride_col mat h = Ok (mat', h)
    ∧ length mat' = length mat
    ∧ (∀ i ell c v,
         0 ≤ i < csr.n_rows M → csr.in_row P i ell →
         C !! Z.to_nat ell = Some c → V !! Z.to_nat ell = Some v →
         (∀ ell', csr.in_row P i ell' → ell < ell' →
                  C !! Z.to_nat ell' ≠ Some c) →
         mat' !! cell i (c - base) = Some v)
    ∧ (∀ i j,
         0 ≤ i < csr.n_rows M → 0 ≤ j < csr.n_cols M →
         (∀ ell c, csr.in_row P i ell → C !! Z.to_nat ell = Some c →
                   c - base ≠ j) →
         mat' !! cell i j = Some T0)
    ∧ (∀ k : nat,
         (∀ i j, 0 ≤ i < csr.n_rows M → 0 ≤ j < csr.n_cols M → cell i j ≠ k) →
         mat' !! k = mat !! k).
Proof.
  cbv zeta. intros (Hnr & Hnc & HP & Hrows) (Hbounds & Hinj).
  destruct (csr_to_dense_loops T0 _ _ _ _ _ _ _ (csr.index_base M) mat
              Hnr Hnc HP Hrows Hbounds Hinj) as (m2 & E & Hm2).
  exists m2. split; [|exact Hm2].
  unfold csr.csr_to_dense. do 3 prog_step. unfold lift.
  cbv zeta in E. by rewrite E.
Qed.

Lemma csr_to_dense_entries_witness :
  let M := examples.csr_diag in
  let h := examples.h_diag_csr in
  let mat := [9; 9; 9; 9; 9] in
  let cell := λ i j : Z, Z.to_nat (i * 1 + j * 2) in
  csr.well_formed M h
  ∧ csr.strides_fit (csr.n_rows M) (csr.n_cols M) 1 2 (length mat)
  ∧ csr.csr_to_dense 0 M 1 2 mat h = Ok ([5; 0; 0; 7; 9], h)
  ∧ ∃ mat',
      csr.csr_to_dense 0 M 1 2 mat h = Ok (mat', h)
      ∧ length mat' = length mat
      ∧ (∀ i ell c v,
           0 ≤ i < csr.n_rows M → csr.in_row (view_i h (csr.rowptr M)) i ell →
           view_i h (csr.colidxs M) !! Z.to_nat ell = Some c →
           view_T h (csr.vals M) !! Z.to_nat ell = Some v →
           (∀ ell', csr.in_row (view_i h (csr.rowptr M)) i ell' → ell < ell' →
                    view_i h (csr.colidxs M) !! Z.to_nat ell' ≠ Some c) →
           mat' !! cell i (c - csr.base_of (csr.index_base M)) = Some v)
      ∧ (∀ i j,
           0 ≤ i < csr.n_rows M → 0 ≤ j < csr.n_cols M →
           (∀ ell c, csr.in_row (view_i h (csr.rowptr M)) i ell →
                     view_i h (csr.colidxs M) !! Z.to_nat ell = Some c →
                     c - csr.base_of (csr.index_base M) ≠ j) →
           mat' !! cell i j = Some 0)
      ∧ (∀ k : nat,
           (∀ i j, 0 ≤ i < csr.n_rows M → 0 ≤ j < csr.n_cols M → cell i j ≠ k) →
           mat' !! k = mat !! k).
Proof.
  cbv zeta.
  assert (csr.well_formed examples.csr_diag examples.h_diag_csr) as Hwf.
  { unfold csr.well_formed.
    change (view_i examples.h_diag_csr (csr.rowptr examples.csr_diag))
      with [0; 1; 2].
    change (view_i examples.h_diag_csr (csr.colidxs examples.csr_diag))
      with [0; 1].
    change (view_T examples.h_diag_csr (csr.vals examples.csr_diag))
      with [5; 7].
    cbn. split; [lia|]. split; [unfold cint.int_max; lia|].
    split; [lia|].
    intros i ell Hi (lo & hi & Hlo & Hhi & Hell).
    assert (i = 0 ∨ i = 1) as [-> | ->] by lia; cbn in Hlo, Hhi;
      injection Hlo as <-; injection Hhi as <-;
      (split; [lia|]); (split; [lia|]); intros c Hc.
    - assert (ell = 0) as -> by lia. cbn in Hc. injection Hc as <-. lia.
    - assert (ell = 1) as -> by lia. cbn in Hc. injection Hc as <-. lia. }
  assert (csr.strides_fit (csr.n_rows examples.csr_diag)
            (csr.n_cols examples.csr_diag) 1 2 (length [9; 9; 9; 9; 9])) as Hfit.
  { unfold csr.strides_fit. cbn. split; intros; lia. }
  split; [exact Hwf|]. split; [exact Hfit|]. split; [reflexivity|].
  exact (csr_to_dense_entries 0 examples.csr_diag 1 2 [9; 9; 9; 9; 9]
           examples.h_diag_csr Hwf Hfit).
Defined.

(** ** A diagonal, to CSR and on to dense *)

Lemma index_injective (layout : blas.Layout) (n i j i' j' : Z) :
  0 ≤ i < n → 0 ≤ j < n → 0 ≤ i' < n → 0 ≤ j' < n →
  dense.index layout n i j = dense.index layout n i' j' → i = i' ∧ j = j'.
Proof.
  intros Hi Hj Hi' Hj'. unfold dense.index. destruct layout; intros H.
  - assert (j = j') by nia. subst. lia.
  - assert (i = i') by nia. subst. lia.
Qed.

Lemma diagonal_rowptr_lookup (nnz n i : Z) :
  0 ≤ nnz ≤ n → 0 ≤ i ≤ n →
  (seqZ 0 nnz ++ replicate (Z.to_nat (n + 1 - nnz)) nnz) !! Z.to_nat i
  = Some (Z.min i nnz).
Proof.
  intros Hn Hi. destruct (Z.lt_ge_cases i nnz).
  - rewrite lookup_app_l by (rewrite length_seqZ; lia).
    rewrite lookup_seqZ_lt by lia. f_equal. lia.
  - rewrite lookup_app_r by (rewrite length_seqZ; lia).
    rewrite lookup_replicate_2 by (rewrite length_seqZ; lia). f_equal. lia.
Qed.

Lemma diagonal_in_row (nnz n i ell : Z) :
  0 ≤ nnz ≤ n → 0 ≤ i < n →
  csr.in_row (seqZ 0 nnz ++ replicate (Z.to_nat (n + 1 - nnz)) nnz) i ell
  ↔ i < nnz ∧ ell = i.
Proof.
  intros Hn Hi. unfold csr.in_row. split.
  - intros (lo & hi & Hlo & Hhi & Hell).
    rewrite diagonal_rowptr_lookup in Hlo, Hhi by lia.
    injection Hlo as <-. injection Hhi as <-. lia.
  - intros [Hlt ->]. exists (Z.min i nnz), (Z.min (i + 1) nnz).
    rewrite !diagonal_rowptr_lookup by lia. repeat split; lia.
Qed.

(** X14.  A diagonal given to [csr_from_diag] and the result given to
    [csr_to_dense(spmat, layout, mat)], for a square matrix of order
    [n]: both calls return normally, and the dense matrix holds
    [vals[i]] at [(i, i + offset - base)] for [i < nnz] and [0.0]
    everywhere else, [base] being the index base of the matrix (the
    column index that [csr_from_diag] stores is read back under the
    index base). *)
Theorem csr_from_diag_to_dense {T : Type} (T0 : T) (vals : list T) nnz offset
    (M : csr.CSRMatrix) (jp jc : nat → Z) (jv : nat → T) (h : heap T)
    (layout : blas.Layout) (mat : list T) :
  let n := csr.n_rows M in
  let base := csr.base_of (csr.index_base M) in
  csr._can_reserve M = true → csr.own_memory M = true →
  csr.n_cols M = n → n ≤ cint.int_max →
  0 ≤ nnz → nnz ≤ Z.of_nat (length vals) →
  base ≤ offset → nnz + offset - base ≤ n →
  Z.of_nat (length mat) = n * n →
  ∃ M' h' mat',
    csr.csr_from_diag vals nnz offset M jp jc jv h = Ok (M', h')
    ∧ csr.csr_to_dense_layout T0 M' layout mat h' = Ok (mat', h')
    ∧ length mat' = length mat
    ∧ ∀ i j, 0 ≤ i < n → 0 ≤ j < n →
        mat' !! Z.to_nat (dense.index layout n i j)
        = Some (if decide (i < nnz ∧ j = i + offset - base)
                then default T0 (vals !! Z.to_nat i) else T0).
Proof.
  cbv zeta. intros Hcr Hown Hsq Hint Hnnz Hvals Hbase Hfit Hmat.
  assert (nnz ≤ csr.n_rows M) as Hrows.
  { unfold csr.base_of in *. destruct (csr.index_base M); lia. }
  destruct (csr_from_diag_Ok vals nnz offset M jp jc jv h)
    as (M' & h' & E & Hnr & Hnc & Hib & Hnz & HP & HC & HV);
    [done | done | unfold csr.base_of in *; destruct (csr.index_base M); lia
    | done..|].
  set (n := csr.n_rows M) in *.
  assert (∀ i j, dense.index layout n i j
                 = i * (if decide (layout = blas.ColMajor) then 1 else n)
                   + j * (if decide (layout = blas.ColMajor) then n else 1))
    as Hidx.
  { intros i j. unfold dense.index. destruct layout; destruct (decide _);
      try done; lia. }
  destruct (csr_to_dense_loops T0
              (view_i h' (csr.rowptr M')) (view_i h' (csr.colidxs M'))
              (view_T h' (csr.vals M')) n n
              (if decide (layout = blas.ColMajor) then 1 else n)
              (if decide (layout = blas.ColMajor) then n else 1)
              (csr.index_base M') mat)
    as (mat' & Eloops & Hlen & Hlast & Hzero & _).
  { lia. }
  { lia. }
  { rewrite HP. list_len. lia. }
  { intros i ell Hi Hrow. rewrite HP in Hrow.
    apply diagonal_in_row in Hrow as [Hlt ->]; [|lia..].
    rewrite HC, HV. list_len. split; [lia|]. split; [lia|].
    intros c Hc. rewrite list_lookup_fmap, lookup_seqZ_lt in Hc by lia.
    injection Hc as <-. rewrite Hib. lia. }
  { intros i j Hi Hj. rewrite <- Hidx. unfold dense.index. destruct layout; nia. }
  { intros i j i' j' Hi Hj Hi' Hj'. rewrite <- !Hidx.
    by apply index_injective. }
  exists M', h', mat'. split; [done|]. split.
  { unfold csr.csr_to_dense_layout.
    assert (csr.csr_to_dense T0 M'
              (if decide (layout = blas.ColMajor) then 1 else n)
              (if decide (layout = blas.ColMajor) then n else 1) mat h'
            = Ok (mat', h')) as Edense.
    { unfold csr.csr_to_dense. do 3 prog_step. unfold lift.
      rewrite Hnr, Hnc, Hsq. fold n. cbv zeta in Eloops. by rewrite Eloops. }
    rewrite Hnr, Hnc, Hsq. fold n. by destruct (decide _). }
  split; [done|].
  intros i j Hi Hj. rewrite Hidx.
  destruct (decide (i < nnz ∧ j = i + offset - _)) as [[Hlt ->]|Hno].
  - destruct (lookup_lt_is_Some_2 vals (Z.to_nat i)) as [v Hv]; [lia|].
    rewrite Hv. cbn [default]. rewrite <- Hib.
    apply (Hlast i i (i + offset) v); [done | | | |].
    + rewrite HP. apply diagonal_in_row; [lia..|done].
    + rewrite HC, list_lookup_fmap, lookup_seqZ_lt by lia. cbn. f_equal. lia.
    + rewrite HV, lookup_take_lt by lia. done.
    + intros ell' Hrow Hell'. rewrite HP in Hrow.
      apply diagonal_in_row in Hrow; lia.
  - apply Hzero; [done..|].
    intros ell c Hrow Hc. rewrite HP in Hrow.
    apply diagonal_in_row in Hrow as [Hlt ->]; [|lia..].
    rewrite HC, list_lookup_fmap, lookup_seqZ_lt in Hc by lia.
    injection Hc as <-. rewrite Hib. intros Heq. apply Hno. lia.
Qed.

Lemma csr_from_diag_to_dense_witness :
  let M := csr.CSRMatrix_new 2 2 IndexBase.Zero in
  let h := Heap (T:=Z) ∅ ∅ 0%nat in
  let mat := [9; 9; 9; 9] in
  csr._can_reserve M = true ∧ csr.own_memory M = true
  ∧ csr.n_cols M = csr.n_rows M ∧ csr.n_rows M ≤ cint.int_max
  ∧ 0 ≤ 1 ∧ 1 ≤ Z.of_nat (length [5])
  ∧ csr.base_of (csr.index_base M) ≤ 1
  ∧ 1 + 1 - csr.base_of (csr.index_base M) ≤ csr.n_rows M
  ∧ Z.of_nat (length mat) = csr.n_rows M * csr.n_rows M
  ∧ ∃ M' h' mat',
      csr.csr_from_diag [5] 1 1 M examples.junk examples.junk examples.junk h
      = Ok (M', h')
      ∧ csr.csr_to_dense_layout 0 M' blas.RowMajor mat h' = Ok (mat', h')
      ∧ length mat' = length mat
      ∧ ∀ i j, 0 ≤ i < csr.n_rows M → 0 ≤ j < csr.n_rows M →
          mat' !! Z.to_nat (dense.index blas.RowMajor (csr.n_rows M) i j)
          = Some (if decide (i < 1 ∧ j = i + 1 - csr.base_of (csr.index_base M))
                  then default 0 ([5] !! Z.to_nat i) else 0).
Proof.
  cbv zeta. do 3 (split; [reflexivity|]).
  split; [cbn; unfold cint.int_max; lia|].
  do 5 (split; [cbn; lia|]).
  apply (csr_from_diag_to_dense 0 [5] 1 1 (csr.CSRMatrix_new 2 2 IndexBase.Zero)
           examples.junk examples.junk examples.junk (Heap ∅ ∅ 0%nat)
           blas.RowMajor [9; 9; 9; 9]);
    try reflexivity; cbn; unfold cint.int_max; lia.
Defined.

(** ** The strides of [csr_to_dense(spmat, layout, mat)] *)

Lemma for_loop_first_fails {S} (body : Z → S → outcome S) count i s :
  (0 < count)%nat → (∀ s', body i s ≠ Ok s') →
  ∀ s', for_loop count i body s ≠ Ok s'.
Proof.
  intros Hpos Hfirst s'. destruct count as [|c]; [lia|]. cbn. intros H.
  apply bind_Ok_inv in H as (t & Hb & _). by apply (Hfirst t).
Qed.

Lemma for_loop_last_fails_inv {S} (I : S → Prop) (body : Z → S → outcome S)
    count i s :
  (0 < count)%nat → I s →
  (∀ j t t', I t → body j t = Ok t' → I t') →
  (∀ t t', I t → body (i + Z.of_nat count - 1) t ≠ Ok t') →
  ∀ s', for_loop count i body s ≠ Ok s'.
Proof.
  revert i s. induction count as [|c IH]; intros i s Hpos Hs Hstep Hlast s'; [lia|].
  cbn. intros H. apply bind_Ok_inv in H as (t & Hb & H).
  destruct c as [|c].
  - apply (Hlast s t Hs). rewrite <- Hb. f_equal. lia.
  - revert H. apply IH; [lia | by eapply Hstep | done |]. intros u u' Hu.
    replace (i + 1 + Z.of_nat (Datatypes.S c) - 1)
      with (i + Z.of_nat (Datatypes.S (Datatypes.S c)) - 1) by lia.
    by apply Hlast.
Qed.

Lemma wr_beyond {A} (a : list A) i x a' :
  Z.of_nat (length a) ≤ i → wr a i x ≠ Ok a'.
Proof.
  intros Hi. unfold wr.
  destruct (Z.ltb_spec i (Z.of_nat (length a))); [lia|].
  by rewrite andb_false_r.
Qed.

Lemma clear_row_length {T} (T0 : T) (nc a b : Z) (m m' : list T) :
  for_range 0 nc (λ j mat, wr mat (a + j * b) T0) m = Ok m' →
  length m' = length m.
Proof.
  unfold for_range. intros H.
  apply (for_loop_inv (λ t, length t = length m)) in H; [done | done |].
  intros j t t' Ht Hwr. apply wr_length in Hwr. congruence.
Qed.

(** X15.  [csr_to_dense(spmat, layout, mat)] takes the number of columns
    for the column stride of a column-major matrix, and the number of
    rows for the row stride of a row-major one.  For a matrix with more
    columns than rows (and at least one row) in column-major layout, and
    for a matrix with more rows than columns (and at least one column)
    in row-major layout, the call stores outside a buffer of
    [n_rows * n_cols] cells: it does not return normally, whatever the
    matrix holds. *)
Theorem csr_to_dense_layout_overruns {T : Type} (T0 : T) (M : csr.CSRMatrix)
    (mat : list T) (h : heap T) :
  Z.of_nat (length mat) ≤ csr.n_rows M * csr.n_cols M →
  (1 ≤ csr.n_rows M < csr.n_cols M →
   ∀ r, csr.csr_to_dense_layout T0 M blas.ColMajor mat h ≠ Ok r)
  ∧ (1 ≤ csr.n_cols M < csr.n_rows M →
     ∀ r, csr.csr_to_dense_layout T0 M blas.RowMajor mat h ≠ Ok r).
Proof.
  intros Hlen. split; intros Hshape r H;
    unfold csr.csr_to_dense_layout in H;
    (destruct (decide _) as [e|e]; [try discriminate e|try (by exfalso; apply e)]);
    unfold csr.csr_to_dense in H; revert H; do 3 prog_step; unfold lift;
    match goal with
    | |- match ?o with _ => _ end = _ → _ =>
        destruct o as [m2| |] eqn:E; [|discriminate..]
    end; intros _;
    apply bind_Ok_inv in E as (m1 & E & _); revert E; unfold for_range.
  - apply for_loop_first_fails; [lia|]. intros s'.
    apply (for_loop_last_fails_inv (λ t, length t = length mat)); [lia | done | |].
    + intros j t t' Ht Hwr. apply wr_length in Hwr. congruence.
    + intros t t' Ht. apply wr_beyond. nia.
  - apply (for_loop_last_fails_inv (λ t, length t = length mat)); [lia | done | |].
    + intros i t t' Ht Hrow. apply clear_row_length in Hrow. congruence.
    + intros t t' Ht. apply for_loop_first_fails; [lia|].
      intros s'. apply wr_beyond. nia.
Qed.

Lemma csr_to_dense_layout_overruns_witness :
  let M := csr.mkCSRMatrix 1 2 IndexBase.Zero false 0 4%nat 5%nat 6%nat true in
  let h := Heap (T:=Z) {[4%nat := []]} {[5%nat := [0; 0]; 6%nat := []]} 6%nat in
  Z.of_nat (length [9; 9]) ≤ csr.n_rows M * csr.n_cols M
  ∧ 1 ≤ csr.n_rows M < csr.n_cols M
  ∧ ∀ r, csr.csr_to_dense_layout 0 M blas.ColMajor [9; 9] h ≠ Ok r.
Proof.
  cbv zeta.
  assert (Z.of_nat (length [9; 9]) ≤ 1 * 2) as Hlen by (cbn; lia).
  assert (1 ≤ 1 < 2) as Hshape by lia.
  split; [exact Hlen|]. split; [exact Hshape|].
  exact (proj1 (csr_to_dense_layout_overruns 0
                  (csr.mkCSRMatrix 1 2 IndexBase.Zero false 0 4%nat 5%nat 6%nat
                                   true)
                  [9; 9]
                  (Heap {[4%nat := []]} {[5%nat := [0; 0]; 6%nat := []]} 6%nat)
                  Hlen) Hshape).
Defined.
